(** * dftimewolf/lib/state.py: the orchestration state of dfTimewolf

    A shallow embedding of [DFTimewolfState] and of the drivers that run
    modules against it, followed by the properties of the design
    description that can be settled on it.

    Layout:
    - data: containers, error records, module definitions, module logic;
    - the state record and the world (state, logger output, call trace);
    - a small state-and-exception monad in which the methods are written;
    - the methods of [DFTimewolfState], in source order;
    - the interleaved run of the module tasks of [RunModules];
    - the loading of a recipe and the execution plan;
    - lemmas and the properties. *)

From Stdlib Require Import ZArith Lia Ascii String.
From stdpp Require Import base option list gmap strings pretty.

Open Scope string_scope.
Open Scope list_scope.

(** ** Data *)

(** A container class: [type(container)], with its class attribute
    [CONTAINER_TYPE], the tag under which instances are stored. *)
Record ContainerClass := {
  class_name : string;
  CONTAINER_TYPE : string
}.

#[global] Instance ContainerClass_eq_dec : EqDecision ContainerClass.
Proof. solve_decision. Defined.

#[global] Program Instance ContainerClass_countable : Countable ContainerClass :=
  inj_countable'
    (fun k => (class_name k, CONTAINER_TYPE k))
    (fun p => {| class_name := p.1; CONTAINER_TYPE := p.2 |}) _.
Next Obligation. by intros []. Qed.

(** An attribute container: an instance of a container class. *)
Record Container := {
  container_class : ContainerClass;
  attributes : list (string * string)
}.

#[global] Instance Container_eq_dec : EqDecision Container.
Proof. solve_decision. Defined.

(** [container.CONTAINER_TYPE] *)
Definition container_type (c : Container) : string :=
  CONTAINER_TYPE (container_class c).

(** [errors.DFTimewolfError]: the error record, which is also the exception
    a module raises. *)
Record DFTimewolfError := {
  message : string;
  name : string;
  stacktrace : option string;
  critical : bool;
  unexpected : bool
}.

#[global] Instance DFTimewolfError_eq_dec : EqDecision DFTimewolfError.
Proof. solve_decision. Defined.

(** An exception that is not a [DFTimewolfError]: its class,
    [str(exception)] and the text that [traceback.format_exc()] gives while
    it is handled. *)
Record PyException := {
  exc_class : string;
  exc_str : string;
  exc_traceback : string
}.

(** What a call can raise.  [ExcException] is an exception that derives from
    [Exception]; [ExcBaseException] is one that derives from [BaseException]
    only ([SystemExit], [KeyboardInterrupt], [GeneratorExit]), which a
    clause [except Exception] does not catch. *)
Inductive Exc :=
| ExcDFTimewolfError (e : DFTimewolfError)
| ExcCriticalError (msg : string)
| ExcException (x : PyException)
| ExcBaseException (x : PyException).

Definition newline : ascii := Ascii.ascii_of_nat 10.

(** [traceback.format_exc()] for an exception that the library raises in
    the state's own code: its first line and its last, which names the
    exception.  The lines between them name files and positions of the
    installation and are left out. *)
Definition format_exc (exc_class exc_str : string) : string :=
  "Traceback (most recent call last):"
  +:+ String newline (exc_class +:+ ": " +:+ exc_str +:+ String newline "").

Definition KeyError (key : string) : Exc :=
  ExcException {| exc_class := "KeyError"; exc_str := key; exc_traceback := "" |}.

Definition ValueError (msg : string) : Exc :=
  ExcException {| exc_class := "ValueError"; exc_str := msg;
                  exc_traceback := format_exc "ValueError" msg |}.

(** Keyword arguments and cache values are opaque to the state. *)
Definition Args := list (string * string).
Definition Value := string.

(** Module code, as far as the state sees it: a finite program over the
    state's store, cache and error interface that returns or raises; what
    it raises is a [DFTimewolfError], another exception that derives from
    [Exception], the two kinds that the drivers tell apart, or an exception
    that derives from [BaseException] only, which they do not catch. *)
Inductive Logic :=
| Return
| RaiseError (e : DFTimewolfError)
| RaiseException (x : PyException)
| RaiseBaseException (x : PyException)
| DoAddError (e : DFTimewolfError) (k : Logic)
| DoStoreContainer (c : Container) (k : Logic)
| DoGetContainers (cls : ContainerClass) (pop : bool) (k : list Container -> Logic)
| DoAddToCache (key : string) (value : Value) (k : Logic)
| DoGetFromCache (key : string) (default : option Value) (k : option Value -> Logic).

(** [module.ThreadAwareModule]: what a module that fans out over containers
    adds to the base contract. *)
Record ThreadAwareModule := {
  PreSetUp : Logic;
  PostSetUp : Logic;
  PreProcess : Logic;
  ProcessContainer : Container -> Logic;
  PostProcess : Logic;
  GetThreadOnContainerType : ContainerClass;
  GetThreadPoolSize : Z;
  KeepThreadedContainersInState : bool
}.

Inductive ModuleKind :=
| Plain (Process : Logic)
| ThreadAware (ta : ThreadAwareModule).

(** [module.BaseModule]: a module instance of the pool. *)
Record BaseModule := {
  module_name : string;
  SetUp : Args -> Logic;
  ModuleCleanUp : Logic;
  kind : ModuleKind
}.

(** A module definition of the recipe. *)
Record ModuleDefinition := {
  md_name : string;
  md_runtime_name : option string;
  md_args : Args;
  md_wants : list string
}.

(** [module_definition.get('runtime_name', module_name)] *)
Definition runtime_name_of (md : ModuleDefinition) : string :=
  default (md_name md) (md_runtime_name md).

(** The recipe dictionary; a key that is absent is [None]. *)
Record Recipe := {
  recipe_name : option string;
  modules : option (list ModuleDefinition);
  preflights : option (list ModuleDefinition)
}.

(** A streaming callback: a callable that takes the container. *)
Record Callback := {
  cb_name : string;
  cb_body : Container -> Logic
}.

(** ** The state *)

Record DFTimewolfState := {
  command_line_options : Args;
  _cache : gmap string Value;
  _module_pool : gmap string BaseModule;
  _threading_event_per_module : gmap string bool;
  errors : list DFTimewolfError;
  global_errors : list DFTimewolfError;
  recipe : Recipe;
  store : gmap string (list Container);
  streaming_callbacks : gmap ContainerClass (list Callback);
  _abort_execution : bool
}.

(** [DFTimewolfState.__init__] *)
Definition init : DFTimewolfState := {|
  command_line_options := [];
  _cache := ∅;
  _module_pool := ∅;
  _threading_event_per_module := ∅;
  errors := [];
  global_errors := [];
  recipe := {| recipe_name := None; modules := None; preflights := None |};
  store := ∅;
  streaming_callbacks := ∅;
  _abort_execution := false
|}.

Definition set_cache (v : gmap string Value) (s : DFTimewolfState) :=
  {| command_line_options := command_line_options s; _cache := v;
     _module_pool := _module_pool s;
     _threading_event_per_module := _threading_event_per_module s;
     errors := errors s; global_errors := global_errors s; recipe := recipe s;
     store := store s; streaming_callbacks := streaming_callbacks s;
     _abort_execution := _abort_execution s |}.

Definition set_events (v : gmap string bool) (s : DFTimewolfState) :=
  {| command_line_options := command_line_options s; _cache := _cache s;
     _module_pool := _module_pool s;
     _threading_event_per_module := v;
     errors := errors s; global_errors := global_errors s; recipe := recipe s;
     store := store s; streaming_callbacks := streaming_callbacks s;
     _abort_execution := _abort_execution s |}.

Definition set_errors (v : list DFTimewolfError) (s : DFTimewolfState) :=
  {| command_line_options := command_line_options s; _cache := _cache s;
     _module_pool := _module_pool s;
     _threading_event_per_module := _threading_event_per_module s;
     errors := v; global_errors := global_errors s; recipe := recipe s;
     store := store s; streaming_callbacks := streaming_callbacks s;
     _abort_execution := _abort_execution s |}.

Definition set_global_errors (v : list DFTimewolfError) (s : DFTimewolfState) :=
  {| command_line_options := command_line_options s; _cache := _cache s;
     _module_pool := _module_pool s;
     _threading_event_per_module := _threading_event_per_module s;
     errors := errors s; global_errors := v; recipe := recipe s;
     store := store s; streaming_callbacks := streaming_callbacks s;
     _abort_execution := _abort_execution s |}.

Definition set_store (v : gmap string (list Container)) (s : DFTimewolfState) :=
  {| command_line_options := command_line_options s; _cache := _cache s;
     _module_pool := _module_pool s;
     _threading_event_per_module := _threading_event_per_module s;
     errors := errors s; global_errors := global_errors s; recipe := recipe s;
     store := v; streaming_callbacks := streaming_callbacks s;
     _abort_execution := _abort_execution s |}.

Definition set_streaming_callbacks
    (v : gmap ContainerClass (list Callback)) (s : DFTimewolfState) :=
  {| command_line_options := command_line_options s; _cache := _cache s;
     _module_pool := _module_pool s;
     _threading_event_per_module := _threading_event_per_module s;
     errors := errors s; global_errors := global_errors s; recipe := recipe s;
     store := store s; streaming_callbacks := v;
     _abort_execution := _abort_execution s |}.

Definition set_abort_execution (v : bool) (s : DFTimewolfState) :=
  {| command_line_options := command_line_options s; _cache := _cache s;
     _module_pool := _module_pool s;
     _threading_event_per_module := _threading_event_per_module s;
     errors := errors s; global_errors := global_errors s; recipe := recipe s;
     store := store s; streaming_callbacks := streaming_callbacks s;
     _abort_execution := v |}.

(** *** Methods that neither log nor raise *)

(** [AddToCache]: [self._cache[name] = value] *)
Definition AddToCache (key : string) (value : Value) (s : DFTimewolfState) :=
  set_cache (<[key := value]> (_cache s)) s.

(** [GetFromCache]: [self._cache.get(name, default_value)] *)
Definition GetFromCache (key : string) (default_value : option Value)
    (s : DFTimewolfState) : option Value :=
  match _cache s !! key with
  | Some v => Some v
  | None => default_value
  end.

(** [StoreContainer]:
    [self.store.setdefault(container.CONTAINER_TYPE, []).append(container)] *)
Definition StoreContainer (c : Container) (s : DFTimewolfState) :=
  set_store
    (<[container_type c := default [] (store s !! container_type c) ++ [c]]>
       (store s)) s.

(** [GetContainers]: the containers stored under the class's tag, and the
    state, in which [pop] has replaced the tag's list by an empty one. *)
Definition GetContainers (cls : ContainerClass) (pop : bool)
    (s : DFTimewolfState) : list Container * DFTimewolfState :=
  let container_objects := default [] (store s !! CONTAINER_TYPE cls) in
  (container_objects,
   if pop then set_store (<[CONTAINER_TYPE cls := []]> (store s)) s else s).

(** [RegisterStreamingCallback] *)
Definition RegisterStreamingCallback (target : Callback)
    (container_type : ContainerClass) (s : DFTimewolfState) :=
  set_streaming_callbacks
    (<[container_type :=
         default [] (streaming_callbacks s !! container_type) ++ [target]]>
       (streaming_callbacks s)) s.

(** [AddError] *)
Definition AddError (error : DFTimewolfError) (s : DFTimewolfState) :=
  let s := if critical error then set_abort_execution true s else s in
  set_errors (errors s ++ [error]) s.

(** [CleanUp] *)
Definition CleanUp (s : DFTimewolfState) :=
  set_errors [] (set_global_errors (global_errors s ++ errors s) s).

(** The two statements of [CleanUp], which no lock holds together:
    [self.global_errors.extend(self.errors)] and [self.errors = []] *)
Definition CleanUp_extend (s : DFTimewolfState) :=
  set_global_errors (global_errors s ++ errors s) s.

Definition CleanUp_clear (s : DFTimewolfState) :=
  set_errors [] s.

(** ** The world: state, logger output and the trace of calls *)

Inductive LogLevel := DEBUG | INFO | ERROR | CRITICAL.

Record LogRecord := {
  level : LogLevel;
  text : string
}.

(** What the state calls or signals, in the order in which it happens: the
    entry points of modules, streaming callbacks, and the setting of a
    module's threading event. *)
Inductive Call :=
| CallPreSetUp (m : string)
| CallSetUp (m : string) (args : Args)
| CallPostSetUp (m : string)
| CallPreProcess (m : string)
| CallProcess (m : string)
| CallProcessContainer (m : string) (c : Container)
| CallPostProcess (m : string)
| CallModuleCleanUp (m : string)
| CallCallback (cb : string) (c : Container)
| EventSet (runtime_name : string).

#[global] Instance Call_eq_dec : EqDecision Call.
Proof. solve_decision. Defined.

Record World := {
  state : DFTimewolfState;
  log : list LogRecord;
  calls : list Call
}.

Definition initial_world : World :=
  {| state := init; log := []; calls := [] |}.

(** ** A monad for methods that log, call modules, raise or wait *)

Inductive Result (A : Type) :=
| Ok (a : A)
| Raised (e : Exc)
| Blocked.
Arguments Ok {A} a.
Arguments Raised {A} e.
Arguments Blocked {A}.

Definition M (A : Type) : Type := World -> Result A * World.

#[global] Instance M_ret : MRet M := fun A a w => (Ok a, w).

#[global] Instance M_bind : MBind M := fun A B f m w =>
  match m w with
  | (Ok a, w') => f a w'
  | (Raised e, w') => (Raised e, w')
  | (Blocked, w') => (Blocked, w')
  end.

Definition raise {A} (e : Exc) : M A := fun w => (Raised e, w).

Definition block {A} : M A := fun w => (Blocked, w).

Definition get_state : M DFTimewolfState := fun w => (Ok (state w), w).

Definition modify_state (f : DFTimewolfState -> DFTimewolfState) : M unit :=
  fun w => (Ok tt, {| state := f (state w); log := log w; calls := calls w |}).

Definition with_state {A} (f : DFTimewolfState -> A * DFTimewolfState) : M A :=
  fun w => let '(a, s) := f (state w) in
           (Ok a, {| state := s; log := log w; calls := calls w |}).

Definition logger (lvl : LogLevel) (msg : string) : M unit :=
  fun w => (Ok tt, {| state := state w;
                      log := log w ++ [{| level := lvl; text := msg |}];
                      calls := calls w |}).

Definition record_call (c : Call) : M unit :=
  fun w => (Ok tt, {| state := state w; log := log w; calls := calls w ++ [c] |}).

(** [try: body  except ...: handler]; a clause that does not match the
    exception is [None]. *)
Definition try_except {A} (body : M A) (handler : Exc -> option (M A)) : M A :=
  fun w =>
    match body w with
    | (Raised e, w') =>
        match handler e with
        | Some h => h w'
        | None => (Raised e, w')
        end
    | r => r
    end.

(** [try: body  finally: final]: an exception of [final] replaces the
    outcome of [body]. *)
Definition try_finally {A} (body : M A) (final : M unit) : M A :=
  fun w =>
    match body w with
    | (Blocked, w') => (Blocked, w')
    | (r, w') =>
        match final w' with
        | (Ok _, w'') => (r, w'')
        | (Raised e, w'') => (Raised e, w'')
        | (Blocked, w'') => (Blocked, w'')
        end
    end.

(** [pass] *)
Definition pass : M unit := mret tt.

(** [for x in xs: body x] *)
Fixpoint for_each {A} (xs : list A) (body : A -> M unit) : M unit :=
  match xs with
  | [] => pass
  | x :: xs' => body x ;; for_each xs' body
  end.

(** [d[key]], which raises [KeyError] when the key is absent *)
Definition getitem {V} (d : gmap string V) (key : string) : M V :=
  match d !! key with
  | Some v => mret v
  | None => raise (KeyError key)
  end.

(** *** Running module code *)

Fixpoint run_logic (p : Logic) : M unit :=
  match p with
  | Return => pass
  | RaiseError e => raise (ExcDFTimewolfError e)
  | RaiseException x => raise (ExcException x)
  | RaiseBaseException x => raise (ExcBaseException x)
  | DoAddError e k => modify_state (AddError e) ;; run_logic k
  | DoStoreContainer c k => modify_state (StoreContainer c) ;; run_logic k
  | DoGetContainers cls pop k =>
      cs ← with_state (GetContainers cls pop); run_logic (k cs)
  | DoAddToCache key value k => modify_state (AddToCache key value) ;; run_logic k
  | DoGetFromCache key default k =>
      s ← get_state; run_logic (k (GetFromCache key default s))
  end.

(** *** Methods that log, call or raise *)

(** [StreamContainer] *)
Definition StreamContainer (container : Container) : M unit :=
  s ← get_state;
  for_each (default [] (streaming_callbacks s !! container_class container))
    (fun callback =>
       record_call (CallCallback (cb_name callback) container) ;;
       run_logic (cb_body callback container)).

(** [AddError] and [CleanUp] as methods *)
Definition AddErrorM (error : DFTimewolfError) : M unit :=
  modify_state (AddError error).

Definition CleanUpM : M unit := modify_state CleanUp.

(** [str.split(sep)] for a separator of one character *)
Fixpoint split (sep : ascii) (s : string) : list string :=
  match s with
  | EmptyString => [""]
  | String a s' =>
      if Ascii.eqb a sep then "" :: split sep s'
      else match split sep s' with
           | [] => [String a ""]
           | x :: xs => String a x :: xs
           end
  end.

(** Truth value of [error.stacktrace]: neither [None] nor empty *)
Definition stacktrace_lines (e : DFTimewolfError) : list string :=
  match stacktrace e with
  | Some (String a s) => split newline (String a s)
  | _ => []
  end.

(** The body of the loop of [CheckErrors] over [enumerate(error_objects)],
    from position [index]; [critical_errors] is the flag so far. *)
Fixpoint CheckErrors_loop (index : nat) (error_objects : list DFTimewolfError)
    (critical_errors : bool) : M bool :=
  match error_objects with
  | [] => mret critical_errors
  | error :: rest =>
      logger ERROR (pretty (index + 1) +:+ ": error from " +:+ name error
                    +:+ ": " +:+ message error) ;;
      for_each (stacktrace_lines error) (logger ERROR) ;;
      CheckErrors_loop (S index) rest
        (if critical error then true else critical_errors)
  end.

Definition NEW_ISSUE_URL := "https://github.com/log2timeline/dftimewolf/issues/new".

(** [CheckErrors] *)
Definition CheckErrors (is_global : bool) : M unit :=
  s ← get_state;
  let error_objects := if is_global then global_errors s else errors s in
  (if bool_decide (error_objects = []) then pass
   else logger ERROR "dfTimewolf encountered one or more errors:") ;;
  CheckErrors_loop 0 error_objects false ≫= fun critical_errors : bool =>
  (if existsb unexpected error_objects then
     logger CRITICAL "One or more unexpected errors occurred." ;;
     logger CRITICAL ("Please consider opening an issue: " +:+ NEW_ISSUE_URL)
   else pass) ;;
  if critical_errors then raise (ExcCriticalError "Critical error found. Aborting.")
  else pass.

(** ** The drivers of module code *)

Section Drivers.

(** [utils.ImportArgsFromDict(args, self.command_line_options, self.config)]:
    the argument resolver, which the state calls and does not define; the
    run's configuration is part of it. *)
Variable ImportArgsFromDict : Args -> Args -> Args.

(** The error that the drivers generate for an exception that is not a
    [DFTimewolfError]. *)
Definition unknown_error_msg (module : BaseModule) (exception : PyException) : string :=
  "An unknown error occurred in module " +:+ module_name module +:+ ": "
  +:+ exc_str exception.

Definition unknown_error (module : BaseModule) (exception : PyException)
    : DFTimewolfError :=
  {| message := unknown_error_msg module exception;
     name := "state";
     stacktrace := Some (exc_traceback exception);
     critical := true;
     unexpected := true |}.

(** The two except clauses of the drivers: a [DFTimewolfError] is logged,
    with the text of the driver; any other exception that derives from
    [Exception] is logged and recorded as a new error; an exception that
    does not derive from [Exception] matches neither clause.
    ([errors.CriticalError] is taken with the first clause; no module code
    of this model raises it.) *)
Definition except_clauses (module : BaseModule) (declared_text : string)
    (exc : Exc) : option (M unit) :=
  match exc with
  | ExcDFTimewolfError _ | ExcCriticalError _ =>
      Some (logger CRITICAL declared_text)
  | ExcException exception =>
      Some (logger CRITICAL (unknown_error_msg module exception) ;;
            AddErrorM (unknown_error module exception))
  | ExcBaseException _ => None
  end.

(** The body of the try statement of [_SetupModuleThread] *)
Definition setup_calls (module : BaseModule) (new_args : Args) : M unit :=
  match kind module with
  | ThreadAware ta =>
      record_call (CallPreSetUp (module_name module)) ;; run_logic (PreSetUp ta)
  | Plain _ => pass
  end ;;
  record_call (CallSetUp (module_name module) new_args) ;;
  run_logic (SetUp module new_args) ;;
  match kind module with
  | ThreadAware ta =>
      record_call (CallPostSetUp (module_name module)) ;; run_logic (PostSetUp ta)
  | Plain _ => pass
  end.

(** The try statement of [_SetupModuleThread] *)
Definition setup_module (module : BaseModule) (new_args : Args) : M unit :=
  try_except (setup_calls module new_args)
    (except_clauses module
       ("A critical error occurred in module " +:+ module_name module
        +:+ ", aborting execution.")).

(** [_SetupModuleThread] *)
Definition _SetupModuleThread (module_definition : ModuleDefinition) : M unit :=
  let runtime_name := runtime_name_of module_definition in
  logger INFO ("Setting up module: " +:+ runtime_name) ;;
  s ← get_state;
  let new_args :=
    ImportArgsFromDict (md_args module_definition) (command_line_options s) in
  module ← getitem (_module_pool s) runtime_name;
  setup_module module new_args ;;
  modify_state (fun s =>
    set_events (<[runtime_name := false]> (_threading_event_per_module s)) s) ;;
  CleanUpM.

(** [threading.Event.wait()] on the event of a module: returns once the
    event is set; a thread that waits on an event that is not set does not
    proceed. *)
Definition Event_wait (dependency : string) : M unit :=
  s ← get_state;
  getitem (_threading_event_per_module s) dependency ≫= fun is_set : bool =>
  if is_set then pass else block.

(** [self._threading_event_per_module[runtime_name].set()] *)
Definition Event_set (runtime_name : string) : M unit :=
  s ← get_state;
  getitem (_threading_event_per_module s) runtime_name ;;
  modify_state (fun s =>
    set_events (<[runtime_name := true]> (_threading_event_per_module s)) s) ;;
  record_call (EventSet runtime_name).

(** [executor.submit(module.Process, container)] with the run of the
    submitted unit: the future holds the exception of the unit, if any.
    Units run here in the order of submission, one of the schedules of the
    pool; an exception of a unit stays in its future. *)
Definition submit (module : BaseModule) (ta : ThreadAwareModule)
    (container : Container) : M (option Exc) :=
  fun w =>
    match (record_call (CallProcessContainer (module_name module) container) ;;
           run_logic (ProcessContainer ta container)) w with
    | (Ok _, w') => (Ok None, w')
    | (Raised e, w') => (Ok (Some e), w')
    | (Blocked, w') => (Blocked, w')
    end.

(** The [with ThreadPoolExecutor(...)] block: submits one unit per container
    and leaves when all of them are done. *)
Fixpoint run_executor (module : BaseModule) (ta : ThreadAwareModule)
    (containers : list Container) : M (list (option Exc)) :=
  match containers with
  | [] => mret []
  | container :: rest =>
      fut ← submit module ta container;
      futures ← run_executor module ta rest;
      mret (fut :: futures)
  end.

(** [for fut in futures: if fut.exception(): raise fut.exception()] *)
Fixpoint raise_first (futures : list (option Exc)) : M unit :=
  match futures with
  | [] => pass
  | Some e :: _ => raise e
  | None :: rest => raise_first rest
  end.

(** The body of the try statement of [_RunModuleThread] *)
Definition process_module (module : BaseModule) (runtime_name : string) : M unit :=
  match kind module with
  | ThreadAware ta =>
      record_call (CallPreProcess (module_name module)) ;;
      run_logic (PreProcess ta) ;;
      with_state (GetContainers (GetThreadOnContainerType ta) false)
        ≫= fun counted : list Container =>
      logger INFO ("Running " +:+ pretty (length counted) +:+ " threads, max "
                   +:+ pretty (GetThreadPoolSize ta)
                   +:+ " simultaneous for module " +:+ runtime_name) ;;
      (if bool_decide (GetThreadPoolSize ta ≤ 0)%Z
       then raise (ValueError "max_workers must be greater than 0")
       else pass) ;;
      with_state (GetContainers (GetThreadOnContainerType ta) false)
        ≫= fun containers : list Container =>
      run_executor module ta containers ≫= fun futures : list (option Exc) =>
      record_call (CallPostProcess (module_name module)) ;;
      run_logic (PostProcess ta) ;;
      raise_first futures ;;
      if KeepThreadedContainersInState ta then pass
      else with_state (GetContainers (GetThreadOnContainerType ta) true) ;; pass
  | Plain Process =>
      record_call (CallProcess (module_name module)) ;;
      run_logic Process
  end.

(** The try statement of [_RunModuleThread] *)
Definition run_module (module : BaseModule) (runtime_name : string) : M unit :=
  try_except (process_module module runtime_name)
    (except_clauses module
       ("Critical error in module " +:+ module_name module
        +:+ ", aborting execution")).

(** [_RunModuleThread] after its loop over the dependencies *)
Definition run_after_wait (module_definition : ModuleDefinition) : M unit :=
  let runtime_name := runtime_name_of module_definition in
  s ← get_state;
  module ← getitem (_module_pool s) runtime_name;
  if _abort_execution s then
    logger CRITICAL ("Aborting execution of " +:+ module_name module
                     +:+ " due to previous errors") ;;
    Event_set runtime_name ;;
    CleanUpM
  else
    logger INFO ("Running module: " +:+ runtime_name) ;;
    run_module module runtime_name ;;
    logger INFO ("Module " +:+ runtime_name +:+ " finished execution") ;;
    Event_set runtime_name ;;
    CleanUpM.

(** [_RunModuleThread] *)
Definition _RunModuleThread (module_definition : ModuleDefinition) : M unit :=
  for_each (md_wants module_definition) Event_wait ;;
  run_after_wait module_definition.

(** [RunPreflights] *)
Definition RunPreflights : M unit :=
  s ← get_state;
  for_each (default [] (preflights (recipe s)))
    (fun preflight_definition =>
       let runtime_name := runtime_name_of preflight_definition in
       let args := md_args preflight_definition in
       s ← get_state;
       let new_args := ImportArgsFromDict args (command_line_options s) in
       preflight ← getitem (_module_pool s) runtime_name;
       try_finally
         (record_call (CallSetUp (module_name preflight) new_args) ;;
          run_logic (SetUp preflight new_args) ;;
          match kind preflight with
          | Plain Process =>
              record_call (CallProcess (module_name preflight)) ;;
              run_logic Process
          | ThreadAware _ =>
              raise (ExcException
                       {| exc_class := "TypeError";
                          exc_str := "Process() missing 1 required positional argument: 'container'";
                          exc_traceback := "" |})
          end)
         (CheckErrors true)).

(** [CleanUpPreflights] *)
Definition CleanUpPreflights : M unit :=
  s ← get_state;
  for_each (default [] (preflights (recipe s)))
    (fun preflight_definition =>
       let runtime_name := runtime_name_of preflight_definition in
       s ← get_state;
       preflight ← getitem (_module_pool s) runtime_name;
       try_finally
         (record_call (CallModuleCleanUp (module_name preflight)) ;;
          run_logic (ModuleCleanUp preflight))
         (CheckErrors true)).

End Drivers.

(** ** The module tasks of [RunModules], interleaved

    [_InvokeModulesInThreads] starts one thread per module definition of the
    recipe and joins them.  A thread of [_RunModuleThread] is cut at the
    points where it depends on the others or they on it: each [wait()] of
    its loop, the test of the abort flag, the try statement, the final
    [set()], and each of the two statements of [CleanUp()].  The try
    statement, with the code of the module, is one step. *)

Inductive Pc :=
| Waiting (dependencies : list string)
| Processing (module : BaseModule)
| Completing
| CleaningUp
| Clearing
| Finished
| Crashed (e : Exc).

(** From the end of the loop to the try statement: the module of the pool,
    or [None] when the abort flag is set. *)
Definition enter_running (module_definition : ModuleDefinition)
    : M (option BaseModule) :=
  let runtime_name := runtime_name_of module_definition in
  s ← get_state;
  module ← getitem (_module_pool s) runtime_name;
  if _abort_execution s then
    logger CRITICAL ("Aborting execution of " +:+ module_name module
                     +:+ " due to previous errors") ;;
    mret None
  else
    logger INFO ("Running module: " +:+ runtime_name) ;;
    mret (Some module).

(** The try statement and the line logged after it *)
Definition processing (module_definition : ModuleDefinition) (module : BaseModule)
    : M unit :=
  let runtime_name := runtime_name_of module_definition in
  run_module module runtime_name ;;
  logger INFO ("Module " +:+ runtime_name +:+ " finished execution").

(** The last two statements of both branches, for a thread on its own *)
Definition completing (module_definition : ModuleDefinition) : M unit :=
  Event_set (runtime_name_of module_definition) ;;
  CleanUpM.

Definition after {A} (next : A -> Pc) (r : Result A * World) : option (Pc * World) :=
  match r with
  | (Ok a, w) => Some (next a, w)
  | (Raised e, w) => Some (Crashed e, w)
  | (Blocked, _) => None
  end.

(** One step of the thread of a module definition; [None] when the thread
    is over or cannot proceed in this world. *)
Definition task_step (module_definition : ModuleDefinition) (pc : Pc) (w : World)
    : option (Pc * World) :=
  match pc with
  | Waiting (dependency :: rest) =>
      after (fun _ => Waiting rest) (Event_wait dependency w)
  | Waiting [] =>
      after (fun entered => match entered with
                            | Some module => Processing module
                            | None => Completing
                            end)
            (enter_running module_definition w)
  | Processing module =>
      after (fun _ => Completing) (processing module_definition module w)
  | Completing =>
      after (fun _ => CleaningUp) (Event_set (runtime_name_of module_definition) w)
  | CleaningUp =>
      after (fun _ => Clearing) (modify_state CleanUp_extend w)
  | Clearing =>
      after (fun _ => Finished) (modify_state CleanUp_clear w)
  | Finished | Crashed _ => None
  end.

Record Config := {
  world : World;
  tasks : list Pc
}.

(** The threads just started, one per module definition *)
Definition start (module_definitions : list ModuleDefinition) (w : World) : Config :=
  {| world := w;
     tasks := (fun md => Waiting (md_wants md)) <$> module_definitions |}.

(** Some thread takes a step. *)
Inductive step (module_definitions : list ModuleDefinition) : Config -> Config -> Prop :=
| step_task (i : nat) md pc pc' w' cfg :
    module_definitions !! i = Some md ->
    tasks cfg !! i = Some pc ->
    task_step md pc (world cfg) = Some (pc', w') ->
    step module_definitions cfg {| world := w'; tasks := <[i := pc']> (tasks cfg) |}.

(** The configurations of a run of the threads from a world *)
Definition reachable (module_definitions : list ModuleDefinition) (w : World)
    (cfg : Config) : Prop :=
  rtc (step module_definitions) (start module_definitions w) cfg.

(** A thread alone, for at most [fuel] steps *)
Fixpoint run_task (fuel : nat) (md : ModuleDefinition) (pc : Pc) (w : World)
    : Pc * World :=
  match fuel with
  | 0 => (pc, w)
  | S fuel' =>
      match task_step md pc w with
      | Some (pc', w') => run_task fuel' md pc' w'
      | None => (pc, w)
      end
  end.

(** ** Operations of the state, for properties of all of them *)

Inductive Operation :=
| OpAddToCache (key : string) (value : Value)
| OpGetFromCache (key : string) (default_value : option Value)
| OpStoreContainer (container : Container)
| OpGetContainers (container_class : ContainerClass) (pop : bool)
| OpRegisterStreamingCallback (target : Callback) (container_type : ContainerClass)
| OpStreamContainer (container : Container)
| OpAddError (error : DFTimewolfError)
| OpCleanUp
| OpCheckErrors (is_global : bool)
| OpSetupModuleThread (module_definition : ModuleDefinition)
| OpRunModuleThread (module_definition : ModuleDefinition)
| OpRunPreflights
| OpCleanUpPreflights.

Definition run_operation (ImportArgsFromDict : Args -> Args -> Args)
    (op : Operation) : M unit :=
  match op with
  | OpAddToCache key value => modify_state (AddToCache key value)
  | OpGetFromCache key default_value =>
      s ← get_state; let _ := GetFromCache key default_value s in pass
  | OpStoreContainer container => modify_state (StoreContainer container)
  | OpGetContainers cls pop => with_state (GetContainers cls pop) ;; pass
  | OpRegisterStreamingCallback target container_type =>
      modify_state (RegisterStreamingCallback target container_type)
  | OpStreamContainer container => StreamContainer container
  | OpAddError error => AddErrorM error
  | OpCleanUp => CleanUpM
  | OpCheckErrors is_global => CheckErrors is_global
  | OpSetupModuleThread md => _SetupModuleThread ImportArgsFromDict md
  | OpRunModuleThread md => _RunModuleThread md
  | OpRunPreflights => RunPreflights ImportArgsFromDict
  | OpCleanUpPreflights => CleanUpPreflights
  end.

(** The world after a sequence of operations, whatever each one's outcome *)
Fixpoint run_operations (ImportArgsFromDict : Args -> Args -> Args)
    (ops : list Operation) (w : World) : World :=
  match ops with
  | [] => w
  | op :: rest =>
      run_operations ImportArgsFromDict rest (run_operation ImportArgsFromDict op w).2
  end.

(** ** Relations between the state before and after a method *)

(** A computation respects a relation when the state it leaves is related
    to the state it started from, whatever its outcome. *)
Definition respects (R : relation DFTimewolfState) {A} (m : M A) : Prop :=
  forall w, R (state w) (state (m w).2).

(** Once set, the abort flag is set. *)
Definition abort_stays (s s' : DFTimewolfState) : Prop :=
  _abort_execution s = true -> _abort_execution s' = true.

(** An event that is set stays set. *)
Definition events_stay_set (s s' : DFTimewolfState) : Prop :=
  forall n, _threading_event_per_module s !! n = Some true ->
            _threading_event_per_module s' !! n = Some true.

(** A field of the state is left as it is. *)
Definition keeps {V} (field : DFTimewolfState -> V) (s s' : DFTimewolfState) : Prop :=
  field s' = field s.

(** ** What [CheckErrors] writes to the logger, stated on its own *)

(** The line of the error at position [index] of the checked list *)
Definition error_line (index : nat) (error : DFTimewolfError) : LogRecord :=
  {| level := ERROR;
     text := pretty (index + 1) +:+ ": error from " +:+ name error +:+ ": "
             +:+ message error |}.

(** The pieces of a text between the occurrences of a character, read off
    the text from left to right; [current] is the piece that is being read. *)
Fixpoint pieces_from (sep : ascii) (current : string) (s : string) : list string :=
  match s with
  | EmptyString => [current]
  | String a s' =>
      if Ascii.eqb a sep then current :: pieces_from sep "" s'
      else pieces_from sep (current +:+ String a "") s'
  end.

(** The lines of the stack trace of an error as the report has them: none
    for an error without stack trace or with an empty one, otherwise the
    pieces of the text between its line breaks. *)
Definition reported_trace (error : DFTimewolfError) : list string :=
  match stacktrace error with
  | None => []
  | Some trace => if decide (trace = "") then [] else pieces_from newline "" trace
  end.

Definition stacktrace_records (error : DFTimewolfError) : list LogRecord :=
  (fun line => {| level := ERROR; text := line |}) <$> reported_trace error.

Fixpoint ledger_report (index : nat) (error_objects : list DFTimewolfError)
    : list LogRecord :=
  match error_objects with
  | [] => []
  | error :: rest =>
      error_line index error :: stacktrace_records error
      ++ ledger_report (S index) rest
  end.

Definition report_header (error_objects : list DFTimewolfError) : list LogRecord :=
  match error_objects with
  | [] => []
  | _ => [{| level := ERROR; text := "dfTimewolf encountered one or more errors:" |}]
  end.

(** The two lines that ask for an issue to be opened *)
Definition unexpected_notice : list LogRecord :=
  [{| level := CRITICAL; text := "One or more unexpected errors occurred." |};
   {| level := CRITICAL;
      text := "Please consider opening an issue: " +:+ NEW_ISSUE_URL |}].

Definition CheckErrors_report (error_objects : list DFTimewolfError) : list LogRecord :=
  report_header error_objects ++ ledger_report 0 error_objects
  ++ (if existsb unexpected error_objects then unexpected_notice else []).

(** The list that [CheckErrors] checks *)
Definition checked (is_global : bool) (s : DFTimewolfState) : list DFTimewolfError :=
  if is_global then global_errors s else errors s.

Definition CriticalError : Exc := ExcCriticalError "Critical error found. Aborting.".

(** ** Inputs on which the properties are tried *)

Definition ex_class : ContainerClass :=
  {| class_name := "Host"; CONTAINER_TYPE := "host" |}.

Definition ex_c1 : Container :=
  {| container_class := ex_class; attributes := [("hostname", "alpha")] |}.

Definition ex_c2 : Container :=
  {| container_class := ex_class; attributes := [("hostname", "beta")] |}.

Definition ex_critical : DFTimewolfError :=
  {| message := "disk unreadable"; name := "Collector";
     stacktrace := None; critical := true; unexpected := false |}.

Definition ex_minor : DFTimewolfError :=
  {| message := "one file skipped"; name := "Collector";
     stacktrace := None; critical := false; unexpected := false |}.

Definition ex_exception : PyException :=
  {| exc_class := "RuntimeError"; exc_str := "connection lost";
     exc_traceback := "Traceback (most recent call last): ..." |}.

(** The run's argument resolver in the examples: the recipe's arguments *)
Definition ex_resolver (args command_line_options : Args) : Args := args.

(** ** Streaming, stated on its own *)

(** [RegisterStreamingCallback] for each of the callbacks, in order *)
Definition register_all (callbacks : list Callback) (container_type : ContainerClass)
    (s : DFTimewolfState) : DFTimewolfState :=
  foldl (fun s target => RegisterStreamingCallback target container_type s) s callbacks.

(** The containers with which the callback of a name was invoked, in order *)
Definition invocations (callback : string) (trace : list Call) : list Container :=
  omap (fun call => match call with
                    | CallCallback cb c => if decide (cb = callback) then Some c else None
                    | _ => None
                    end) trace.

(** The invocations that streaming a container to the callbacks makes *)
Definition dispatch (callbacks : list Callback) (container : Container) : list Call :=
  (fun callback => CallCallback (cb_name callback) container) <$> callbacks.

Definition ex_callback : Callback :=
  {| cb_name := "export"; cb_body := fun c => DoAddToCache "seen" "yes" Return |}.

Definition ex_callback2 : Callback :=
  {| cb_name := "index"; cb_body := fun c => Return |}.

(** ** The drivers, stated on their own *)

(** A computation that, from any world, returns or raises *)
Definition never_blocks {A} (m : M A) : Prop := forall w, (m w).1 <> Blocked.

(** The outcome is no exception that the except clauses of the drivers let
    through: the call has returned, or raised a [DFTimewolfError] or another
    exception that derives from [Exception]. *)
Definition within_Exception {A} (outcome : Result A) : Prop :=
  forall x, outcome <> Raised (ExcBaseException x).

(** The error that a driver records for the outcome of module code: one for
    an exception that derives from [Exception] and is not a
    [DFTimewolfError], none otherwise *)
Definition recorded_by_driver (module : BaseModule) (outcome : Result unit)
    : option DFTimewolfError :=
  match outcome with
  | Raised (ExcException exception) => Some (unknown_error module exception)
  | _ => None
  end.

Definition record (error : option DFTimewolfError) (s : DFTimewolfState)
    : DFTimewolfState :=
  match error with
  | Some e => AddError e s
  | None => s
  end.

(** The world with a line more in the log *)
Definition logged (lvl : LogLevel) (msg : string) (w : World) : World :=
  (logger lvl msg w).2.

(** The world after [set()] on the module's event and [CleanUp()] *)
Definition signalled (runtime_name : string) (w : World) : World :=
  {| state := CleanUp (set_events
                         (<[runtime_name := true]>
                            (_threading_event_per_module (state w))) (state w));
     log := log w;
     calls := calls w ++ [EventSet runtime_name] |}.

(** The events of the names are set. *)
Definition all_set (names : list string) (s : DFTimewolfState) : Prop :=
  Forall (fun n => _threading_event_per_module s !! n = Some true) names.

(** The first exception among the futures, in the order of submission *)
Definition first_exception (futures : list (option Exc)) : option Exc :=
  list_find is_Some futures ≫= fun found => found.2.

(** A call of an entry point of a module or of a callback: any call of the
    trace but the setting of an event *)
Definition is_entry_point (c : Call) : bool :=
  match c with
  | EventSet _ => false
  | _ => true
  end.

(** A recipe of two modules: [A], and [B] that wants [A] *)
Definition ex_md_A : ModuleDefinition :=
  {| md_name := "A"; md_runtime_name := None; md_args := []; md_wants := [] |}.

Definition ex_md_B : ModuleDefinition :=
  {| md_name := "Exporter"; md_runtime_name := Some "B"; md_args := [];
     md_wants := ["A"] |}.

(** [A] stores a container, then fails in a way it did not declare. *)
Definition ex_module_A : BaseModule :=
  {| module_name := "A";
     SetUp := fun _ => Return;
     ModuleCleanUp := Return;
     kind := Plain (DoStoreContainer ex_c1 (RaiseException ex_exception)) |}.

(** [B] reads the containers of the class and caches whether it found any. *)
Definition ex_module_B : BaseModule :=
  {| module_name := "B";
     SetUp := fun _ => Return;
     ModuleCleanUp := Return;
     kind := Plain (DoGetContainers ex_class false (fun cs =>
                      DoAddToCache "found"
                        (match cs with [] => "nothing" | _ => "containers" end)
                        Return)) |}.

(** A module that raises a critical [DFTimewolfError] that it has not
    recorded *)
Definition ex_module_raising : BaseModule :=
  {| module_name := "A";
     SetUp := fun _ => RaiseError ex_critical;
     ModuleCleanUp := Return;
     kind := Plain (RaiseError ex_critical) |}.

(** An exception that does not derive from [Exception] *)
Definition ex_system_exit : PyException :=
  {| exc_class := "SystemExit"; exc_str := "1";
     exc_traceback := "Traceback (most recent call last): ..." |}.

(** A module whose code records an error and then ends the interpreter *)
Definition ex_module_exiting : BaseModule :=
  {| module_name := "A";
     SetUp := fun _ => Return;
     ModuleCleanUp := Return;
     kind := Plain (DoAddError ex_minor (RaiseBaseException ex_system_exit)) |}.

(** The state after [LoadRecipe] and [SetupModules] of a pool: every module
    of the pool has its event, which is not set. *)
Definition ex_loaded (pool : gmap string BaseModule) : DFTimewolfState :=
  {| command_line_options := [];
     _cache := ∅;
     _module_pool := pool;
     _threading_event_per_module := (fun _ => false) <$> pool;
     errors := [];
     global_errors := [];
     recipe := {| recipe_name := Some "example";
                  modules := Some [ex_md_A; ex_md_B];
                  preflights := None |};
     store := ∅;
     streaming_callbacks := ∅;
     _abort_execution := false |}.

Definition ex_pool : gmap string BaseModule :=
  {[ "A" := ex_module_A; "B" := ex_module_B ]}.

Definition ex_world : World :=
  {| state := ex_loaded ex_pool; log := []; calls := [] |}.

(** The world in which [A] has run, and failed *)
Definition ex_world_after_A : World := (_RunModuleThread ex_md_A ex_world).2.

(** The world in which the store's entries of the class are cleared *)
Definition cleared (cls : ContainerClass) (w : World) : World :=
  {| state := (GetContainers cls true (state w)).2; log := log w; calls := calls w |}.

(** The error lists of a state [final] that a driver leaves, given the
    outcome and the world [after] of the body of its try statement: the
    round's list is empty and the global list has the errors that the body
    left in both lists, followed, for an exception that is not a
    [DFTimewolfError] and for no other outcome, by the error that the driver
    makes of it, which also sets the abort flag. *)
Definition ledger_after (final : DFTimewolfState) (module : BaseModule)
    (outcome : Result unit) (after : World) : Prop :=
  errors final = [] /\
  match outcome with
  | Raised (ExcException exception) =>
      global_errors final
      = global_errors (state after) ++ errors (state after)
        ++ [unknown_error module exception] /\
      _abort_execution final = true
  | _ =>
      global_errors final = global_errors (state after) ++ errors (state after) /\
      _abort_execution final = _abort_execution (state after)
  end.

(** A world with [A] alone in the pool, with its event *)
Definition ex_world_of (module : BaseModule) : World :=
  {| state := ex_loaded {[ "A" := module ]}; log := []; calls := [] |}.

(** Five containers of one class *)
Definition ex_unit (n : string) : Container :=
  {| container_class := ex_class; attributes := [("hostname", n)] |}.

Definition ex_units : list Container :=
  ex_unit <$> ["u1"; "u2"; "u3"; "u4"; "u5"].

(** A module that fans out over the containers of the class with two
    workers, does not keep the containers, and fails on the third. *)
Definition ex_fan_out : ThreadAwareModule :=
  {| PreSetUp := Return; PostSetUp := Return;
     PreProcess := Return;
     ProcessContainer := fun c =>
       if decide (c = ex_unit "u3") then RaiseException ex_exception
       else DoAddToCache "done" "yes" Return;
     PostProcess := Return;
     GetThreadOnContainerType := ex_class;
     GetThreadPoolSize := 2;
     KeepThreadedContainersInState := false |}.

Definition ex_module_fan_out : BaseModule :=
  {| module_name := "A"; SetUp := fun _ => Return; ModuleCleanUp := Return;
     kind := ThreadAware ex_fan_out |}.

(** The world of the module, with the five containers stored *)
Definition ex_world_fan_out : World :=
  {| state := foldl (fun s c => StoreContainer c s)
                (ex_loaded {[ "A" := ex_module_fan_out ]}) ex_units;
     log := []; calls := [] |}.

(** Two preflights: the first records a critical error and returns. *)
Definition ex_preflight_1 : BaseModule :=
  {| module_name := "P1"; SetUp := fun _ => Return; ModuleCleanUp := Return;
     kind := Plain (DoAddError ex_critical Return) |}.

Definition ex_preflight_2 : BaseModule :=
  {| module_name := "P2"; SetUp := fun _ => Return; ModuleCleanUp := Return;
     kind := Plain Return |}.

(** The first preflight again, raising the error it has recorded *)
Definition ex_preflight_1_raising : BaseModule :=
  {| module_name := "P1"; SetUp := fun _ => Return; ModuleCleanUp := Return;
     kind := Plain (DoAddError ex_critical (RaiseError ex_critical)) |}.

Definition ex_preflight_definition (n : string) : ModuleDefinition :=
  {| md_name := n; md_runtime_name := None; md_args := []; md_wants := [] |}.

Definition ex_world_preflights (first : BaseModule) : World :=
  {| state :=
       {| command_line_options := [];
          _cache := ∅;
          _module_pool := {[ "P1" := first; "P2" := ex_preflight_2 ]};
          _threading_event_per_module := ∅;
          errors := [];
          global_errors := [];
          recipe := {| recipe_name := Some "example";
                       modules := Some [];
                       preflights := Some [ex_preflight_definition "P1";
                                           ex_preflight_definition "P2"] |};
          store := ∅;
          streaming_callbacks := ∅;
          _abort_execution := false |};
     log := []; calls := [] |}.

(** ** The interleaved run, stated on its own *)

(** What holds of a thread at a point of its code, in a state: the
    dependencies that its loop has passed are set; past the loop, all its
    dependencies are. *)
Definition task_inv (md : ModuleDefinition) (pc : Pc) (s : DFTimewolfState) : Prop :=
  match pc with
  | Waiting rest => exists passed, md_wants md = passed ++ rest /\ all_set passed s
  | Processing _ | Completing | CleaningUp | Clearing | Finished =>
      all_set (md_wants md) s
  | Crashed _ => True
  end.

(** The thread is about to run the try statement, or has run it. *)
Definition past_wait (pc : Pc) : bool :=
  match pc with
  | Processing _ | Completing | CleaningUp | Clearing | Finished => true
  | Waiting _ | Crashed _ => false
  end.


(** The threads stepped in the order of a schedule; a thread that cannot
    step when its turn comes is passed over. *)
Fixpoint run_schedule (module_definitions : list ModuleDefinition)
    (schedule : list nat) (cfg : Config) : Config :=
  match schedule with
  | [] => cfg
  | i :: rest =>
      match module_definitions !! i, tasks cfg !! i with
      | Some md, Some pc =>
          match task_step md pc (world cfg) with
          | Some (pc', w') =>
              run_schedule module_definitions rest
                {| world := w'; tasks := <[i := pc']> (tasks cfg) |}
          | None => run_schedule module_definitions rest cfg
          end
      | _, _ => run_schedule module_definitions rest cfg
      end
  end.

(** [A] stores a container and returns. *)
Definition ex_module_storing : BaseModule :=
  {| module_name := "A";
     SetUp := fun _ => Return;
     ModuleCleanUp := Return;
     kind := Plain (DoStoreContainer ex_c1 Return) |}.

Definition ex_world_ok : World :=
  {| state := ex_loaded {[ "A" := ex_module_storing; "B" := ex_module_B ]};
     log := []; calls := [] |}.

(** [A] has run to its end; [B] has passed its wait and the test of the
    abort flag. *)
Definition ex_cfg : Config :=
  run_schedule [ex_md_A; ex_md_B] [1; 0; 0; 1; 0; 0; 0; 1; 1]
    (start [ex_md_A; ex_md_B] ex_world_ok).


(** ** The ledger as a whole, and the containers stored in a row *)

(** The errors of a state in the order in which they were recorded: the
    global list, then the round's list *)
Definition ledger (s : DFTimewolfState) : list DFTimewolfError :=
  global_errors s ++ errors s.

(** The ledger has only grown at its end. *)
Definition ledger_grows (s s' : DFTimewolfState) : Prop :=
  ledger s `prefix_of` ledger s'.

(** The abort flag says whether the ledger holds a critical error. *)
Definition flag_tells (s : DFTimewolfState) : Prop :=
  _abort_execution s = existsb critical (ledger s).

(** The global list has only grown at its end. *)
Definition global_grows (s s' : DFTimewolfState) : Prop :=
  global_errors s `prefix_of` global_errors s'.

(** A critical error in the ledger has set the abort flag. *)
Definition flag_covers (s : DFTimewolfState) : Prop :=
  existsb critical (ledger s) = true -> _abort_execution s = true.

(** A property of the state that holds afterwards if it held before *)
Definition preserves (I : DFTimewolfState -> Prop) (s s' : DFTimewolfState) : Prop :=
  I s -> I s'.

(** *** Statement by statement

    [AddError] and [CleanUp] are two statements each, and no lock holds
    them together.  Threads that call them execute their statements in any
    order that keeps the order of each thread. *)

Inductive Statement :=
| SetAbort                               (* [self._abort_execution = True] *)
| AppendError (error : DFTimewolfError)  (* [self.errors.append(error)] *)
| ExtendGlobal                           (* [self.global_errors.extend(self.errors)] *)
| ClearErrors.                           (* [self.errors = []] *)

Definition execute (s : DFTimewolfState) (statement : Statement) : DFTimewolfState :=
  match statement with
  | SetAbort => set_abort_execution true s
  | AppendError error => set_errors (errors s ++ [error]) s
  | ExtendGlobal => CleanUp_extend s
  | ClearErrors => CleanUp_clear s
  end.

(** The statements that a call of [AddError] executes, and a call of
    [CleanUp] *)
Definition AddError_statements (error : DFTimewolfError) : list Statement :=
  if critical error then [SetAbort; AppendError error] else [AppendError error].

Definition CleanUp_statements : list Statement := [ExtendGlobal; ClearErrors].

(** Calls of [AddError] and [CleanUp], one after the other *)
Inductive calls_only : list Statement -> Prop :=
| calls_none : calls_only []
| calls_AddError error rest :
    calls_only rest -> calls_only (AddError_statements error ++ rest)
| calls_CleanUp rest :
    calls_only rest -> calls_only (CleanUp_statements ++ rest).

(** A trace names the thread of each statement; the statements of one
    thread, in their order: *)
Definition of_thread (thread : nat) (trace : list (nat * Statement)) : list Statement :=
  (filter (fun entry => entry.1 = thread) trace).*2.

(** No critical error is appended before the flag is set. *)
Fixpoint flag_first (flag : bool) (statements : list Statement) : bool :=
  match statements with
  | [] => true
  | SetAbort :: rest => flag_first true rest
  | AppendError error :: rest => implb (critical error) flag && flag_first flag rest
  | _ :: rest => flag_first flag rest
  end.


(** [StoreContainer] for each of the containers, in order *)
Definition store_all (containers : list Container) (s : DFTimewolfState)
    : DFTimewolfState :=
  foldl (fun s c => StoreContainer c s) s containers.

(** The containers of a list that carry the tag, in order *)
Definition of_type (tag : string) (containers : list Container) : list Container :=
  filter (fun c => container_type c = tag) containers.

(** [sep.join(parts)] for a separator of one character *)
Fixpoint join (sep : ascii) (parts : list string) : string :=
  match parts with
  | [] => ""
  | [part] => part
  | part :: rest => part +:+ String sep (join sep rest)
  end.

(** The character occurs in the string. *)
Fixpoint occurs (a : ascii) (s : string) : bool :=
  match s with
  | EmptyString => false
  | String b s' => Ascii.eqb b a || occurs a s'
  end.


(** ** [RunModules], stated on its own *)

(** Every thread has ended: [join()] returns for each. *)
Definition joined (cfg : Config) : Prop :=
  Forall (fun pc => pc = Finished \/ exists e, pc = Crashed e) (tasks cfg).

(** [RunModules], that is [_InvokeModulesInThreads(self._RunModuleThread)]:
    one thread per module definition of the recipe, each started in the
    world in which the method is called; when all have ended, the check of
    the global list.  The method has an outcome only if the threads end. *)
Inductive RunModules (w : World) : Result unit -> World -> Prop :=
| RunModules_no_modules :
    modules (recipe (state w)) = None ->
    RunModules w (Raised (KeyError "modules")) w
| RunModules_joined module_definitions cfg :
    modules (recipe (state w)) = Some module_definitions ->
    reachable module_definitions w cfg ->
    joined cfg ->
    RunModules w (CheckErrors true (world cfg)).1 (CheckErrors true (world cfg)).2.

(** No event is set: the state in which [SetupModules] leaves the events *)
Definition no_event_set (s : DFTimewolfState) : Prop :=
  forall n, _threading_event_per_module s !! n <> Some true.

(** The name is the runtime name of a definition of the set [S] of positions
    of the list. *)
Definition named_in_set (mds : list ModuleDefinition) (S : nat -> bool)
    (d : string) : Prop :=
  exists k mdk, S k = true /\ mds !! k = Some mdk /\ runtime_name_of mdk = d.

(** Two definitions that want each other *)
Definition ex_md_cycle_1 : ModuleDefinition :=
  {| md_name := "A"; md_runtime_name := None; md_args := []; md_wants := ["B"] |}.

Definition ex_md_cycle_2 : ModuleDefinition :=
  {| md_name := "B"; md_runtime_name := None; md_args := []; md_wants := ["A"] |}.

(** The run of [A] and [B] to its end *)
Definition ex_cfg_joined : Config :=
  run_schedule [ex_md_A; ex_md_B] [0; 0; 0; 0; 0; 1; 1; 1; 1; 1; 1]
    (start [ex_md_A; ex_md_B] ex_world_ok).


(** ** The preflight passes, stated on their own *)

Section PreflightBodies.

Variable ImportArgsFromDict : Args -> Args -> Args.

(** The body of the loop of [RunPreflights] *)
Definition run_preflight (preflight_definition : ModuleDefinition) : M unit :=
  let runtime_name := runtime_name_of preflight_definition in
  let args := md_args preflight_definition in
  s ← get_state;
  let new_args := ImportArgsFromDict args (command_line_options s) in
  preflight ← getitem (_module_pool s) runtime_name;
  try_finally
    (record_call (CallSetUp (module_name preflight) new_args) ;;
     run_logic (SetUp preflight new_args) ;;
     match kind preflight with
     | Plain Process =>
         record_call (CallProcess (module_name preflight)) ;;
         run_logic Process
     | ThreadAware _ =>
         raise (ExcException
                  {| exc_class := "TypeError";
                     exc_str := "Process() missing 1 required positional argument: 'container'";
                     exc_traceback := "" |})
     end)
    (CheckErrors true).

(** The body of the loop of [CleanUpPreflights] *)
Definition clean_up_preflight (preflight_definition : ModuleDefinition) : M unit :=
  let runtime_name := runtime_name_of preflight_definition in
  s ← get_state;
  preflight ← getitem (_module_pool s) runtime_name;
  try_finally
    (record_call (CallModuleCleanUp (module_name preflight)) ;;
     run_logic (ModuleCleanUp preflight))
    (CheckErrors true).

(** The calls of a preflight whose [SetUp] and [Process] return *)
Definition preflight_calls (s : DFTimewolfState) (pd : ModuleDefinition) : list Call :=
  match _module_pool s !! runtime_name_of pd with
  | Some preflight =>
      [CallSetUp (module_name preflight)
         (ImportArgsFromDict (md_args pd) (command_line_options s));
       CallProcess (module_name preflight)]
  | None => []
  end.

End PreflightBodies.

(** A preflight of the pool whose [SetUp] and [Process] return *)
Definition preflight_returns (s : DFTimewolfState) (pd : ModuleDefinition) : Prop :=
  exists preflight Process,
    _module_pool s !! runtime_name_of pd = Some preflight /\
    kind preflight = Plain Process /\
    (forall args w, (run_logic (SetUp preflight args) w).1 = Ok tt) /\
    (forall w, (run_logic Process w).1 = Ok tt).

(** A computation that does not raise the critical error of the checks *)
Definition no_critical {A} (m : M A) : Prop :=
  forall w msg, (m w).1 <> Raised (ExcCriticalError msg).


(** ** Loading a recipe *)

Definition set_recipe (v : Recipe) (s : DFTimewolfState) : DFTimewolfState :=
  {| command_line_options := command_line_options s; _cache := _cache s;
     _module_pool := _module_pool s;
     _threading_event_per_module := _threading_event_per_module s;
     errors := errors s; global_errors := global_errors s; recipe := v;
     store := store s; streaming_callbacks := streaming_callbacks s;
     _abort_execution := _abort_execution s |}.

Definition set_module_pool (v : gmap string BaseModule) (s : DFTimewolfState)
    : DFTimewolfState :=
  {| command_line_options := command_line_options s; _cache := _cache s;
     _module_pool := v;
     _threading_event_per_module := _threading_event_per_module s;
     errors := errors s; global_errors := global_errors s; recipe := recipe s;
     store := store s; streaming_callbacks := streaming_callbacks s;
     _abort_execution := _abort_execution s |}.

(** [errors.RecipeParseError(msg)] *)
Definition RecipeParseError (msg : string) : Exc :=
  ExcException {| exc_class := "RecipeParseError"; exc_str := msg;
                  exc_traceback := "" |}.

Section Loading.

(** [importlib.import_module(location)]: [None] when the import succeeds,
    [Some text] when it raises a [ModuleNotFoundError] whose [str] is
    [text].  An import that fails with another exception, which
    [ImportRecipeModules] lets through, is outside the model. *)
Variable import_module : string -> option string.

(** [ModulesManager.GetModuleByName(module_name)(self, name=runtime_name)]:
    the instance, or the exception that the lookup or the constructor
    raises. *)
Variable instantiate : string -> string -> Exc + BaseModule.

Definition cannot_be_found (recipe_name name : string) : string :=
  "In " +:+ recipe_name +:+ ": module " +:+ name
  +:+ " cannot be found. It may not have been declared.".

Definition loading_line (name location : string) : string :=
  "Loading module " +:+ name +:+ " from " +:+ location.

Definition cannot_import (name location exception : string) : string :=
  "Cannot find Python module for " +:+ name +:+ " (" +:+ location +:+ "): "
  +:+ exception.

(** The body of the loop of [ImportRecipeModules] *)
Definition import_recipe_module (module_locations : gmap string string)
    (module : ModuleDefinition) : M unit :=
  let name := md_name module in
  match module_locations !! name with
  | None =>
      s ← get_state;
      match recipe_name (recipe s) with
      | Some recipe_name => raise (RecipeParseError (cannot_be_found recipe_name name))
      | None => raise (KeyError "name")
      end
  | Some location =>
      logger DEBUG (loading_line name location) ;;
      match import_module location with
      | None => pass
      | Some exception =>
          raise (RecipeParseError (cannot_import name location exception))
      end
  end.

(** [DFTimewolfState.ImportRecipeModules] *)
Definition ImportRecipeModules (module_locations : gmap string string) : M unit :=
  s ← get_state;
  match modules (recipe s) with
  | None => raise (KeyError "modules")
  | Some module_definitions =>
      for_each (module_definitions ++ default [] (preflights (recipe s)))
        (import_recipe_module module_locations)
  end.

(** The key of the pool for a definition: [runtime_name] unless it is absent
    or empty, then [name] *)
Definition pool_key (module_definition : ModuleDefinition) : string :=
  match md_runtime_name module_definition with
  | Some (String a r) => String a r
  | _ => md_name module_definition
  end.

(** The body of the loop of [LoadRecipe] *)
Definition load_module (module_definition : ModuleDefinition) : M unit :=
  let module_name := md_name module_definition in
  let runtime_name := pool_key module_definition in
  match instantiate module_name runtime_name with
  | inl exception => raise exception
  | inr module =>
      modify_state (fun s => set_module_pool (<[runtime_name := module]> (_module_pool s)) s)
  end.

(** [DFTimewolfState.LoadRecipe] *)
Definition LoadRecipe (recipe : Recipe) (module_locations : gmap string string)
    : M unit :=
  modify_state (set_recipe recipe) ;;
  let module_definitions := default [] (modules recipe) in
  let preflight_definitions := default [] (preflights recipe) in
  ImportRecipeModules module_locations ;;
  for_each (module_definitions ++ preflight_definitions) load_module.

(** The definition is in the mapping and its Python module is imported. *)
Definition loadable (module_locations : gmap string string)
    (module : ModuleDefinition) : Prop :=
  exists location,
    module_locations !! md_name module = Some location /\
    import_module location = None.

(** The instance that [LoadRecipe] makes for the definition *)
Definition instance_of (module_definition : ModuleDefinition) : option BaseModule :=
  match instantiate (md_name module_definition) (pool_key module_definition) with
  | inr module => Some module
  | inl _ => None
  end.

End Loading.


(** The debug records of [ImportRecipeModules] for definitions that are in
    the mapping *)
Definition loading_records (module_locations : gmap string string)
    (definitions : list ModuleDefinition) : list LogRecord :=
  definitions ≫= fun module =>
    match module_locations !! md_name module with
    | Some location =>
        [{| level := DEBUG; text := loading_line (md_name module) location |}]
    | None => []
    end.

(** The pool after the loop of [LoadRecipe], when every definition has an
    instance *)
Definition filled_pool (instantiate : string -> string -> Exc + BaseModule)
    (definitions : list ModuleDefinition) (pool : gmap string BaseModule)
    : gmap string BaseModule :=
  foldl (fun pool module_definition =>
           match instance_of instantiate module_definition with
           | Some module => <[pool_key module_definition := module]> pool
           | None => pool
           end) pool definitions.

(** The examples of loading: the modules of [A] and [B] are declared, the
    Python module of [B] is missing. *)
Definition ex_locations : gmap string string :=
  {[ "A" := "dftimewolf.lib.a"; "Exporter" := "dftimewolf.lib.b" ]}.

Definition ex_import_module (location : string) : option string :=
  if decide (location = "dftimewolf.lib.b")
  then Some "No module named 'dftimewolf.lib.b'"
  else None.

Definition ex_import_all (location : string) : option string := None.

Definition ex_instantiate (module_name runtime_name : string) : Exc + BaseModule :=
  inr {| module_name := runtime_name; SetUp := fun _ => Return;
         ModuleCleanUp := Return; kind := Plain Return |}.

Definition ex_md_unnamed : ModuleDefinition :=
  {| md_name := "A"; md_runtime_name := Some ""; md_args := []; md_wants := [] |}.

Definition ex_recipe (definitions : list ModuleDefinition) : Recipe :=
  {| recipe_name := Some "example"; modules := Some definitions;
     preflights := None |}.


(** Two modules that do not wait for each other: [A] stores a container,
    [C] records a critical error and returns. *)
Definition ex_md_C : ModuleDefinition :=
  {| md_name := "C"; md_runtime_name := None; md_args := []; md_wants := [] |}.

Definition ex_module_recording : BaseModule :=
  {| module_name := "C";
     SetUp := fun _ => Return;
     ModuleCleanUp := Return;
     kind := Plain (DoAddError ex_critical Return) |}.

Definition ex_world_pair : World :=
  {| state := set_recipe (ex_recipe [ex_md_A; ex_md_C])
                (ex_loaded {[ "A" := ex_module_storing; "C" := ex_module_recording ]});
     log := []; calls := [] |}.

(** [A] is between the two statements of its [CleanUp()]; [C] has run its
    code and recorded its error. *)
Definition ex_cfg_recorded : Config :=
  run_schedule [ex_md_A; ex_md_C] [0; 0; 0; 0; 1; 1]
    (start [ex_md_A; ex_md_C] ex_world_pair).

(** Then [A] ends its [CleanUp()], and [C] runs to its end. *)
Definition ex_cfg_lost : Config :=
  run_schedule [ex_md_A; ex_md_C] [0; 1; 1; 1] ex_cfg_recorded.

(** ** The execution plan *)

(** The newline as a string *)
Definition nl : string := String newline "".

Fixpoint spaces (n : nat) : string :=
  match n with
  | O => ""
  | S n' => String " " (spaces n')
  end.

(** [s.ljust(width)].  A text is the list of its characters, and the
    characters of this development are those of [ascii], the code points
    below 256: [String.length] is [len] on these texts. *)
Definition ljust (s : string) (width : nat) : string :=
  s +:+ spaces (width - String.length s).

(** [max(keys, key=len)] for a list that starts with [best]: the first of
    the longest keys *)
Fixpoint max_by_len (best : string) (keys : list string) : string :=
  match keys with
  | [] => best
  | key :: keys' =>
      max_by_len (if Nat.ltb (String.length best) (String.length key) then key else best)
        keys'
  end.

(** The body of the first loop of [FormatExecutionPlan] *)
Definition plan_spacing (maxlen : nat) (module : ModuleDefinition) : nat :=
  match md_args module with
  | [] => maxlen
  | (key, _) :: args =>
      let spacing := String.length (max_by_len key args.*1) in
      if Nat.ltb spacing maxlen then maxlen else spacing
  end.

(** The first loop of [FormatExecutionPlan] *)
Definition plan_maxlen (definitions : list ModuleDefinition) : nat :=
  foldl plan_spacing 0 definitions.

(** The first line of a module in the plan *)
Definition plan_header (module : ModuleDefinition) : string :=
  match md_runtime_name module with
  | Some (String a r) => String a r +:+ " (" +:+ md_name module +:+ "):" +:+ nl
  | _ => md_name module +:+ ":" +:+ nl
  end.

Section Plan.

Variable ImportArgsFromDict : Args -> Args -> Args.

(** [repr(value)] *)
Variable repr : string -> string.

(** The line of a parameter *)
Definition plan_parameter (maxlen : nat) (key value : string) : string :=
  "  " +:+ ljust key (maxlen + 3) +:+ repr value +:+ nl.

(** The body of the second loop of [FormatExecutionPlan] *)
Definition plan_module (maxlen : nat) (command_line_options : Args)
    (plan : string) (module : ModuleDefinition) : string :=
  let plan := plan +:+ plan_header module in
  let new_args := ImportArgsFromDict (md_args module) command_line_options in
  let plan := match new_args with
              | [] => plan +:+ ("  *No params*" +:+ nl)
              | _ => plan
              end in
  foldl (fun plan '(key, value) => plan +:+ plan_parameter maxlen key value)
    plan new_args.

(** [DFTimewolfState.FormatExecutionPlan] *)
Definition FormatExecutionPlan (s : DFTimewolfState) : string :=
  let modules := default [] (preflights (recipe s)) ++ default [] (modules (recipe s)) in
  let maxlen := plan_maxlen modules in
  foldl (plan_module maxlen (command_line_options s)) "" modules.

(** [DFTimewolfState.LogExecutionPlan] *)
Definition LogExecutionPlan : M unit :=
  s ← get_state;
  for_each (split newline (FormatExecutionPlan s)) (logger DEBUG).

End Plan.

(** [repr] in the examples, for values without quote or backslash *)
Definition ex_repr (value : string) : string := "'" +:+ value +:+ "'".

(** * Properties *)

(** ** Evaluating a sequence *)

Lemma bind_ok {A B} (m : M A) (f : A -> M B) w a w' :
  m w = (Ok a, w') -> (m ≫= f) w = f a w'.
Proof. intros H. unfold mbind, M_bind. by rewrite H. Qed.

Lemma bind_raised {A B} (m : M A) (f : A -> M B) w e w' :
  m w = (Raised e, w') -> (m ≫= f) w = (Raised e, w').
Proof. intros H. unfold mbind, M_bind. by rewrite H. Qed.

Lemma bind_blocked {A B} (m : M A) (f : A -> M B) w w' :
  m w = (Blocked, w') -> (m ≫= f) w = (Blocked, w').
Proof. intros H. unfold mbind, M_bind. by rewrite H. Qed.

(** ** Relations on the state that every method respects *)

Section Respects.

Context (R : relation DFTimewolfState) `{!PreOrder R}.

Lemma respects_mret {A} (a : A) : respects R (mret a).
Proof. intros w. reflexivity. Qed.

Lemma respects_pass : respects R pass.
Proof. intros w. reflexivity. Qed.

Lemma respects_raise {A} e : respects R (@raise A e).
Proof. intros w. reflexivity. Qed.

Lemma respects_block {A} : respects R (@block A).
Proof. intros w. reflexivity. Qed.

Lemma respects_get_state : respects R get_state.
Proof. intros w. reflexivity. Qed.

Lemma respects_logger lvl msg : respects R (logger lvl msg).
Proof. intros w. reflexivity. Qed.

Lemma respects_record_call c : respects R (record_call c).
Proof. intros w. reflexivity. Qed.

Lemma respects_getitem {V} (d : gmap string V) key : respects R (getitem d key).
Proof. intros w. unfold getitem. destruct (d !! key); reflexivity. Qed.

Lemma respects_modify_state f :
  (forall s, R s (f s)) -> respects R (modify_state f).
Proof. intros Hf w. apply Hf. Qed.

Lemma respects_with_state {A} (f : DFTimewolfState -> A * DFTimewolfState) :
  (forall s, R s (f s).2) -> respects R (with_state f).
Proof.
  intros Hf w. unfold with_state. specialize (Hf (state w)).
  destruct (f (state w)) as [a s']. exact Hf.
Qed.

Lemma respects_bind {A B} (m : M A) (f : A -> M B) :
  respects R m -> (forall a, respects R (f a)) -> respects R (m ≫= f).
Proof.
  intros Hm Hf w. unfold mbind, M_bind. specialize (Hm w).
  destruct (m w) as [[a|e|] w']; simpl in *; try exact Hm.
  etrans; [exact Hm | apply Hf].
Qed.

Lemma respects_try_except {A} (body : M A) handler :
  respects R body ->
  (forall e h, handler e = Some h -> respects R h) ->
  respects R (try_except body handler).
Proof.
  intros Hb Hh w. unfold try_except. specialize (Hb w).
  destruct (body w) as [[a|e|] w']; simpl in *; try exact Hb.
  destruct (handler e) as [h|] eqn:He; simpl; [|exact Hb].
  etrans; [exact Hb | apply (Hh e h He)].
Qed.

Lemma respects_try_finally {A} (body : M A) final :
  respects R body -> respects R final -> respects R (try_finally body final).
Proof.
  intros Hb Hf w. unfold try_finally. specialize (Hb w).
  destruct (body w) as [[a|e|] w']; simpl in *; try exact Hb;
    specialize (Hf w'); destruct (final w') as [[[]|e'|] w'']; simpl in *;
    (etrans; [exact Hb | exact Hf]).
Qed.

Lemma respects_for_each {A} (xs : list A) body :
  (forall x, respects R (body x)) -> respects R (for_each xs body).
Proof.
  intros Hb. induction xs as [|x xs IH]; simpl.
  - apply respects_pass.
  - apply respects_bind; [apply Hb | intros _; exact IH].
Qed.

Lemma respects_if {A} (b : bool) (m1 m2 : M A) :
  respects R m1 -> respects R m2 -> respects R (if b then m1 else m2).
Proof. by destruct b. Qed.

(** The methods through which module code changes the state *)
Context (R_AddError : forall e s, R s (AddError e s))
        (R_StoreContainer : forall c s, R s (StoreContainer c s))
        (R_GetContainers : forall cls pop s, R s (GetContainers cls pop s).2)
        (R_AddToCache : forall k v s, R s (AddToCache k v s)).

Lemma respects_run_logic p : respects R (run_logic p).
Proof.
  induction p as [| | | |e k IH|c k IH|cls pop k IH|key v k IH|key d k IH]; simpl.
  - apply respects_pass.
  - apply respects_raise.
  - apply respects_raise.
  - apply respects_raise.
  - apply respects_bind; [by apply respects_modify_state | done].
  - apply respects_bind; [by apply respects_modify_state | done].
  - apply respects_bind; [by apply respects_with_state | done].
  - apply respects_bind; [by apply respects_modify_state | done].
  - apply respects_bind; [apply respects_get_state | done].
Qed.

Lemma respects_StreamContainer c : respects R (StreamContainer c).
Proof.
  apply respects_bind; [apply respects_get_state | intros s].
  apply respects_for_each. intros cb.
  apply respects_bind; [apply respects_record_call | intros _].
  apply respects_run_logic.
Qed.

Lemma respects_CheckErrors_loop errs : forall index flag,
  respects R (CheckErrors_loop index errs flag).
Proof.
  induction errs as [|e errs IH]; intros index flag; simpl.
  - apply respects_mret.
  - apply respects_bind; [apply respects_logger | intros _].
    apply respects_bind; [|intros _; apply IH].
    apply respects_for_each. intros l. apply respects_logger.
Qed.

Lemma respects_CheckErrors is_global : respects R (CheckErrors is_global).
Proof.
  apply respects_bind; [apply respects_get_state | intros s].
  apply respects_bind.
  { apply respects_if; [apply respects_pass | apply respects_logger]. }
  intros _. apply respects_bind; [apply respects_CheckErrors_loop | intros flag].
  apply respects_bind.
  { apply respects_if; [|apply respects_pass].
    apply respects_bind; [apply respects_logger | intros _; apply respects_logger]. }
  intros _. apply respects_if; [apply respects_raise | apply respects_pass].
Qed.

Lemma respects_AddErrorM e : respects R (AddErrorM e).
Proof. by apply respects_modify_state. Qed.

Lemma respects_except_clauses (module : BaseModule) (text : string) e h :
  except_clauses module text e = Some h -> respects R h.
Proof.
  destruct e; intros [= <-]; try apply respects_logger.
  apply respects_bind; [apply respects_logger | intros _; apply respects_AddErrorM].
Qed.

Lemma respects_setup_calls module new_args :
  respects R (setup_calls module new_args).
Proof.
  apply respects_bind.
  { destruct (kind module); [apply respects_pass|].
    apply respects_bind; [apply respects_record_call | intros _; apply respects_run_logic]. }
  intros _. apply respects_bind; [apply respects_record_call | intros _].
  apply respects_bind; [apply respects_run_logic | intros _].
  destruct (kind module); [apply respects_pass|].
  apply respects_bind; [apply respects_record_call | intros _; apply respects_run_logic].
Qed.

Lemma respects_setup_module module new_args :
  respects R (setup_module module new_args).
Proof.
  apply respects_try_except; [apply respects_setup_calls|].
  apply respects_except_clauses.
Qed.

Lemma respects_submit module ta c : respects R (submit module ta c).
Proof.
  intros w. unfold submit.
  pose proof (respects_bind (record_call (CallProcessContainer (module_name module) c))
                (fun _ => run_logic (ProcessContainer ta c))
                (respects_record_call _) (fun _ => respects_run_logic _) w) as H.
  revert H.
  generalize ((record_call (CallProcessContainer (module_name module) c) ;;
               run_logic (ProcessContainer ta c)) w).
  intros [[[]|e|] w'] H; exact H.
Qed.

Lemma respects_run_executor module ta cs : respects R (run_executor module ta cs).
Proof.
  induction cs as [|c cs IH]; simpl.
  - apply respects_mret.
  - apply respects_bind; [apply respects_submit | intros fut].
    apply respects_bind; [apply IH | intros futs; apply respects_mret].
Qed.

Lemma respects_raise_first futures : respects R (raise_first futures).
Proof.
  induction futures as [|[e|] futures IH]; simpl;
    [apply respects_pass | apply respects_raise | exact IH].
Qed.

Lemma respects_process_module module runtime_name :
  respects R (process_module module runtime_name).
Proof.
  unfold process_module. destruct (kind module) as [p|ta].
  { apply respects_bind; [apply respects_record_call | intros _; apply respects_run_logic]. }
  apply respects_bind; [apply respects_record_call | intros _].
  apply respects_bind; [apply respects_run_logic | intros _].
  apply respects_bind; [by apply respects_with_state | intros counted].
  apply respects_bind; [apply respects_logger | intros _].
  apply respects_bind.
  { apply respects_if; [apply respects_raise | apply respects_pass]. }
  intros _. apply respects_bind; [by apply respects_with_state | intros cs].
  apply respects_bind; [apply respects_run_executor | intros futures].
  apply respects_bind; [apply respects_record_call | intros _].
  apply respects_bind; [apply respects_run_logic | intros _].
  apply respects_bind; [apply respects_raise_first | intros _].
  apply respects_if; [apply respects_pass|].
  apply respects_bind; [by apply respects_with_state | intros _; apply respects_pass].
Qed.

Lemma respects_run_module module runtime_name :
  respects R (run_module module runtime_name).
Proof.
  apply respects_try_except; [apply respects_process_module|].
  apply respects_except_clauses.
Qed.

Lemma respects_processing md module : respects R (processing md module).
Proof.
  apply respects_bind; [apply respects_run_module | intros _; apply respects_logger].
Qed.

Lemma respects_enter_running md : respects R (enter_running md).
Proof.
  apply respects_bind; [apply respects_get_state | intros s].
  apply respects_bind; [apply respects_getitem | intros module].
  apply respects_if;
    (apply respects_bind; [apply respects_logger | intros _; apply respects_mret]).
Qed.

Lemma respects_Event_wait d : respects R (Event_wait d).
Proof.
  apply respects_bind; [apply respects_get_state | intros s].
  apply respects_bind; [apply respects_getitem | intros b].
  apply respects_if; [apply respects_pass | apply respects_block].
Qed.

(** The methods through which the drivers change it *)
Context (R_CleanUp : forall s, R s (CleanUp s))
        (R_set : forall n s,
           R s (set_events (<[n := true]> (_threading_event_per_module s)) s)).

Lemma respects_CleanUpM : respects R CleanUpM.
Proof. by apply respects_modify_state. Qed.

Lemma respects_Event_set n : respects R (Event_set n).
Proof.
  apply respects_bind; [apply respects_get_state | intros s].
  apply respects_bind; [apply respects_getitem | intros _].
  apply respects_bind; [by apply respects_modify_state | intros _].
  apply respects_record_call.
Qed.

Lemma respects_completing md : respects R (completing md).
Proof.
  apply respects_bind; [apply respects_Event_set | intros _; apply respects_CleanUpM].
Qed.

Lemma respects_run_after_wait md : respects R (run_after_wait md).
Proof.
  apply respects_bind; [apply respects_get_state | intros s].
  apply respects_bind; [apply respects_getitem | intros module].
  apply respects_if.
  - apply respects_bind; [apply respects_logger | intros _].
    apply respects_bind; [apply respects_Event_set | intros _; apply respects_CleanUpM].
  - apply respects_bind; [apply respects_logger | intros _].
    apply respects_bind; [apply respects_run_module | intros _].
    apply respects_bind; [apply respects_logger | intros _].
    apply respects_bind; [apply respects_Event_set | intros _; apply respects_CleanUpM].
Qed.

Lemma respects_RunModuleThread md : respects R (_RunModuleThread md).
Proof.
  apply respects_bind; [|intros _; apply respects_run_after_wait].
  apply respects_for_each. apply respects_Event_wait.
Qed.

(** The two statements of [CleanUp], each a step of a thread *)
Context (R_extend : forall s, R s (CleanUp_extend s))
        (R_clear : forall s, R s (CleanUp_clear s)).

Lemma respects_task_step md pc w pc' w' :
  task_step md pc w = Some (pc', w') -> R (state w) (state w').
Proof.
  assert (Hafter : forall A (next : A -> Pc) (m : M A),
            respects R m -> after next (m w) = Some (pc', w') -> R (state w) (state w')).
  { intros A next m Hm. specialize (Hm w).
    destruct (m w) as [[a|e|] w1]; simpl in *; intros [= _ <-] || intros [=]; exact Hm. }
  destruct pc as [[|d ds]|module| | | | |]; simpl; try discriminate.
  - apply Hafter, respects_enter_running.
  - apply Hafter, respects_Event_wait.
  - apply Hafter, respects_processing.
  - apply Hafter, respects_Event_set.
  - intros [= _ <-]. apply R_extend.
  - intros [= _ <-]. apply R_clear.
Qed.

Lemma respects_step mds cfg cfg' :
  step mds cfg cfg' -> R (state (world cfg)) (state (world cfg')).
Proof. intros [i md pc pc' w' cfg0 _ _ Hstep]. exact (respects_task_step _ _ _ _ _ Hstep). Qed.

Lemma respects_steps mds cfg cfg' :
  rtc (step mds) cfg cfg' -> R (state (world cfg)) (state (world cfg')).
Proof.
  induction 1 as [|cfg1 cfg2 cfg3 H12 _ IH]; [reflexivity|].
  etrans; [exact (respects_step _ _ _ H12) | exact IH].
Qed.

Lemma respects_RunPreflights resolver : respects R (RunPreflights resolver).
Proof.
  apply respects_bind; [apply respects_get_state | intros s].
  apply respects_for_each. intros pd.
  apply respects_bind; [apply respects_get_state | intros s'].
  apply respects_bind; [apply respects_getitem | intros preflight].
  apply respects_try_finally; [|apply respects_CheckErrors].
  apply respects_bind; [apply respects_record_call | intros _].
  apply respects_bind; [apply respects_run_logic | intros _].
  destruct (kind preflight); [|apply respects_raise].
  apply respects_bind; [apply respects_record_call | intros _; apply respects_run_logic].
Qed.

Lemma respects_CleanUpPreflights : respects R CleanUpPreflights.
Proof.
  apply respects_bind; [apply respects_get_state | intros s].
  apply respects_for_each. intros pd.
  apply respects_bind; [apply respects_get_state | intros s'].
  apply respects_bind; [apply respects_getitem | intros preflight].
  apply respects_try_finally; [|apply respects_CheckErrors].
  apply respects_bind; [apply respects_record_call | intros _; apply respects_run_logic].
Qed.

(** The creation of a module's event by its setup thread *)
Context (R_new_event : forall n s,
           R s (set_events (<[n := false]> (_threading_event_per_module s)) s)).

Lemma respects_SetupModuleThread resolver md :
  respects R (_SetupModuleThread resolver md).
Proof.
  apply respects_bind; [apply respects_logger | intros _].
  apply respects_bind; [apply respects_get_state | intros s].
  apply respects_bind; [apply respects_getitem | intros module].
  apply respects_bind; [apply respects_setup_module | intros _].
  apply respects_bind; [by apply respects_modify_state | intros _].
  apply respects_CleanUpM.
Qed.

End Respects.

(** *** Instances *)

#[global] Instance abort_stays_preorder : PreOrder abort_stays.
Proof. split; unfold abort_stays; [intros s | intros s1 s2 s3]; auto. Qed.

#[global] Instance events_stay_set_preorder : PreOrder events_stay_set.
Proof. split; unfold events_stay_set; [intros s | intros s1 s2 s3]; auto. Qed.

#[global] Instance keeps_preorder {V} (field : DFTimewolfState -> V) : PreOrder (keeps field).
Proof. split; unfold keeps; [intros s | intros s1 s2 s3]; congruence. Qed.

Lemma abort_AddError e s :
  _abort_execution (AddError e s) = critical e || _abort_execution s.
Proof. unfold AddError. by destruct (critical e). Qed.

Lemma abort_stays_AddError e s : abort_stays s (AddError e s).
Proof. unfold abort_stays. rewrite abort_AddError. intros ->. by destruct (critical e). Qed.

Lemma abort_stays_GetContainers cls pop s : abort_stays s (GetContainers cls pop s).2.
Proof. unfold abort_stays. by destruct pop. Qed.

Lemma events_stay_set_AddError e s : events_stay_set s (AddError e s).
Proof. unfold events_stay_set, AddError. by destruct (critical e). Qed.

Lemma events_stay_set_GetContainers cls pop s :
  events_stay_set s (GetContainers cls pop s).2.
Proof. unfold events_stay_set. by destruct pop. Qed.

Lemma events_stay_set_set n s :
  events_stay_set s (set_events (<[n := true]> (_threading_event_per_module s)) s).
Proof.
  intros m Hm. simpl. destruct (decide (n = m)) as [->|Hne].
  - by rewrite lookup_insert_eq.
  - by rewrite lookup_insert_ne.
Qed.

Lemma keeps_events_AddError e s : keeps _threading_event_per_module s (AddError e s).
Proof. unfold keeps, AddError. by destruct (critical e). Qed.

Lemma keeps_events_GetContainers cls pop s :
  keeps _threading_event_per_module s (GetContainers cls pop s).2.
Proof. unfold keeps. by destruct pop. Qed.

Lemma keeps_callbacks_AddError e s : keeps streaming_callbacks s (AddError e s).
Proof. unfold keeps, AddError. by destruct (critical e). Qed.

Lemma keeps_callbacks_GetContainers cls pop s :
  keeps streaming_callbacks s (GetContainers cls pop s).2.
Proof. unfold keeps. by destruct pop. Qed.

(** Module code leaves the callbacks alone. *)

Lemma run_logic_callbacks p w :
  streaming_callbacks (state (run_logic p w).2) = streaming_callbacks (state w).
Proof.
  apply (respects_run_logic (keeps streaming_callbacks));
    auto using keeps_callbacks_AddError, keeps_callbacks_GetContainers; done.
Qed.

Lemma abort_stays_same s s' :
  _abort_execution s' = _abort_execution s -> abort_stays s s'.
Proof. unfold abort_stays. congruence. Qed.

Lemma events_stay_set_same s s' :
  _threading_event_per_module s' = _threading_event_per_module s ->
  events_stay_set s s'.
Proof. unfold events_stay_set. by intros ->. Qed.

Ltac stays :=
  intros;
  first [ apply abort_stays_AddError | apply abort_stays_GetContainers
        | apply events_stay_set_AddError | apply events_stay_set_GetContainers
        | apply events_stay_set_set
        | apply abort_stays_same; reflexivity
        | apply events_stay_set_same; reflexivity ].

Lemma operation_abort_stays resolver op : respects abort_stays (run_operation resolver op).
Proof.
  destruct op; simpl.
  - apply respects_modify_state; stays.
  - intros w. reflexivity.
  - apply respects_modify_state; stays.
  - intros w. apply abort_stays_same. by destruct pop.
  - apply respects_modify_state; stays.
  - apply respects_StreamContainer; try apply _; stays.
  - apply respects_modify_state; stays.
  - apply respects_modify_state; stays.
  - apply respects_CheckErrors; apply _.
  - apply respects_SetupModuleThread; try apply _; stays.
  - apply respects_RunModuleThread; try apply _; stays.
  - apply respects_RunPreflights; try apply _; stays.
  - apply respects_CleanUpPreflights; try apply _; stays.
Qed.

Lemma operations_abort_stays resolver ops : forall w,
  abort_stays (state w) (state (run_operations resolver ops w)).
Proof.
  induction ops as [|op ops IH]; intros w; simpl; [reflexivity|].
  etrans; [apply (operation_abort_stays resolver op w) | apply IH].
Qed.

Lemma steps_abort_stays mds cfg cfg' :
  rtc (step mds) cfg cfg' -> abort_stays (state (world cfg)) (state (world cfg')).
Proof. apply respects_steps; try apply _; stays. Qed.

Lemma task_step_events_stay_set md pc w pc' w' :
  task_step md pc w = Some (pc', w') -> events_stay_set (state w) (state w').
Proof. apply respects_task_step; try apply _; stays. Qed.

(** ** The container store *)

Lemma GetContainers_after_stores cls c1 c2 s :
  container_type c1 = CONTAINER_TYPE cls ->
  container_type c2 = CONTAINER_TYPE cls ->
  (GetContainers cls false (StoreContainer c2 (StoreContainer c1 s))).1
  = default [] (store s !! CONTAINER_TYPE cls) ++ [c1; c2].
Proof.
  intros H1 H2. unfold GetContainers, StoreContainer. simpl.
  rewrite H1, H2, !lookup_insert_eq. simpl. by rewrite <- app_assoc.
Qed.

(** C7. Store FIFO: after [StoreContainer c1] and [StoreContainer c2] of one
    tag that held nothing, [GetContainers] of that tag gives [c1; c2] and
    leaves the state as it is; with [pop] it gives [c1; c2] as well, leaves
    the empty list under the tag, and a read that follows gives nothing.
    [c1] and [c2] need not differ. *)
Theorem store_fifo (cls : ContainerClass) (c1 c2 : Container) (s : DFTimewolfState) :
  container_type c1 = CONTAINER_TYPE cls ->
  container_type c2 = CONTAINER_TYPE cls ->
  default [] (store s !! CONTAINER_TYPE cls) = [] ->
  let stored := StoreContainer c2 (StoreContainer c1 s) in
  GetContainers cls false stored = ([c1; c2], stored) /\
  (GetContainers cls true stored).1 = [c1; c2] /\
  store (GetContainers cls true stored).2 !! CONTAINER_TYPE cls = Some [] /\
  (GetContainers cls false (GetContainers cls true stored).2).1 = [].
Proof.
  intros H1 H2 Hempty stored.
  pose proof (GetContainers_after_stores cls c1 c2 s H1 H2) as Hget.
  rewrite Hempty in Hget. simpl in Hget. fold stored in Hget.
  split; [|split; [|split]].
  - unfold GetContainers in *. simpl in *. by rewrite Hget.
  - exact Hget.
  - simpl. by rewrite lookup_insert_eq.
  - unfold GetContainers at 1. simpl. by rewrite lookup_insert_eq.
Qed.

Lemma store_fifo_witness :
  let stored := StoreContainer ex_c2 (StoreContainer ex_c1 init) in
  GetContainers ex_class false stored = ([ex_c1; ex_c2], stored) /\
  (GetContainers ex_class true stored).1 = [ex_c1; ex_c2] /\
  store (GetContainers ex_class true stored).2 !! CONTAINER_TYPE ex_class = Some [] /\
  (GetContainers ex_class false (GetContainers ex_class true stored).2).1 = [].
Proof.
  apply (store_fifo ex_class ex_c1 ex_c2 init); reflexivity.
Defined.

(** ** The error ledger *)

Lemma for_each_logger lvl (lines : list string) w :
  for_each lines (logger lvl) w
  = (Ok tt, {| state := state w;
               log := log w ++ ((fun l => {| level := lvl; text := l |}) <$> lines);
               calls := calls w |}).
Proof.
  revert w. induction lines as [|l lines IH]; intros w; simpl.
  - unfold pass, mret, M_ret. rewrite app_nil_r. by destruct w.
  - unfold mbind, M_bind, logger at 1. rewrite IH. simpl.
    by rewrite <- app_assoc.
Qed.

(** ** Texts and their lines *)

Lemma append_assoc (a b c : string) : (a +:+ b) +:+ c = a +:+ (b +:+ c).
Proof.
  induction a as [|x a IH]; [done|].
  change (String x ((a +:+ b) +:+ c) = String x (a +:+ (b +:+ c))). by rewrite IH.
Qed.

Lemma append_empty_r (a : string) : a +:+ "" = a.
Proof.
  induction a as [|x a IH]; [done|].
  change (String x (a +:+ "") = String x a). by rewrite IH.
Qed.

Lemma split_nonempty sep s : split sep s <> [].
Proof.
  destruct s as [|a s]; simpl; [done|].
  destruct (Ascii.eqb a sep); [done|]. by destruct (split sep s).
Qed.

Lemma join_cons_char sep a x xs :
  join sep (String a x :: xs) = String a (join sep (x :: xs)).
Proof. by destruct xs. Qed.

Lemma join_split sep s : join sep (split sep s) = s.
Proof.
  induction s as [|a s IH]; simpl; [done|].
  destruct (Ascii.eqb a sep) eqn:Ha.
  - apply Ascii.eqb_eq in Ha as ->.
    pose proof (split_nonempty sep s) as Hne.
    destruct (split sep s) as [|x xs]; [done|]. simpl in *. by rewrite IH.
  - pose proof (split_nonempty sep s) as Hne.
    destruct (split sep s) as [|x xs]; [done|].
    by rewrite join_cons_char, IH.
Qed.

Lemma split_no_separator sep s :
  Forall (fun part => occurs sep part = false) (split sep s).
Proof.
  induction s as [|a s IH]; simpl; [by repeat constructor|].
  destruct (Ascii.eqb a sep) eqn:Ha.
  - by constructor.
  - destruct (split sep s) as [|x xs].
    + constructor; [|constructor]. simpl. by rewrite Ha.
    + apply Forall_cons in IH as [Hx Hxs]. constructor; [|done]. simpl. by rewrite Ha.
Qed.

Lemma text_of_records (lines : list string) :
  text <$> ((fun line => {| level := ERROR; text := line |}) <$> lines) = lines.
Proof. induction lines as [|l lines IH]; [done|]. rewrite !fmap_cons. by f_equal. Qed.

(** The pieces that are read off a text are those of [str.split]. *)
Lemma pieces_from_split sep s : forall current,
  pieces_from sep current s
  = match split sep s with
    | x :: xs => (current +:+ x) :: xs
    | [] => [current]
    end.
Proof.
  induction s as [|a s IH]; intros current; simpl.
  - by rewrite append_empty_r.
  - pose proof (split_nonempty sep s) as Hne.
    destruct (Ascii.eqb a sep).
    + rewrite append_empty_r, (IH ""). by destruct (split sep s).
    + rewrite (IH (current +:+ String a "")).
      destruct (split sep s) as [|x xs]; [done|]. by rewrite append_assoc.
Qed.

(** The lines of the report are the lines that [CheckErrors] logs. *)
Lemma reported_trace_lines e : reported_trace e = stacktrace_lines e.
Proof.
  unfold reported_trace, stacktrace_lines.
  destruct (stacktrace e) as [[|a t]|]; [done| |done].
  rewrite decide_False by done. rewrite pieces_from_split.
  pose proof (split_nonempty newline (String a t)) as Hne.
  by destruct (split newline (String a t)).
Qed.

Lemma CheckErrors_loop_spec error_objects : forall index flag w,
  CheckErrors_loop index error_objects flag w
  = (Ok (flag || existsb critical error_objects),
     {| state := state w;
        log := log w ++ ledger_report index error_objects;
        calls := calls w |}).
Proof.
  induction error_objects as [|e rest IH]; intros index flag w; simpl.
  - unfold mret, M_ret. rewrite orb_false_r, app_nil_r. by destruct w.
  - unfold mbind, M_bind, logger at 1. rewrite for_each_logger. simpl.
    rewrite IH. simpl. f_equal.
    + f_equal. destruct (critical e), flag; reflexivity.
    + f_equal. unfold error_line, stacktrace_records.
      by rewrite reported_trace_lines, <- !app_assoc.
Qed.

(** [CheckErrors] in one equation: its outcome, and the world it leaves. *)
Lemma CheckErrors_spec is_global w :
  CheckErrors is_global w
  = (if existsb critical (checked is_global (state w))
     then Raised CriticalError else Ok tt,
     {| state := state w;
        log := log w ++ CheckErrors_report (checked is_global (state w));
        calls := calls w |}).
Proof.
  unfold CheckErrors, CheckErrors_report, checked.
  unfold mbind at 1, M_bind at 1, get_state at 1.
  unfold mbind at 1, M_bind at 1.
  set (errs := if is_global then global_errors (state w) else errors (state w)).
  assert (Hhead : (if bool_decide (errs = []) then pass
                   else logger ERROR "dfTimewolf encountered one or more errors:") w
                  = (Ok tt, {| state := state w;
                               log := log w ++ report_header errs;
                               calls := calls w |})).
  { destruct errs as [|e errs']; simpl.
    - unfold pass, mret, M_ret. rewrite app_nil_r. by destruct w.
    - reflexivity. }
  rewrite Hhead. unfold mbind at 1, M_bind at 1. rewrite CheckErrors_loop_spec.
  simpl. unfold mbind at 1, M_bind at 1.
  destruct (existsb unexpected errs); simpl.
  - destruct (existsb critical errs); simpl; unfold raise, pass, mret, M_ret;
      by rewrite <- !app_assoc.
  - destruct (existsb critical errs); simpl; unfold raise, pass, mret, M_ret;
      by rewrite app_nil_r, <- !app_assoc.
Qed.

Lemma ledger_report_lookup error_objects : forall index i e,
  error_objects !! i = Some e ->
  error_line (index + i) e ∈ ledger_report index error_objects /\
  (forall r, r ∈ stacktrace_records e -> r ∈ ledger_report index error_objects).
Proof.
  induction error_objects as [|e0 rest IH]; intros index i e Hi; [done|].
  destruct i as [|i]; simpl in *.
  - injection Hi as ->. rewrite Nat.add_0_r. split; [apply list_elem_of_here|].
    intros r Hr. apply list_elem_of_further, elem_of_app. by left.
  - destruct (IH (S index) i e Hi) as [Hline Htrace].
    replace (index + S i) with (S index + i) by lia. split.
    + apply list_elem_of_further, elem_of_app. by right.
    + intros r Hr. apply list_elem_of_further, elem_of_app. right. by apply Htrace.
Qed.

Lemma ledger_report_level error_objects : forall index r,
  r ∈ ledger_report index error_objects -> level r = ERROR.
Proof.
  induction error_objects as [|e rest IH]; intros index r; simpl.
  - by intros ?%elem_of_nil.
  - rewrite elem_of_cons, elem_of_app. intros [->|[Hr|Hr]]; [done| |by eapply IH].
    unfold stacktrace_records in Hr. apply list_elem_of_fmap in Hr as (l & -> & _). done.
Qed.

Lemma existsb_elem_of {A} (f : A -> bool) (l : list A) :
  existsb f l = true <-> exists x, x ∈ l /\ f x = true.
Proof.
  rewrite existsb_exists. split; intros (x & Hx & Hf); exists x; split; auto;
    by apply list_elem_of_In.
Qed.

Lemma existsb_false_elem_of {A} (f : A -> bool) (l : list A) :
  existsb f l = false <-> forall x, x ∈ l -> f x = false.
Proof.
  split.
  - intros Hex x Hx. destruct (f x) eqn:Hf; [|done].
    assert (existsb f l = true) by (apply existsb_elem_of; eauto). congruence.
  - intros Hall. destruct (existsb f l) eqn:Hex; [|done].
    apply existsb_elem_of in Hex as (x & Hx & Hf). rewrite (Hall x Hx) in Hf. done.
Qed.

(** C5. Fatal-abort trigger: [CheckErrors] raises the critical error exactly
    when a record of the checked list is critical, and returns exactly when
    none is; whatever the outcome, the logger has by then received the line
    of every record (position, origin, message) and the lines of its stack
    trace; the notice that asks for an issue to be opened is written exactly
    when a record is unexpected.  The lines of a stack trace are the stack
    trace, whole: each is logged as an error, none holds a line break, and
    joined by line breaks they give the text back; a record without stack
    trace, or with an empty one, has no such line. *)
Theorem CheckErrors_raises_iff_critical (is_global : bool) (w : World) :
  let error_objects := checked is_global (state w) in
  let outcome := (CheckErrors is_global w).1 in
  let written := CheckErrors_report error_objects in
  (outcome = Raised CriticalError <->
     exists e, e ∈ error_objects /\ critical e = true) /\
  (outcome = Ok tt <-> forall e, e ∈ error_objects -> critical e = false) /\
  log (CheckErrors is_global w).2 = log w ++ written /\
  (forall i e, error_objects !! i = Some e ->
     error_line i e ∈ written /\
     forall r, r ∈ stacktrace_records e -> r ∈ written) /\
  ((forall r, r ∈ unexpected_notice -> r ∈ written) <->
     exists e, e ∈ error_objects /\ unexpected e = true) /\
  (forall e trace,
     stacktrace e = Some trace -> trace <> "" ->
     join newline (text <$> stacktrace_records e) = trace /\
     Forall (fun r => occurs newline (text r) = false /\ level r = ERROR)
       (stacktrace_records e)) /\
  (forall e, stacktrace e = None \/ stacktrace e = Some "" ->
             stacktrace_records e = []).
Proof.
  intros errs outcome written. subst outcome. rewrite CheckErrors_spec. simpl.
  fold errs. split; [|split; [|split; [|split; [|split; [|split]]]]].
  - rewrite <- existsb_elem_of. destruct (existsb critical errs); split; congruence.
  - rewrite <- existsb_false_elem_of. destruct (existsb critical errs); split; congruence.
  - reflexivity.
  - intros i e Hi. destruct (ledger_report_lookup errs 0 i e Hi) as [Hline Htrace].
    subst written. unfold CheckErrors_report. split.
    + rewrite !elem_of_app. right; left. exact Hline.
    + intros r Hr. rewrite !elem_of_app. right; left. by apply Htrace.
  - rewrite <- existsb_elem_of. subst written. unfold CheckErrors_report. split.
    + intros Hall. destruct (existsb unexpected errs); [done|].
      specialize (Hall _ (list_elem_of_here _ _)).
      rewrite app_nil_r, elem_of_app in Hall. destruct Hall as [Hh|Hl].
      * destruct errs; simpl in Hh; [by apply elem_of_nil in Hh|].
        apply list_elem_of_singleton in Hh. discriminate.
      * apply ledger_report_level in Hl. discriminate.
    + intros ->. intros r Hr. rewrite !elem_of_app. by right; right.
  - intros e trace He Hne. unfold stacktrace_records.
    rewrite reported_trace_lines. unfold stacktrace_lines. rewrite He.
    destruct trace as [|a t]; [done|]. split.
    + rewrite text_of_records. apply join_split.
    + apply Forall_fmap. eapply Forall_impl; [apply split_no_separator|]. by intros.
  - intros e [He|He]; unfold stacktrace_records, reported_trace; by rewrite He.
Qed.

(** C10. [CheckErrors] leaves the state as it found it, for either list and
    whether it returns or raises: the two error lists, the store, the cache
    and the abort flag are fields of that state.  It calls nothing, and a
    second check of the world it leaves has the outcome of the first. *)
Theorem CheckErrors_frame (is_global : bool) (w : World) :
  state (CheckErrors is_global w).2 = state w /\
  calls (CheckErrors is_global w).2 = calls w /\
  (CheckErrors is_global (CheckErrors is_global w).2).1
  = (CheckErrors is_global w).1.
Proof. rewrite !CheckErrors_spec. simpl. auto. Qed.

(** C6. The abort flag starts unset; [AddError] sets it in the call that
    records a critical error; and no operation of the state, and no step of
    the threads of [RunModules], unsets it. *)
Theorem abort_flag_monotonic (resolver : Args -> Args -> Args)
    (error : DFTimewolfError) (s : DFTimewolfState)
    (ops : list Operation) (w : World)
    (module_definitions : list ModuleDefinition) (cfg cfg' : Config) :
  _abort_execution init = false /\
  _abort_execution (AddError error s) = critical error || _abort_execution s /\
  errors (AddError error s) = errors s ++ [error] /\
  (_abort_execution (state w) = true ->
   _abort_execution (state (run_operations resolver ops w)) = true) /\
  (rtc (step module_definitions) cfg cfg' ->
   _abort_execution (state (world cfg)) = true ->
   _abort_execution (state (world cfg')) = true).
Proof.
  split; [reflexivity|]. split; [apply abort_AddError|]. split.
  { unfold AddError. by destruct (critical error). }
  split.
  - apply operations_abort_stays.
  - apply steps_abort_stays.
Qed.

(** ** Streaming *)

Lemma run_logic_calls p : forall w, calls (run_logic p w).2 = calls w.
Proof.
  induction p as [| | | |e k IH|c k IH|cls pop k IH|key v k IH|key d k IH];
    intros w; simpl; try reflexivity;
    unfold mbind, M_bind, modify_state, with_state, get_state.
  - destruct (run_logic k _) as [[[]|?|] w'] eqn:E; simpl;
      pose proof (IH {| state := AddError e (state w); log := log w; calls := calls w |}) as H;
      rewrite E in H; exact H.
  - destruct (run_logic k _) as [[[]|?|] w'] eqn:E; simpl;
      pose proof (IH {| state := StoreContainer c (state w); log := log w; calls := calls w |}) as H;
      rewrite E in H; exact H.
  - destruct (GetContainers cls pop (state w)) as [cs s'] eqn:Eg.
    destruct (run_logic (k cs) _) as [[[]|?|] w'] eqn:E; simpl;
      pose proof (IH cs {| state := s'; log := log w; calls := calls w |}) as H;
      rewrite E in H; exact H.
  - destruct (run_logic k _) as [[[]|?|] w'] eqn:E; simpl;
      pose proof (IH {| state := AddToCache key v (state w); log := log w; calls := calls w |}) as H;
      rewrite E in H; exact H.
  - destruct (run_logic (k _) _) as [[[]|?|] w'] eqn:E; simpl;
      pose proof (IH (GetFromCache key d (state w)) w) as H;
      rewrite E in H; exact H.
Qed.

Lemma register_all_lookup callbacks cls : forall s,
  default [] (streaming_callbacks (register_all callbacks cls s) !! cls)
  = default [] (streaming_callbacks s !! cls) ++ callbacks.
Proof.
  induction callbacks as [|cb cbs IH]; intros s; simpl.
  - by rewrite app_nil_r.
  - rewrite IH. unfold RegisterStreamingCallback. simpl.
    rewrite lookup_insert_eq. simpl. by rewrite <- app_assoc.
Qed.

(** Streaming one container to callbacks that return *)
Lemma for_each_callbacks container callbacks : forall w,
  (forall cb w', cb ∈ callbacks -> (run_logic (cb_body cb container) w').1 = Ok tt) ->
  let run := for_each callbacks (fun callback =>
               record_call (CallCallback (cb_name callback) container) ;;
               run_logic (cb_body callback container)) w in
  run.1 = Ok tt /\
  calls run.2 = calls w ++ dispatch callbacks container /\
  streaming_callbacks (state run.2) = streaming_callbacks (state w).
Proof.
  induction callbacks as [|cb cbs IH]; intros w Hret; cbv zeta.
  - simpl. by rewrite app_nil_r.
  - set (w1 := {| state := state w; log := log w;
                  calls := calls w ++ [CallCallback (cb_name cb) container] |}).
    pose proof (Hret cb w1 (list_elem_of_here _ _)) as Hok.
    pose proof (run_logic_calls (cb_body cb container) w1) as Hcalls.
    pose proof (run_logic_callbacks (cb_body cb container) w1) as Hreg.
    destruct (run_logic (cb_body cb container) w1) as [r w2] eqn:E.
    simpl in Hok, Hcalls, Hreg. subst r.
    assert (Hhead : (record_call (CallCallback (cb_name cb) container) ;;
                     run_logic (cb_body cb container)) w = (Ok tt, w2)) by exact E.
    change (for_each (cb :: cbs) ?body) with (body cb ;; for_each cbs body).
    rewrite !(bind_ok _ _ _ _ _ Hhead).
    destruct (IH w2) as (Hr & Hc & Hs).
    { intros cb' w' Hin. apply Hret. by apply list_elem_of_further. }
    split; [exact Hr|]. split.
    + rewrite Hc, Hcalls. simpl. by rewrite <- app_assoc.
    + by rewrite Hs, Hreg.
Qed.

Lemma StreamContainer_returns container callbacks w :
  default [] (streaming_callbacks (state w) !! container_class container) = callbacks ->
  (forall cb c w', cb ∈ callbacks -> (run_logic (cb_body cb c) w').1 = Ok tt) ->
  (StreamContainer container w).1 = Ok tt /\
  calls (StreamContainer container w).2 = calls w ++ dispatch callbacks container /\
  streaming_callbacks (state (StreamContainer container w).2)
  = streaming_callbacks (state w).
Proof.
  intros Hreg Hret.
  assert (E : StreamContainer container w
              = for_each callbacks (fun callback =>
                  record_call (CallCallback (cb_name callback) container) ;;
                  run_logic (cb_body callback container)) w).
  { unfold StreamContainer.
    rewrite (bind_ok _ _ _ _ _ (eq_refl : get_state w = (Ok (state w), w))).
    by rewrite Hreg. }
  rewrite E. apply for_each_callbacks. intros cb w' Hin. by apply Hret.
Qed.

Lemma for_each_StreamContainer cls callbacks containers : forall w,
  default [] (streaming_callbacks (state w) !! cls) = callbacks ->
  (forall c, c ∈ containers -> container_class c = cls) ->
  (forall cb c w', cb ∈ callbacks -> (run_logic (cb_body cb c) w').1 = Ok tt) ->
  (for_each containers StreamContainer w).1 = Ok tt /\
  calls (for_each containers StreamContainer w).2
  = calls w ++ (containers ≫= dispatch callbacks).
Proof.
  induction containers as [|c cs IH]; intros w Hreg Hcls Hret.
  - simpl. by rewrite app_nil_r.
  - change (for_each (c :: cs) StreamContainer)
      with (StreamContainer c ;; for_each cs StreamContainer).
    destruct (StreamContainer_returns c callbacks w) as (Hr & Hc & Hs); auto.
    { rewrite (Hcls c (list_elem_of_here _ _)). exact Hreg. }
    destruct (StreamContainer c w) as [r w1] eqn:E. simpl in Hr, Hc, Hs. subst r.
    rewrite !(bind_ok _ _ _ _ _ E).
    destruct (IH w1) as (Hr' & Hc'); auto.
    { by rewrite Hs. }
    { intros c' Hin. apply Hcls. by apply list_elem_of_further. }
    split; [exact Hr'|]. rewrite Hc', Hc, bind_cons. by rewrite <- app_assoc.
Qed.

Lemma invocations_app callback t1 t2 :
  invocations callback (t1 ++ t2) = invocations callback t1 ++ invocations callback t2.
Proof. unfold invocations. apply omap_app. Qed.

Lemma invocations_dispatch_other callback callbacks c :
  callback ∉ cb_name <$> callbacks ->
  invocations callback (dispatch callbacks c) = [].
Proof.
  induction callbacks as [|cb cbs IH]; intros Hnot; [done|].
  rewrite fmap_cons, not_elem_of_cons in Hnot. destruct Hnot as [Hne Hnot].
  unfold invocations, dispatch in *. simpl.
  destruct (decide (cb_name cb = callback)) as [Heq|_]; [by subst|].
  by apply IH.
Qed.

Lemma invocations_dispatch callback callbacks c :
  NoDup (cb_name <$> callbacks) ->
  callback ∈ cb_name <$> callbacks ->
  invocations callback (dispatch callbacks c) = [c].
Proof.
  induction callbacks as [|cb cbs IH]; intros Hnd Hin; [by apply elem_of_nil in Hin|].
  rewrite fmap_cons in Hnd, Hin. apply NoDup_cons in Hnd as [Hfresh Hnd].
  unfold invocations, dispatch. simpl.
  destruct (decide (cb_name cb = callback)) as [Heq|Hne].
  - subst callback. f_equal. by apply invocations_dispatch_other.
  - apply elem_of_cons in Hin as [Heq|Hin]; [by subst|].
    by apply IH.
Qed.

Lemma invocations_stream callback callbacks containers :
  NoDup (cb_name <$> callbacks) ->
  callback ∈ cb_name <$> callbacks ->
  invocations callback (containers ≫= dispatch callbacks) = containers.
Proof.
  intros Hnd Hin. induction containers as [|c cs IH]; [done|].
  rewrite bind_cons, invocations_app, invocations_dispatch, IH; done.
Qed.

(** C3 (as amended). Streaming fan-out: with the callbacks registered for a
    container class through [RegisterStreamingCallback], and each of them
    returning, [StreamContainer] of n containers of that class invokes every
    callback on every container, container by container in the order in
    which they are streamed and, for one container, in the order of
    registration: a callback is invoked exactly n times, on the containers in
    that order.  [StoreContainer] and [GetContainers] invoke no callback. *)
Theorem StreamContainer_fan_out (cls : ContainerClass) (callbacks : list Callback)
    (containers : list Container) (w : World) :
  streaming_callbacks (state w) !! cls = None ->
  (forall c, c ∈ containers -> container_class c = cls) ->
  (forall cb c w', cb ∈ callbacks -> (run_logic (cb_body cb c) w').1 = Ok tt) ->
  NoDup (cb_name <$> callbacks) ->
  let registered :=
    {| state := register_all callbacks cls (state w); log := log w; calls := calls w |} in
  let streamed := for_each containers StreamContainer registered in
  streamed.1 = Ok tt /\
  calls streamed.2 = calls w ++ (containers ≫= dispatch callbacks) /\
  (forall cb, cb ∈ callbacks ->
     invocations (cb_name cb) (calls streamed.2)
     = invocations (cb_name cb) (calls w) ++ containers) /\
  (forall c, calls (modify_state (StoreContainer c) registered).2 = calls w) /\
  (forall k pop, calls (with_state (GetContainers k pop) registered).2 = calls w).
Proof.
  intros Hnone Hcls Hret Hnd registered streamed.
  destruct (for_each_StreamContainer cls callbacks containers registered)
    as [Hok Hcalls]; auto.
  { subst registered. simpl. by rewrite register_all_lookup, Hnone. }
  fold streamed in Hok, Hcalls. split; [exact Hok|]. split; [exact Hcalls|].
  split; [|split].
  - intros cb Hcb. rewrite Hcalls. simpl. rewrite invocations_app. f_equal.
    apply invocations_stream; [exact Hnd|]. by apply list_elem_of_fmap_2.
  - reflexivity.
  - intros k pop. unfold with_state. by destruct (GetContainers k pop _).
Qed.

Lemma StreamContainer_fan_out_witness :
  let registered :=
    {| state := register_all [ex_callback; ex_callback2] ex_class init;
       log := []; calls := [] |} in
  let streamed := for_each [ex_c1; ex_c2; ex_c1] StreamContainer registered in
  streamed.1 = Ok tt /\
  calls streamed.2
  = [] ++ ([ex_c1; ex_c2; ex_c1] ≫= dispatch [ex_callback; ex_callback2]) /\
  (forall cb, cb ∈ [ex_callback; ex_callback2] ->
     invocations (cb_name cb) (calls streamed.2)
     = invocations (cb_name cb) [] ++ [ex_c1; ex_c2; ex_c1]) /\
  (forall c, calls (modify_state (StoreContainer c) registered).2 = []) /\
  (forall k pop, calls (with_state (GetContainers k pop) registered).2 = []).
Proof.
  apply (StreamContainer_fan_out ex_class [ex_callback; ex_callback2]
           [ex_c1; ex_c2; ex_c1] initial_world).
  - reflexivity.
  - intros c Hc. repeat (apply elem_of_cons in Hc as [->|Hc]; [reflexivity|]).
    by apply elem_of_nil in Hc.
  - intros cb c w' Hcb. repeat (apply elem_of_cons in Hcb as [->|Hcb]; [reflexivity|]).
    by apply elem_of_nil in Hcb.
  - apply (bool_decide_unpack _). by vm_compute.
Defined.

(** C3, as it was stated, fails: with a callback registered for the class,
    [StoreContainer] of two containers of that class stores them and invokes
    nothing. *)
Lemma StoreContainer_invokes_no_callback :
  let w := run_operations ex_resolver
             [OpRegisterStreamingCallback ex_callback ex_class;
              OpStoreContainer ex_c1; OpStoreContainer ex_c2] initial_world in
  streaming_callbacks (state w) !! ex_class = Some [ex_callback] /\
  store (state w) !! "host" = Some [ex_c1; ex_c2] /\
  calls w = [] /\
  invocations "export" (calls w) <> [ex_c1; ex_c2].
Proof. repeat split; try reflexivity. discriminate. Qed.

(** ** Module code returns or raises *)

Lemma never_blocks_bind {A B} (m : M A) (f : A -> M B) :
  never_blocks m -> (forall a, never_blocks (f a)) -> never_blocks (m ≫= f).
Proof.
  intros Hm Hf w. unfold mbind, M_bind. specialize (Hm w).
  destruct (m w) as [[a|e|] w']; simpl in *; [apply Hf | done | done].
Qed.

Lemma never_blocks_ok {A} (m : M A) :
  (forall w, exists a w', m w = (Ok a, w')) -> never_blocks m.
Proof. intros H w. destruct (H w) as (a & w' & ->). done. Qed.

Lemma never_blocks_pass : never_blocks pass.
Proof. done. Qed.

Lemma never_blocks_logger lvl msg : never_blocks (logger lvl msg).
Proof. done. Qed.

Lemma never_blocks_record_call c : never_blocks (record_call c).
Proof. done. Qed.

Lemma never_blocks_with_state {A} (f : DFTimewolfState -> A * DFTimewolfState) :
  never_blocks (with_state f).
Proof. intros w. unfold with_state. by destruct (f (state w)). Qed.

Lemma never_blocks_run_logic p : never_blocks (run_logic p).
Proof.
  induction p as [| | | |e k IH|c k IH|cls pop k IH|key v k IH|key d k IH]; simpl;
    first [ done
          | apply never_blocks_bind;
            [first [done | apply never_blocks_with_state] | done] ].
Qed.

Lemma never_blocks_called c p : never_blocks (record_call c ;; run_logic p).
Proof.
  apply never_blocks_bind; [apply never_blocks_record_call|].
  intros _. apply never_blocks_run_logic.
Qed.

Lemma never_blocks_setup_calls module new_args :
  never_blocks (setup_calls module new_args).
Proof.
  apply never_blocks_bind.
  { destruct (kind module); [apply never_blocks_pass | apply never_blocks_called]. }
  intros _. apply never_blocks_bind; [apply never_blocks_record_call | intros _].
  apply never_blocks_bind; [apply never_blocks_run_logic | intros _].
  destruct (kind module); [apply never_blocks_pass | apply never_blocks_called].
Qed.

(** A unit that is submitted runs to its end, and its exception, if any,
    stays in its future. *)
Lemma submit_returns module ta c w :
  exists fut w', submit module ta c w = (Ok fut, w') /\
                 calls w' = calls w ++ [CallProcessContainer (module_name module) c].
Proof.
  unfold submit.
  pose proof (never_blocks_called (CallProcessContainer (module_name module) c)
                (ProcessContainer ta c) w) as Hnb.
  pose proof (run_logic_calls (ProcessContainer ta c)
                {| state := state w; log := log w;
                   calls := calls w ++ [CallProcessContainer (module_name module) c] |})
    as Hcalls.
  change (calls (run_logic (ProcessContainer ta c) _).2)
    with (calls ((record_call (CallProcessContainer (module_name module) c) ;;
                  run_logic (ProcessContainer ta c)) w).2) in Hcalls.
  destruct ((record_call _ ;; run_logic _) w) as [[[]|e|] w']; simpl in *;
    [by eexists _, _ | by eexists _, _ | done].
Qed.

(** The pool runs every unit, whatever the units do. *)
Lemma run_executor_returns module ta containers : forall w,
  exists futures w',
    run_executor module ta containers w = (Ok futures, w') /\
    length futures = length containers /\
    calls w' = calls w ++ (CallProcessContainer (module_name module) <$> containers).
Proof.
  induction containers as [|c cs IH]; intros w.
  - exists [], w. simpl. by rewrite app_nil_r.
  - destruct (submit_returns module ta c w) as (fut & w1 & Hs & Hc1).
    destruct (IH w1) as (futs & w2 & Hr & Hlen & Hc2).
    exists (fut :: futs), w2. split; [|split].
    + simpl. rewrite (bind_ok _ _ _ _ _ Hs), (bind_ok _ _ _ _ _ Hr). done.
    + simpl. by rewrite Hlen.
    + rewrite Hc2, Hc1, fmap_cons. by rewrite <- app_assoc.
Qed.

Lemma never_blocks_raise_first futures : never_blocks (raise_first futures).
Proof. induction futures as [|[e|] futures IH]; simpl; done. Qed.

Lemma raise_first_spec futures w :
  raise_first futures w
  = (match first_exception futures with Some e => Raised e | None => Ok tt end, w).
Proof.
  induction futures as [|[e|] futures IH]; simpl; try done.
  rewrite IH. unfold first_exception. simpl.
  destruct (list_find is_Some futures) as [[i x]|]; done.
Qed.

Lemma never_blocks_process_module module runtime_name :
  never_blocks (process_module module runtime_name).
Proof.
  unfold process_module. destruct (kind module) as [p|ta];
    [apply never_blocks_called|].
  apply never_blocks_bind; [apply never_blocks_record_call | intros _].
  apply never_blocks_bind; [apply never_blocks_run_logic | intros _].
  apply never_blocks_bind; [apply never_blocks_with_state | intros counted].
  apply never_blocks_bind; [apply never_blocks_logger | intros _].
  apply never_blocks_bind; [by destruct (bool_decide _) | intros _].
  apply never_blocks_bind; [apply never_blocks_with_state | intros cs].
  apply never_blocks_bind.
  { apply never_blocks_ok. intros w.
    destruct (run_executor_returns module ta cs w) as (futs & w' & H & _). eauto. }
  intros futures.
  apply never_blocks_bind; [apply never_blocks_record_call | intros _].
  apply never_blocks_bind; [apply never_blocks_run_logic | intros _].
  apply never_blocks_bind; [apply never_blocks_raise_first | intros _].
  destruct (KeepThreadedContainersInState ta); [apply never_blocks_pass|].
  apply never_blocks_bind; [apply never_blocks_with_state | intros _; apply never_blocks_pass].
Qed.

(** A try statement with the two except clauses returns, unless its body
    raises an exception that does not derive from [Exception], and leaves
    the state of its body with, at most, the error of the second clause
    added. *)
Lemma try_except_clauses module text (body : M unit) w :
  never_blocks body ->
  within_Exception (body w).1 ->
  exists lines,
    try_except body (except_clauses module text) w
    = (Ok tt,
       {| state := record (recorded_by_driver module (body w).1) (state (body w).2);
          log := log (body w).2 ++ lines;
          calls := calls (body w).2 |}).
Proof.
  intros Hnb Hwithin. unfold try_except. specialize (Hnb w).
  destruct (body w) as [[[]|[e|msg|x|x]|] w1]; simpl in *; try done.
  - exists []. rewrite app_nil_r. by destruct w1.
  - by eexists [_].
  - by eexists [_].
  - by eexists [_].
  - by destruct (Hwithin x).
Qed.

(** An exception that does not derive from [Exception] passes the two
    except clauses: the try statement ends as its body does. *)
Lemma try_except_uncaught module text (body : M unit) w x :
  (body w).1 = Raised (ExcBaseException x) ->
  try_except body (except_clauses module text) w = body w.
Proof.
  intros Hraised. unfold try_except.
  destruct (body w) as [r w1]. simpl in Hraised. by subst r.
Qed.

(** ** The thread of a module *)

Lemma Event_wait_set dependency w :
  _threading_event_per_module (state w) !! dependency = Some true ->
  Event_wait dependency w = (Ok tt, w).
Proof. intros H. unfold Event_wait, mbind, M_bind, get_state, getitem. by rewrite H. Qed.

Lemma Event_wait_returns dependency w r w' :
  Event_wait dependency w = (r, w') ->
  w' = w /\
  (r = Ok tt -> _threading_event_per_module (state w) !! dependency = Some true).
Proof.
  unfold Event_wait, mbind, M_bind, get_state, getitem.
  destruct (_ !! dependency) as [[]|]; simpl; intros [= <- <-]; done.
Qed.

Lemma wait_all_set wants w :
  all_set wants (state w) -> for_each wants Event_wait w = (Ok tt, w).
Proof.
  induction 1 as [|d ds Hd _ IH]; [done|].
  simpl. by rewrite (bind_ok _ _ _ _ _ (Event_wait_set d w Hd)).
Qed.

Lemma completing_spec md w :
  is_Some (_threading_event_per_module (state w) !! runtime_name_of md) ->
  completing md w = (Ok tt, signalled (runtime_name_of md) w).
Proof.
  intros [b Hb]. unfold completing, Event_set, mbind, M_bind, get_state, getitem.
  by rewrite Hb.
Qed.

Lemma enter_running_spec md module w :
  _module_pool (state w) !! runtime_name_of md = Some module ->
  enter_running md w
  = if _abort_execution (state w)
    then (Ok None,
          logged CRITICAL ("Aborting execution of " +:+ module_name module
                           +:+ " due to previous errors") w)
    else (Ok (Some module),
          logged INFO ("Running module: " +:+ runtime_name_of md) w).
Proof.
  intros Hm. unfold enter_running, mbind, M_bind, get_state, getitem.
  rewrite Hm. by destruct (_abort_execution (state w)).
Qed.

(** [_RunModuleThread] after its loop is the sequence of the three steps of
    the thread. *)
Lemma run_after_wait_steps md w :
  run_after_wait md w
  = (enter_running md ≫= fun entered =>
       match entered with
       | Some module => processing md module ;; completing md
       | None => completing md
       end) w.
Proof.
  unfold run_after_wait, enter_running, processing, completing,
    mbind, M_bind, get_state, getitem.
  destruct (_module_pool (state w) !! runtime_name_of md) as [module|]; [|done].
  destruct (_abort_execution (state w)); simpl; [done|].
  destruct (run_module module (runtime_name_of md) _) as [[[]|e|] w1]; done.
Qed.

Lemma processing_events md module w :
  _threading_event_per_module (state (processing md module w).2)
  = _threading_event_per_module (state w).
Proof.
  apply (respects_processing (keeps _threading_event_per_module));
    auto using keeps_events_AddError, keeps_events_GetContainers; done.
Qed.

Lemma processing_returns md module w :
  within_Exception (process_module module (runtime_name_of md) w).1 ->
  (processing md module w).1 = Ok tt.
Proof.
  intros Hwithin. unfold processing.
  destruct (try_except_clauses module
              ("Critical error in module " +:+ module_name module
               +:+ ", aborting execution")
              (process_module module (runtime_name_of md)) w
              (never_blocks_process_module _ _) Hwithin) as [lines Hrun].
  fold (run_module module (runtime_name_of md)) in Hrun.
  by rewrite (bind_ok _ _ _ _ _ Hrun).
Qed.

Lemma processing_uncaught md module w x :
  (process_module module (runtime_name_of md) w).1 = Raised (ExcBaseException x) ->
  processing md module w = process_module module (runtime_name_of md) w.
Proof.
  intros Hraised. unfold processing, run_module.
  pose proof (try_except_uncaught module
                ("Critical error in module " +:+ module_name module
                 +:+ ", aborting execution")
                (process_module module (runtime_name_of md)) w x Hraised) as Htry.
  destruct (process_module module (runtime_name_of md) w) as [r w1] eqn:E.
  simpl in Hraised. subst r. by rewrite (bind_raised _ _ _ _ _ Htry).
Qed.

Lemma completing_missing md w :
  _threading_event_per_module (state w) !! runtime_name_of md = None ->
  completing md w = (Raised (KeyError (runtime_name_of md)), w).
Proof.
  intros Hnone. unfold completing, Event_set, mbind, M_bind, get_state, getitem.
  by rewrite Hnone.
Qed.

(** [_RunModuleThread] when the dependencies are set and the module is in
    the pool: the thread is the end of its steps, on its own. *)
Lemma RunModuleThread_steps md module w :
  all_set (md_wants md) (state w) ->
  _module_pool (state w) !! runtime_name_of md = Some module ->
  _RunModuleThread md w
  = if _abort_execution (state w)
    then completing md
           (logged CRITICAL ("Aborting execution of " +:+ module_name module
                             +:+ " due to previous errors") w)
    else (processing md module ;; completing md)
           (logged INFO ("Running module: " +:+ runtime_name_of md) w).
Proof.
  intros Hset Hpool. unfold _RunModuleThread.
  rewrite (bind_ok _ _ _ _ _ (wait_all_set _ _ Hset)), run_after_wait_steps.
  pose proof (enter_running_spec md module w Hpool) as Henter.
  destruct (_abort_execution (state w)); by rewrite (bind_ok _ _ _ _ _ Henter).
Qed.

(** [_RunModuleThread] when the dependencies are set, the module is in the
    pool and has its event, and the code of the module, if it runs, raises
    nothing that the except clauses miss: the thread returns, in the world
    that [set()] and [CleanUp()] leave. *)
Lemma RunModuleThread_returns md module w :
  all_set (md_wants md) (state w) ->
  _module_pool (state w) !! runtime_name_of md = Some module ->
  is_Some (_threading_event_per_module (state w) !! runtime_name_of md) ->
  (_abort_execution (state w) = false ->
   within_Exception
     (process_module module (runtime_name_of md)
        (logged INFO ("Running module: " +:+ runtime_name_of md) w)).1) ->
  _RunModuleThread md w
  = (Ok tt,
     signalled (runtime_name_of md)
       (if _abort_execution (state w)
        then logged CRITICAL ("Aborting execution of " +:+ module_name module
                              +:+ " due to previous errors") w
        else (processing md module
                (logged INFO ("Running module: " +:+ runtime_name_of md) w)).2)).
Proof.
  intros Hset Hpool Hev Hwithin.
  rewrite (RunModuleThread_steps md module w Hset Hpool).
  destruct (_abort_execution (state w)).
  - by apply completing_spec.
  - set (w0 := logged INFO _ w) in *.
    pose proof (processing_returns md module w0 (Hwithin eq_refl)) as Hok.
    pose proof (processing_events md module w0) as Hevs.
    destruct (processing md module w0) as [r w1] eqn:E. simpl in *. subst r.
    rewrite (bind_ok _ _ _ _ _ E). apply completing_spec. by rewrite Hevs.
Qed.

(** When the code of the module raises an exception that does not derive
    from [Exception], the thread ends where the code of the module has
    ended. *)
Lemma RunModuleThread_uncaught md module w x :
  all_set (md_wants md) (state w) ->
  _module_pool (state w) !! runtime_name_of md = Some module ->
  _abort_execution (state w) = false ->
  (process_module module (runtime_name_of md)
     (logged INFO ("Running module: " +:+ runtime_name_of md) w)).1
  = Raised (ExcBaseException x) ->
  _RunModuleThread md w
  = process_module module (runtime_name_of md)
      (logged INFO ("Running module: " +:+ runtime_name_of md) w).
Proof.
  intros Hset Hpool Habort Hraised.
  rewrite (RunModuleThread_steps md module w Hset Hpool), Habort.
  set (w0 := logged INFO _ w) in *.
  pose proof (processing_uncaught md module w0 x Hraised) as Hrun.
  destruct (process_module module (runtime_name_of md) w0) as [r w1] eqn:E.
  simpl in Hraised. subst r. by rewrite (bind_raised _ _ _ _ _ Hrun).
Qed.

Lemma processing_state md module w :
  let body := process_module module (runtime_name_of md) w in
  within_Exception body.1 ->
  state (processing md module w).2
  = record (recorded_by_driver module body.1) (state body.2) /\
  calls (processing md module w).2 = calls body.2.
Proof.
  intros body Hwithin. unfold processing.
  destruct (try_except_clauses module
              ("Critical error in module " +:+ module_name module
               +:+ ", aborting execution")
              (process_module module (runtime_name_of md)) w
              (never_blocks_process_module _ _) Hwithin) as [lines Hrun].
  fold (run_module module (runtime_name_of md)) in Hrun.
  by rewrite (bind_ok _ _ _ _ _ Hrun).
Qed.

(** C2 (as amended). Abort short-circuit, for a thread of [_RunModuleThread]
    whose wait is over and whose module is in the pool.  When it finds the
    abort flag set it calls no entry point of its module; if its own event
    exists, the only call it adds to the trace is the setting of that event,
    it returns, and the state is the one it found with the event set and
    the errors moved by [CleanUp()].  When the flag is not set and the code
    of the module returns, raises a [DFTimewolfError] or raises another
    exception that derives from [Exception], the thread returns as well, in
    a world that [set()] and [CleanUp()] have left last.  When the code of
    the module raises an exception that does not derive from [Exception],
    the thread ends with it where the code has ended: no [set()], no
    [CleanUp()].  When the thread's own event does not exist, [set()]
    raises [KeyError] and [CleanUp()] is not reached.  Among the other
    threads it is the same, step by step. *)
Theorem abort_short_circuit (md : ModuleDefinition) (module : BaseModule) (w : World) :
  all_set (md_wants md) (state w) ->
  _module_pool (state w) !! runtime_name_of md = Some module ->
  let runtime_name := runtime_name_of md in
  let run := _RunModuleThread md w in
  let body :=
    process_module module runtime_name
      (logged INFO ("Running module: " +:+ runtime_name) w) in
  let signal := _threading_event_per_module (state w) !! runtime_name in
  (_abort_execution (state w) = true -> is_Some signal ->
   run.1 = Ok tt /\
   calls run.2 = calls w ++ [EventSet runtime_name] /\
   state run.2
   = CleanUp (set_events
                (<[runtime_name := true]> (_threading_event_per_module (state w)))
                (state w))) /\
  (_abort_execution (state w) = false -> within_Exception body.1 -> is_Some signal ->
   run.1 = Ok tt /\
   (exists before, run.2 = signalled runtime_name before) /\
   _threading_event_per_module (state run.2) !! runtime_name = Some true /\
   errors (state run.2) = []) /\
  (forall x,
     _abort_execution (state w) = false -> body.1 = Raised (ExcBaseException x) ->
     run = body) /\
  (signal = None -> within_Exception body.1 ->
   run.1 = Raised (KeyError runtime_name) /\
   _threading_event_per_module (state run.2) !! runtime_name = None /\
   (_abort_execution (state w) = true -> state run.2 = state w) /\
   (_abort_execution (state w) = false ->
    state run.2 = record (recorded_by_driver module body.1) (state body.2))) /\
  (forall w1,
     _module_pool (state w1) !! runtime_name = Some module ->
     _abort_execution (state w1) = true ->
     exists w2, task_step md (Waiting []) w1 = Some (Completing, w2) /\
                state w2 = state w1 /\ calls w2 = calls w1) /\
  (forall w1,
     within_Exception (process_module module runtime_name w1).1 ->
     exists w2, task_step md (Processing module) w1 = Some (Completing, w2)) /\
  (forall w1 x,
     (process_module module runtime_name w1).1 = Raised (ExcBaseException x) ->
     task_step md (Processing module) w1
     = Some (Crashed (ExcBaseException x), (process_module module runtime_name w1).2)) /\
  (forall w1,
     is_Some (_threading_event_per_module (state w1) !! runtime_name) ->
     task_step md Completing w1
     = Some (CleaningUp,
             {| state := set_events
                           (<[runtime_name := true]>
                              (_threading_event_per_module (state w1))) (state w1);
                log := log w1;
                calls := calls w1 ++ [EventSet runtime_name] |})) /\
  (forall w1,
     task_step md CleaningUp w1
     = Some (Clearing,
             {| state := CleanUp_extend (state w1); log := log w1; calls := calls w1 |}) /\
     task_step md Clearing w1
     = Some (Finished,
             {| state := CleanUp_clear (state w1); log := log w1; calls := calls w1 |})).
Proof.
  intros Hset Hpool runtime_name run body signal.
  subst runtime_name run body signal.
  repeat apply conj.
  - intros Habort Hev.
    rewrite (RunModuleThread_returns md module w Hset Hpool Hev), Habort;
      [done | congruence].
  - intros Habort Hwithin Hev.
    rewrite (RunModuleThread_returns md module w Hset Hpool Hev (fun _ => Hwithin)).
    simpl. split; [done|]. split; [by eexists|]. split; [apply lookup_insert_eq | done].
  - intros x Habort Hraised. by eapply RunModuleThread_uncaught.
  - intros Hnone Hwithin.
    rewrite (RunModuleThread_steps md module w Hset Hpool).
    destruct (_abort_execution (state w)) eqn:Habort.
    + rewrite completing_missing by done. simpl. done.
    + set (w0 := logged INFO _ w) in *.
      pose proof (processing_returns md module w0 Hwithin) as Hok.
      pose proof (processing_events md module w0) as Hevs.
      destruct (processing_state md module w0 Hwithin) as [Hstate _].
      destruct (processing md module w0) as [r w1] eqn:E. simpl in *. subst r.
      rewrite (bind_ok _ _ _ _ _ E), completing_missing by (by rewrite Hevs).
      simpl. rewrite Hevs. done.
  - intros w1 Hpool1 Habort1.
    simpl. rewrite (enter_running_spec md module w1 Hpool1), Habort1. by eexists.
  - intros w1 Hwithin. simpl.
    pose proof (processing_returns md module w1 Hwithin) as Hok.
    destruct (processing md module w1) as [r w2]. simpl in Hok. subst r. by eexists.
  - intros w1 x Hraised. simpl.
    rewrite (processing_uncaught md module w1 x Hraised).
    destruct (process_module module (runtime_name_of md) w1) as [r w2].
    simpl in Hraised. by subst r.
  - intros w1 [b Hb]. simpl.
    unfold Event_set, mbind, M_bind, get_state, getitem. by rewrite Hb.
  - intros w1. done.
Qed.

Lemma abort_short_circuit_witness :
  let md := ex_md_B in
  let module := ex_module_B in
  let w := ex_world_after_A in
  _abort_execution (state w) = true /\
  (_RunModuleThread md w).1 = Ok tt /\
  calls (_RunModuleThread md w).2 = calls w ++ [EventSet "B"] /\
  state (_RunModuleThread md w).2
  = CleanUp (set_events (<["B" := true]> (_threading_event_per_module (state w)))
               (state w)).
Proof.
  cbv zeta. split; [reflexivity|].
  pose proof (abort_short_circuit ex_md_B ex_module_B ex_world_after_A) as H.
  cbv zeta in H.
  apply (proj1 (H ltac:(repeat constructor) eq_refl) eq_refl).
  by exists false.
Defined.

(** C2, as it was stated, fails: the code of a module records an error and
    then ends with [SystemExit].  Its thread ends with that exception; its
    event is not set, [CleanUp()] has not run, and the error is still in the
    round's list. *)
Lemma uncaught_exception_skips_cleanup :
  let w := ex_world_of ex_module_exiting in
  let run := _RunModuleThread ex_md_A w in
  run.1 = Raised (ExcBaseException ex_system_exit) /\
  calls run.2 = [CallProcess "A"] /\
  _threading_event_per_module (state run.2) !! "A" = Some false /\
  errors (state run.2) = [ex_minor] /\
  global_errors (state run.2) = [].
Proof. repeat split. Qed.

(** ** What the drivers record *)

Lemma getitem_ok {V} (d : gmap string V) key v w :
  d !! key = Some v -> getitem d key w = (Ok v, w).
Proof. intros H. unfold getitem. by rewrite H. Qed.

Lemma ledger_after_record events module outcome after :
  ledger_after
    (CleanUp (set_events events
                (record (recorded_by_driver module outcome) (state after))))
    module outcome after.
Proof.
  split; [done|].
  destruct outcome as [[]|[e|msg|x|x]|]; done.
Qed.

Lemma record_events error s :
  _threading_event_per_module (record error s) = _threading_event_per_module s.
Proof. destruct error as [e|]; [|done]. unfold record, AddError. by destruct (critical e). Qed.

(** The setup thread up to its try statement *)
Lemma SetupModuleThread_steps resolver md module w :
  _module_pool (state w) !! runtime_name_of md = Some module ->
  _SetupModuleThread resolver md w
  = (setup_module module (resolver (md_args md) (command_line_options (state w))) ;;
     modify_state (fun s =>
       set_events (<[runtime_name_of md := false]> (_threading_event_per_module s)) s) ;;
     CleanUpM)
      (logged INFO ("Setting up module: " +:+ runtime_name_of md) w).
Proof.
  intros Hpool. unfold _SetupModuleThread.
  rewrite (bind_ok _ _ _ _ _ (eq_refl : logger INFO _ w = (Ok tt, logged INFO _ w))).
  set (w0 := logged INFO _ w).
  rewrite (bind_ok _ _ _ _ _ (eq_refl : get_state w0 = (Ok (state w0), w0))).
  by rewrite (bind_ok _ _ _ _ _ (getitem_ok _ _ _ w0 Hpool)).
Qed.

Lemma SetupModuleThread_returns resolver md module w :
  _module_pool (state w) !! runtime_name_of md = Some module ->
  let body :=
    setup_calls module (resolver (md_args md) (command_line_options (state w)))
      (logged INFO ("Setting up module: " +:+ runtime_name_of md) w) in
  within_Exception body.1 ->
  exists final,
    _SetupModuleThread resolver md w = (Ok tt, final) /\
    calls final = calls body.2 /\
    state final
    = CleanUp (set_events
                 (<[runtime_name_of md := false]>
                    (_threading_event_per_module (state body.2)))
                 (record (recorded_by_driver module body.1) (state body.2))).
Proof.
  intros Hpool body Hwithin.
  rewrite (SetupModuleThread_steps resolver md module w Hpool).
  set (w0 := logged INFO _ w) in *.
  destruct (try_except_clauses module
              ("A critical error occurred in module " +:+ module_name module
               +:+ ", aborting execution.")
              (setup_calls module (resolver (md_args md) (command_line_options (state w))))
              w0 (never_blocks_setup_calls _ _) Hwithin) as [lines Htry].
  fold (setup_module module (resolver (md_args md) (command_line_options (state w))))
    in Htry.
  rewrite (bind_ok _ _ _ _ _ Htry). fold body.
  eexists. split; [reflexivity|]. simpl. split; [reflexivity|].
  by rewrite record_events.
Qed.

Lemma SetupModuleThread_uncaught resolver md module w x :
  _module_pool (state w) !! runtime_name_of md = Some module ->
  let body :=
    setup_calls module (resolver (md_args md) (command_line_options (state w)))
      (logged INFO ("Setting up module: " +:+ runtime_name_of md) w) in
  body.1 = Raised (ExcBaseException x) ->
  _SetupModuleThread resolver md w = body.
Proof.
  intros Hpool body Hraised.
  rewrite (SetupModuleThread_steps resolver md module w Hpool).
  set (w0 := logged INFO _ w) in *.
  pose proof (try_except_uncaught module
                ("A critical error occurred in module " +:+ module_name module
                 +:+ ", aborting execution.")
                (setup_calls module (resolver (md_args md) (command_line_options (state w))))
                w0 x Hraised) as Htry.
  fold (setup_module module (resolver (md_args md) (command_line_options (state w))))
    in Htry.
  subst body.
  destruct (setup_calls module _ w0) as [r w1] eqn:E.
  simpl in Hraised. subst r. by rewrite (bind_raised _ _ _ _ _ Htry).
Qed.

(** C9 (as amended). An exception of module code that derives from
    [Exception] and is not a [DFTimewolfError] is made by the driver, in the
    setup thread and in the run thread alike, into an error of origin
    [state] that is critical and unexpected and carries the stack trace, and
    recorded with [AddError] in the round's list, which sets the abort flag.
    The [CleanUp] of the setup thread, and that of the run thread when the
    thread's own event exists, then moves it to the global list with the
    errors that the module code itself had recorded; without its event the
    run thread ends in [set()], with the error recorded and not moved.  For
    a [DFTimewolfError] the driver records nothing: the lists hold what the
    module code had recorded through [AddError], no more.  An exception that
    does not derive from [Exception] is not caught: the thread ends with it
    in the state in which the module code has ended, with no error recorded
    for it. *)
Theorem driver_records_other_exceptions (resolver : Args -> Args -> Args)
    (md : ModuleDefinition) (module : BaseModule) (w : World) :
  _module_pool (state w) !! runtime_name_of md = Some module ->
  let set_up :=
    setup_calls module (resolver (md_args md) (command_line_options (state w)))
      (logged INFO ("Setting up module: " +:+ runtime_name_of md) w) in
  let processed :=
    process_module module (runtime_name_of md)
      (logged INFO ("Running module: " +:+ runtime_name_of md) w) in
  (within_Exception set_up.1 ->
   (_SetupModuleThread resolver md w).1 = Ok tt /\
   ledger_after (state (_SetupModuleThread resolver md w).2) module set_up.1 set_up.2) /\
  (forall x, set_up.1 = Raised (ExcBaseException x) ->
     _SetupModuleThread resolver md w = set_up) /\
  (all_set (md_wants md) (state w) ->
   _abort_execution (state w) = false ->
   (within_Exception processed.1 ->
    is_Some (_threading_event_per_module (state w) !! runtime_name_of md) ->
    (_RunModuleThread md w).1 = Ok tt /\
    ledger_after (state (_RunModuleThread md w).2) module processed.1 processed.2) /\
   (within_Exception processed.1 ->
    _threading_event_per_module (state w) !! runtime_name_of md = None ->
    (_RunModuleThread md w).1 = Raised (KeyError (runtime_name_of md)) /\
    state (_RunModuleThread md w).2
    = record (recorded_by_driver module processed.1) (state processed.2)) /\
   (forall x, processed.1 = Raised (ExcBaseException x) ->
      _RunModuleThread md w = processed)) /\
  (forall exception,
     recorded_by_driver module (Raised (ExcException exception))
     = Some (unknown_error module exception) /\
     recorded_by_driver module (Raised (ExcBaseException exception)) = None /\
     let error := unknown_error module exception in
     name error = "state" /\ critical error = true /\ unexpected error = true /\
     stacktrace error = Some (exc_traceback exception)).
Proof.
  intros Hpool set_up processed. split; [|split; [|split]].
  - intros Hwithin.
    destruct (SetupModuleThread_returns resolver md module w Hpool Hwithin)
      as (final & -> & _ & Hstate). simpl. split; [done|]. rewrite Hstate.
    apply ledger_after_record.
  - intros x Hraised. by eapply SetupModuleThread_uncaught.
  - intros Hset Habort. split; [|split].
    + intros Hwithin Hev.
      rewrite (RunModuleThread_returns md module w Hset Hpool Hev (fun _ => Hwithin)), Habort.
      split; [done|]. simpl.
      destruct (processing_state md module
                  (logged INFO ("Running module: " +:+ runtime_name_of md) w) Hwithin)
        as [Hstate _].
      rewrite Hstate. apply ledger_after_record.
    + intros Hwithin Hnone.
      rewrite (RunModuleThread_steps md module w Hset Hpool), Habort.
      set (w0 := logged INFO ("Running module: " +:+ runtime_name_of md) w) in *.
      pose proof (processing_returns md module w0 Hwithin) as Hok.
      pose proof (processing_events md module w0) as Hevs.
      destruct (processing_state md module w0 Hwithin) as [Hstate _].
      destruct (processing md module w0) as [r w1] eqn:E. simpl in *. subst r.
      by rewrite (bind_ok _ _ _ _ _ E), completing_missing by (by rewrite Hevs).
    + intros x Hraised. by eapply RunModuleThread_uncaught.
  - done.
Qed.

Lemma driver_records_other_exceptions_witness :
  let w := ex_world in
  let processed :=
    process_module ex_module_A (runtime_name_of ex_md_A)
      (logged INFO ("Running module: " +:+ runtime_name_of ex_md_A) w) in
  _module_pool (state w) !! runtime_name_of ex_md_A = Some ex_module_A /\
  processed.1 = Raised (ExcException ex_exception) /\
  (_RunModuleThread ex_md_A w).1 = Ok tt /\
  ledger_after (state (_RunModuleThread ex_md_A w).2) ex_module_A processed.1 processed.2.
Proof.
  cbv zeta. split; [reflexivity|]. split; [reflexivity|].
  pose proof (driver_records_other_exceptions ex_resolver ex_md_A ex_module_A ex_world
                eq_refl) as H.
  cbv zeta in H. destruct H as (_ & _ & H & _).
  apply (proj1 (H ltac:(constructor) eq_refl)); [by intros x | by exists false].
Defined.

(** C9, as it was stated, fails: a module raises a critical
    [DFTimewolfError] that it has not recorded; after its run thread, and
    after its setup thread, neither list holds an error and the abort flag is
    not set. *)
Lemma declared_error_not_recorded :
  let w := ex_world_of ex_module_raising in
  (process_module ex_module_raising "A" w).1 = Raised (ExcDFTimewolfError ex_critical) /\
  (_RunModuleThread ex_md_A w).1 = Ok tt /\
  errors (state (_RunModuleThread ex_md_A w).2) = [] /\
  global_errors (state (_RunModuleThread ex_md_A w).2) = [] /\
  _abort_execution (state (_RunModuleThread ex_md_A w).2) = false /\
  (_SetupModuleThread ex_resolver ex_md_A w).1 = Ok tt /\
  errors (state (_SetupModuleThread ex_resolver ex_md_A w).2) = [] /\
  global_errors (state (_SetupModuleThread ex_resolver ex_md_A w).2) = [] /\
  _abort_execution (state (_SetupModuleThread ex_resolver ex_md_A w).2) = false.
Proof. repeat split. Qed.

(** ** Fan-out *)

Lemma world_eta w : {| state := state w; log := log w; calls := calls w |} = w.
Proof. by destruct w. Qed.

Lemma with_state_GetContainers cls w :
  with_state (GetContainers cls false) w = (Ok (GetContainers cls false (state w)).1, w).
Proof. unfold with_state, GetContainers. simpl. by rewrite world_eta. Qed.

(** C4 (as amended). Fan-out: when [PreProcess] returns and the pool can be
    made (a positive number of workers), the thread-aware run submits one
    unit per container that the store holds for the class at that point; all
    of them run to their end whatever the others do, and [PostProcess] is
    called after the last.  When [PostProcess] returns, the exception of the
    first future that has one, in the order of submission, is raised as the
    module's and the store is left as it is; with no such exception the run
    returns, after the entries of the class are cleared unless the module
    keeps them.  When [PostProcess] raises, that is the outcome. *)
Theorem fan_out_completes (module : BaseModule) (ta : ThreadAwareModule)
    (runtime_name : string) (w before : World) :
  kind module = ThreadAware ta ->
  (0 < GetThreadPoolSize ta)%Z ->
  run_logic (PreProcess ta) (record_call (CallPreProcess (module_name module)) w).2
  = (Ok tt, before) ->
  let cls := GetThreadOnContainerType ta in
  let containers := (GetContainers cls false (state before)).1 in
  exists submitting futures drained,
    state submitting = state before /\
    calls submitting = calls w ++ [CallPreProcess (module_name module)] /\
    run_executor module ta containers submitting = (Ok futures, drained) /\
    length futures = length containers /\
    calls drained
    = calls w ++ [CallPreProcess (module_name module)]
      ++ (CallProcessContainer (module_name module) <$> containers) /\
    let post :=
      run_logic (PostProcess ta)
        (record_call (CallPostProcess (module_name module)) drained).2 in
    calls post.2 = calls drained ++ [CallPostProcess (module_name module)] /\
    process_module module runtime_name w
    = match post.1 with
      | Ok _ =>
          match first_exception futures with
          | Some e => (Raised e, post.2)
          | None =>
              (Ok tt,
               if KeepThreadedContainersInState ta then post.2 else cleared cls post.2)
          end
      | _ => post
      end.
Proof.
  intros Hkind Hsize Hpre cls containers.
  pose proof (run_logic_calls (PreProcess ta)
                (record_call (CallPreProcess (module_name module)) w).2) as Hcalls0.
  rewrite Hpre in Hcalls0. simpl in Hcalls0.
  set (submitting := logged INFO
         ("Running " +:+ pretty (length containers) +:+ " threads, max "
          +:+ pretty (GetThreadPoolSize ta)
          +:+ " simultaneous for module " +:+ runtime_name) before).
  destruct (run_executor_returns module ta containers submitting)
    as (futures & drained & Hrun & Hlen & Hcalls).
  exists submitting, futures, drained.
  split; [done|]. split; [exact Hcalls0|]. split; [exact Hrun|]. split; [exact Hlen|].
  assert (Hdrained : calls drained
                     = calls w ++ [CallPreProcess (module_name module)]
                       ++ (CallProcessContainer (module_name module) <$> containers)).
  { rewrite Hcalls. simpl. rewrite Hcalls0. by rewrite <- app_assoc. }
  split; [exact Hdrained|]. intros post.
  split; [apply (run_logic_calls (PostProcess ta))|].
  unfold process_module. rewrite Hkind.
  rewrite (bind_ok _ _ _ _ _ (eq_refl : record_call _ w = (Ok tt, _))).
  rewrite (bind_ok _ _ _ _ _ Hpre).
  rewrite (bind_ok _ _ _ _ _ (with_state_GetContainers _ before)).
  rewrite (bind_ok _ _ _ _ _ (eq_refl : logger INFO _ before = (Ok tt, submitting))).
  rewrite bool_decide_eq_false_2 by lia.
  rewrite (bind_ok _ _ _ _ _ (eq_refl : pass submitting = (Ok tt, submitting))).
  rewrite (bind_ok _ _ _ _ _ (with_state_GetContainers _ submitting)).
  change (GetContainers (GetThreadOnContainerType ta) false (state submitting)).1
    with containers.
  rewrite (bind_ok _ _ _ _ _ Hrun).
  rewrite (bind_ok _ _ _ _ _ (eq_refl : record_call _ drained = (Ok tt, _))).
  fold post. destruct post as [[[]|e|] w3] eqn:Epost; simpl.
  - rewrite (bind_ok _ _ _ _ _ Epost).
    pose proof (raise_first_spec futures w3) as Hfirst.
    destruct (first_exception futures) as [e|].
    + by rewrite (bind_raised _ _ _ _ _ Hfirst).
    + rewrite (bind_ok _ _ _ _ _ Hfirst).
      destruct (KeepThreadedContainersInState ta); [done|].
      unfold cleared, with_state, mbind, M_bind. simpl. done.
  - by rewrite (bind_raised _ _ _ _ _ Epost).
  - by rewrite (bind_blocked _ _ _ _ Epost).
Qed.

Lemma fan_out_completes_witness :
  let w := ex_world_fan_out in
  let before := (record_call (CallPreProcess "A") w).2 in
  let containers := (GetContainers ex_class false (state before)).1 in
  exists submitting futures drained,
    state submitting = state before /\
    calls submitting = calls w ++ [CallPreProcess "A"] /\
    run_executor ex_module_fan_out ex_fan_out containers submitting
    = (Ok futures, drained) /\
    length futures = length containers /\
    calls drained
    = calls w ++ [CallPreProcess "A"] ++ (CallProcessContainer "A" <$> containers) /\
    let post :=
      run_logic (PostProcess ex_fan_out) (record_call (CallPostProcess "A") drained).2 in
    calls post.2 = calls drained ++ [CallPostProcess "A"] /\
    process_module ex_module_fan_out "A" w
    = match post.1 with
      | Ok _ =>
          match first_exception futures with
          | Some e => (Raised e, post.2)
          | None =>
              (Ok tt,
               if KeepThreadedContainersInState ex_fan_out then post.2
               else cleared ex_class post.2)
          end
      | _ => post
      end.
Proof.
  apply (fan_out_completes ex_module_fan_out ex_fan_out "A" ex_world_fan_out
           (record_call (CallPreProcess "A") ex_world_fan_out).2).
  - reflexivity.
  - reflexivity.
  - vm_compute. reflexivity.
Defined.

(** C4, as it was stated, fails: a module that does not keep its containers
    fans out over five of them with two workers and the third unit fails;
    all five units run and [PostProcess] is called, the failure is then the
    module's, and the five containers are still in the store. *)
Lemma fan_out_failure_keeps_containers :
  let final := (_RunModuleThread ex_md_A ex_world_fan_out).2 in
  KeepThreadedContainersInState ex_fan_out = false /\
  (process_module ex_module_fan_out "A" ex_world_fan_out).1
  = Raised (ExcException ex_exception) /\
  calls final
  = [CallPreProcess "A"] ++ (CallProcessContainer "A" <$> ex_units)
    ++ [CallPostProcess "A"; EventSet "A"] /\
  store (state final) !! CONTAINER_TYPE ex_class = Some ex_units /\
  store (state final) !! CONTAINER_TYPE ex_class <> Some [].
Proof.
  assert (Hstore : store (state (_RunModuleThread ex_md_A ex_world_fan_out).2)
                     !! CONTAINER_TYPE ex_class = Some ex_units)
    by (vm_compute; reflexivity).
  cbv zeta. rewrite Hstore.
  repeat apply conj; try (vm_compute; reflexivity). discriminate.
Qed.

(** ** Preflights *)

(** C8, on an input on which the code departs from it: the first of two
    preflights records a critical error and returns.  The check that follows
    reads the global list, which [RunPreflights] never fills: it does not
    raise, the second preflight is set up and run, and [RunPreflights]
    returns with the critical error in the round's list, where a check of
    that list would raise.  When the first preflight raises the error it has
    recorded, the check does not raise either, and what leaves
    [RunPreflights] is the module's error, not the critical error of the
    check. *)
Lemma RunPreflights_misses_recorded_error :
  let run := RunPreflights ex_resolver (ex_world_preflights ex_preflight_1) in
  let raising :=
    RunPreflights ex_resolver (ex_world_preflights ex_preflight_1_raising) in
  run.1 = Ok tt /\
  calls run.2
  = [CallSetUp "P1" []; CallProcess "P1"; CallSetUp "P2" []; CallProcess "P2"] /\
  errors (state run.2) = [ex_critical] /\
  global_errors (state run.2) = [] /\
  log run.2 = [] /\
  (CheckErrors true run.2).1 = Ok tt /\
  (CheckErrors false run.2).1 = Raised CriticalError /\
  raising.1 = Raised (ExcDFTimewolfError ex_critical) /\
  calls raising.2 = [CallSetUp "P1" []; CallProcess "P1"] /\
  log raising.2 = [].
Proof. cbv zeta. repeat apply conj; vm_compute; reflexivity. Qed.

(** ** The interleaved run of the threads *)

Lemma all_set_mono names s s' :
  events_stay_set s s' -> all_set names s -> all_set names s'.
Proof.
  intros Hmono Hset. eapply Forall_impl; [exact Hset|]. intros n. apply Hmono.
Qed.

Lemma task_inv_mono md pc s s' :
  events_stay_set s s' -> task_inv md pc s -> task_inv md pc s'.
Proof.
  intros Hmono. destruct pc; simpl; try apply (all_set_mono _ _ _ Hmono); [|done].
  intros (passed & Hwants & Hset). exists passed. eauto using all_set_mono.
Qed.

Lemma task_inv_past_wait md pc s :
  past_wait pc = true -> task_inv md pc s -> all_set (md_wants md) s.
Proof. by destruct pc. Qed.

Lemma after_inv {A} (next : A -> Pc) (r : Result A * World) pc' w' :
  after next r = Some (pc', w') ->
  w' = r.2 /\ ((exists a, r.1 = Ok a /\ pc' = next a) \/ (exists e, pc' = Crashed e)).
Proof.
  destruct r as [[a|e|] w]; simpl; intros [= <- <-]; eauto.
Qed.

(** A step of a thread keeps what holds of it. *)
Lemma task_step_inv md pc w pc' w' :
  task_step md pc w = Some (pc', w') ->
  task_inv md pc (state w) -> task_inv md pc' (state w').
Proof.
  intros Hstep Hinv.
  pose proof (task_step_events_stay_set _ _ _ _ _ Hstep) as Hmono.
  destruct pc as [[|d rest]|module| | | | |]; simpl in Hstep; try discriminate.
  - destruct Hinv as (passed & Hwants & Hset). rewrite app_nil_r in Hwants. subst passed.
    apply after_inv in Hstep as [_ [(entered & _ & ->)|[e ->]]]; [|done].
    destruct entered; simpl; by apply (all_set_mono _ _ _ Hmono).
  - destruct Hinv as (passed & Hwants & Hset).
    destruct (Event_wait d w) as [r w1] eqn:Ewait.
    apply Event_wait_returns in Ewait as [-> Hd].
    apply after_inv in Hstep as [-> [([] & Hr & ->)|[e ->]]]; [|done].
    simpl in *. exists (passed ++ [d]). split.
    + by rewrite <- app_assoc.
    + apply Forall_app. split; [exact Hset|]. apply Forall_singleton. by apply Hd.
  - apply after_inv in Hstep as [_ [(a & _ & ->)|[e ->]]]; [|done].
    by apply (all_set_mono _ _ _ Hmono).
  - apply after_inv in Hstep as [_ [(a & _ & ->)|[e ->]]]; [|done].
    by apply (all_set_mono _ _ _ Hmono).
  - injection Hstep as <- <-. by apply (all_set_mono _ _ _ Hmono).
  - injection Hstep as <- <-. by apply (all_set_mono _ _ _ Hmono).
Qed.

Definition config_inv (mds : list ModuleDefinition) (cfg : Config) : Prop :=
  forall i md pc,
    mds !! i = Some md -> tasks cfg !! i = Some pc ->
    task_inv md pc (state (world cfg)).

Lemma start_inv mds w : config_inv mds (start mds w).
Proof.
  intros i md pc Hmd Hpc. unfold start in Hpc. simpl in Hpc.
  rewrite list_lookup_fmap, Hmd in Hpc. injection Hpc as <-.
  exists []. split; [done | constructor].
Qed.

Lemma step_inv mds cfg cfg' :
  step mds cfg cfg' -> config_inv mds cfg -> config_inv mds cfg'.
Proof.
  intros [i md pc pc' w' cfg0 Hmd Hpc Hstep] Hinv j mdj pcj Hmdj Hpcj. simpl in *.
  destruct (decide (i = j)) as [->|Hne].
  - rewrite list_lookup_insert_eq in Hpcj by (by eapply lookup_lt_Some).
    injection Hpcj as <-. rewrite Hmd in Hmdj. injection Hmdj as <-.
    eapply task_step_inv; [exact Hstep | by eapply Hinv].
  - rewrite list_lookup_insert_ne in Hpcj by done.
    eapply task_inv_mono; [exact (task_step_events_stay_set _ _ _ _ _ Hstep)|].
    by eapply Hinv.
Qed.

Lemma reachable_inv mds w cfg : reachable mds w cfg -> config_inv mds cfg.
Proof.
  unfold reachable. intros Hreach.
  assert (Hgen : forall c c', rtc (step mds) c c' -> config_inv mds c -> config_inv mds c').
  { induction 1 as [|c1 c2 c3 H12 _ IH]; [done|].
    intros Hinv. apply IH. by eapply step_inv. }
  eapply Hgen; [exact Hreach | apply start_inv].
Qed.

Lemma run_schedule_steps mds schedule : forall cfg,
  rtc (step mds) cfg (run_schedule mds schedule cfg).
Proof.
  induction schedule as [|i rest IH]; intros cfg; simpl; [done|].
  destruct (mds !! i) as [md|] eqn:Hmd; [|apply IH].
  destruct (tasks cfg !! i) as [pc|] eqn:Hpc; [|apply IH].
  destruct (task_step md pc (world cfg)) as [[pc' w']|] eqn:Hstep; [|apply IH].
  eapply rtc_l; [|apply IH]. by eapply step_task.
Qed.

(** The steps that call nothing of a module *)
Lemma Event_wait_calls d w : calls (Event_wait d w).2 = calls w.
Proof.
  destruct (Event_wait d w) as [r w1] eqn:E.
  by apply Event_wait_returns in E as [-> _].
Qed.

Lemma enter_running_calls md w : calls (enter_running md w).2 = calls w.
Proof.
  unfold enter_running, mbind, M_bind, get_state, getitem.
  destruct (_module_pool (state w) !! runtime_name_of md); [|done].
  by destruct (_abort_execution (state w)).
Qed.

Lemma Event_set_calls runtime_name w :
  calls (Event_set runtime_name w).2 = calls w \/
  calls (Event_set runtime_name w).2 = calls w ++ [EventSet runtime_name].
Proof.
  unfold Event_set, mbind, M_bind, get_state, getitem.
  destruct (_ !! runtime_name); simpl; auto.
Qed.

Lemma task_step_entry_point md pc w pc' w' new c :
  task_step md pc w = Some (pc', w') ->
  calls w' = calls w ++ new -> c ∈ new -> is_entry_point c = true ->
  exists module, pc = Processing module.
Proof.
  intros Hstep Hcalls Hc Hentry.
  assert (Hnone : calls w' = calls w -> False).
  { intros Heq. rewrite Heq in Hcalls.
    rewrite <- (app_nil_r (calls w)) in Hcalls at 1.
    apply app_inv_head in Hcalls. subst new. by apply elem_of_nil in Hc. }
  destruct pc as [[|d rest]|module| | | | |]; simpl in Hstep; try discriminate.
  - apply after_inv in Hstep as [-> _]. destruct Hnone. apply enter_running_calls.
  - apply after_inv in Hstep as [-> _]. destruct Hnone. apply Event_wait_calls.
  - by exists module.
  - apply after_inv in Hstep as [-> _].
    destruct (Event_set_calls (runtime_name_of md) w) as [Heq|Heq];
      [by destruct Hnone|].
    rewrite Heq in Hcalls. apply app_inv_head in Hcalls. subst new.
    apply list_elem_of_singleton in Hc. by subst c.
  - injection Hstep as <- <-. by destruct Hnone.
  - injection Hstep as <- <-. by destruct Hnone.
Qed.

(** C1. Dependency ordering: in every configuration that the threads of
    [RunModules] reach from a world, under any interleaving of their steps,
    a thread that is past its wait has every event of its [wants] set; and a
    step of a thread that calls an entry point of its module ([PreProcess],
    [Process] on a container, [PostProcess], [Process]) is taken when every
    event of its [wants] is set. *)
Theorem dependency_ordering (module_definitions : list ModuleDefinition)
    (w : World) (cfg : Config) (i : nat) (md : ModuleDefinition) (pc : Pc) :
  reachable module_definitions w cfg ->
  module_definitions !! i = Some md ->
  tasks cfg !! i = Some pc ->
  (past_wait pc = true -> all_set (md_wants md) (state (world cfg))) /\
  (forall pc' w' new c,
     task_step md pc (world cfg) = Some (pc', w') ->
     calls w' = calls (world cfg) ++ new ->
     c ∈ new -> is_entry_point c = true ->
     all_set (md_wants md) (state (world cfg))).
Proof.
  intros Hreach Hmd Hpc.
  pose proof (reachable_inv _ _ _ Hreach i md pc Hmd Hpc) as Hinv.
  split.
  - intros Hpast. by eapply task_inv_past_wait.
  - intros pc' w' new c Hstep Hcalls Hc Hentry.
    destruct (task_step_entry_point _ _ _ _ _ _ _ Hstep Hcalls Hc Hentry)
      as [module ->].
    exact Hinv.
Qed.

Lemma dependency_ordering_witness :
  (past_wait (Processing ex_module_B) = true ->
   all_set (md_wants ex_md_B) (state (world ex_cfg))) /\
  (forall pc' w' new c,
     task_step ex_md_B (Processing ex_module_B) (world ex_cfg) = Some (pc', w') ->
     calls w' = calls (world ex_cfg) ++ new ->
     c ∈ new -> is_entry_point c = true ->
     all_set (md_wants ex_md_B) (state (world ex_cfg))).
Proof.
  apply (dependency_ordering [ex_md_A; ex_md_B] ex_world_ok ex_cfg 1 ex_md_B
           (Processing ex_module_B)).
  - apply run_schedule_steps.
  - reflexivity.
  - vm_compute. reflexivity.
Defined.

(** [RunPreflights] leaves the global list as it found it: the errors that
    the preflights record stay in the round's list, which the check after
    each preflight does not read. *)
Lemma RunPreflights_global_errors resolver w :
  global_errors (state (RunPreflights resolver w).2) = global_errors (state w).
Proof.
  apply (respects_RunPreflights (keeps global_errors)); try done.
  - intros e s. unfold keeps, AddError. by destruct (critical e).
  - intros cls pop s. unfold keeps. by destruct pop.
Qed.

(** ** A thread alone takes the steps of [_RunModuleThread] *)

Lemma run_task_waiting md rest : forall w n,
  all_set rest (state w) ->
  run_task (length rest + n) md (Waiting rest) w = run_task n md (Waiting []) w.
Proof.
  induction rest as [|d rest IH]; intros w n Hset; [done|].
  apply Forall_cons in Hset as [Hd Hrest]. simpl.
  rewrite (Event_wait_set d w Hd). simpl. by apply IH.
Qed.

Lemma run_task_completing md w n :
  is_Some (_threading_event_per_module (state w) !! runtime_name_of md) ->
  run_task (S (S (S n))) md Completing w
  = (Finished, signalled (runtime_name_of md) w).
Proof.
  intros [b Hb]. simpl.
  unfold Event_set, mbind, M_bind, get_state, getitem. rewrite Hb. simpl.
  by destruct n.
Qed.

Lemma run_task_step n md pc w pc' w' :
  task_step md pc w = Some (pc', w') -> run_task (S n) md pc w = run_task n md pc' w'.
Proof. intros H. simpl. by rewrite H. Qed.

Lemma run_task_alone md module w :
  all_set (md_wants md) (state w) ->
  _module_pool (state w) !! runtime_name_of md = Some module ->
  is_Some (_threading_event_per_module (state w) !! runtime_name_of md) ->
  (_abort_execution (state w) = false ->
   within_Exception
     (process_module module (runtime_name_of md)
        (logged INFO ("Running module: " +:+ runtime_name_of md) w)).1) ->
  run_task (length (md_wants md) + 5) md (Waiting (md_wants md)) w
  = (Finished, (_RunModuleThread md w).2).
Proof.
  intros Hset Hpool Hev Hwithin.
  rewrite (run_task_waiting md _ w 5 Hset),
    (RunModuleThread_returns md module w Hset Hpool Hev Hwithin).
  pose proof (enter_running_spec md module w Hpool) as Henter.
  destruct (_abort_execution (state w)).
  - rewrite (run_task_step 4 md (Waiting []) w Completing
               (logged CRITICAL ("Aborting execution of " +:+ module_name module
                                 +:+ " due to previous errors") w))
      by (simpl; by rewrite Henter).
    by rewrite (run_task_completing md _ 1).
  - set (w0 := logged INFO ("Running module: " +:+ runtime_name_of md) w) in *.
    rewrite (run_task_step 4 md (Waiting []) w (Processing module) w0)
      by (simpl; by rewrite Henter).
    pose proof (processing_returns md module w0 (Hwithin eq_refl)) as Hok.
    pose proof (processing_events md module w0) as Hevs.
    rewrite (run_task_step 3 md (Processing module) w0 Completing
               (processing md module w0).2).
    + by rewrite (run_task_completing md _ 0) by (by rewrite Hevs).
    + simpl. destruct (processing md module w0) as [r w1]. simpl in Hok. by subst r.
Qed.

(** ** The model on small inputs *)

Example split_lines : split newline ("a" +:+ String newline "b") = ["a"; "b"].
Proof. reflexivity. Qed.

Example CheckErrors_minor_only :
  let w := {| state := AddError ex_minor init; log := []; calls := [] |} in
  (CheckErrors false w).1 = Ok tt /\
  log (CheckErrors false w).2
  = [{| level := ERROR; text := "dfTimewolf encountered one or more errors:" |};
     {| level := ERROR; text := "1: error from Collector: one file skipped" |}].
Proof. split; reflexivity. Qed.

Example CheckErrors_critical :
  let w := {| state := CleanUp (AddError ex_critical (AddError ex_minor init));
              log := []; calls := [] |} in
  (CheckErrors true w).1 = Raised CriticalError /\
  (CheckErrors false w).1 = Ok tt /\
  length (log (CheckErrors true w).2) = 3.
Proof. repeat split; reflexivity. Qed.

Example wait_blocks :
  task_step ex_md_B (Waiting ["A"]) ex_world_ok = None.
Proof. reflexivity. Qed.

Example ex_cfg_tasks :
  tasks ex_cfg = [Finished; Processing ex_module_B] /\
  calls (world ex_cfg) = [CallProcess "A"; EventSet "A"] /\
  exists w',
    task_step ex_md_B (Processing ex_module_B) (world ex_cfg) = Some (Completing, w') /\
    calls w' = calls (world ex_cfg) ++ [CallProcess "B"] /\
    _cache (state w') !! "found" = Some "containers".
Proof.
  split; [by vm_compute|]. split; [by vm_compute|].
  eexists. split; [reflexivity|]. split; by vm_compute.
Qed.

(** * Further properties of the state *)

(** ** Relations that all operations respect *)

#[global] Instance ledger_grows_preorder : PreOrder ledger_grows.
Proof. unfold ledger_grows. split; [intros s | intros s1 s2 s3]; [done | apply transitivity]. Qed.

#[global] Instance preserves_preorder (I : DFTimewolfState -> Prop) : PreOrder (preserves I).
Proof. unfold preserves. split; [intros s | intros s1 s2 s3]; auto. Qed.

(** Every operation respects a relation that the methods which write the
    state respect. *)
Lemma respects_run_operation (R : relation DFTimewolfState) `{!PreOrder R} resolver op :
  (forall e s, R s (AddError e s)) ->
  (forall c s, R s (StoreContainer c s)) ->
  (forall cls pop s, R s (GetContainers cls pop s).2) ->
  (forall k v s, R s (AddToCache k v s)) ->
  (forall s, R s (CleanUp s)) ->
  (forall n b s, R s (set_events (<[n := b]> (_threading_event_per_module s)) s)) ->
  (forall cb cls s, R s (RegisterStreamingCallback cb cls s)) ->
  respects R (run_operation resolver op).
Proof.
  intros HA HS HG HC HU HE HR.
  destruct op as [| | |cls pop| | | | | | | | |]; simpl.
  - by apply respects_modify_state.
  - intros w. reflexivity.
  - by apply respects_modify_state.
  - intros w. exact (HG cls pop (state w)).
  - by apply respects_modify_state.
  - by apply respects_StreamContainer.
  - by apply respects_modify_state.
  - by apply respects_modify_state.
  - by apply respects_CheckErrors.
  - apply respects_SetupModuleThread; auto.
  - apply respects_RunModuleThread; auto.
  - by apply respects_RunPreflights.
  - by apply respects_CleanUpPreflights.
Qed.

Lemma respects_run_operations (R : relation DFTimewolfState) `{!PreOrder R} resolver ops :
  (forall op, respects R (run_operation resolver op)) ->
  forall w, R (state w) (state (run_operations resolver ops w)).
Proof.
  intros Hop. induction ops as [|op ops IH]; intros w; simpl; [reflexivity|].
  etrans; [apply (Hop op w) | apply IH].
Qed.

(** ** The ledger only grows *)

Lemma ledger_AddError e s : ledger (AddError e s) = ledger s ++ [e].
Proof. unfold ledger, AddError. destruct (critical e); simpl; by rewrite app_assoc. Qed.

Lemma ledger_CleanUp s : ledger (CleanUp s) = ledger s.
Proof. unfold ledger, CleanUp. simpl. by rewrite app_nil_r. Qed.

Lemma ledger_GetContainers cls pop s : ledger (GetContainers cls pop s).2 = ledger s.
Proof. by destruct pop. Qed.

Lemma ledger_grows_same s s' : ledger s' = ledger s -> ledger_grows s s'.
Proof. unfold ledger_grows. by intros ->. Qed.

Ltac ledger_grows_tac :=
  intros;
  first [ apply ledger_grows_same; first [ reflexivity | apply ledger_CleanUp
                                         | apply ledger_GetContainers ]
        | unfold ledger_grows; rewrite ledger_AddError; by apply prefix_app_r ].

Lemma operation_ledger_grows resolver op :
  respects ledger_grows (run_operation resolver op).
Proof. apply respects_run_operation; try apply _; ledger_grows_tac. Qed.

#[global] Instance global_grows_preorder : PreOrder global_grows.
Proof.
  unfold global_grows. split; [intros s | intros s1 s2 s3]; [done | apply transitivity].
Qed.

Lemma steps_global_grows mds cfg cfg' :
  rtc (step mds) cfg cfg' -> global_grows (state (world cfg)) (state (world cfg')).
Proof.
  apply respects_steps; try apply _; intros; unfold global_grows.
  - unfold AddError. by destruct (critical e).
  - done.
  - by destruct pop.
  - done.
  - done.
  - by apply prefix_app_r.
  - done.
Qed.

(** *** Statement by statement *)

Lemma execute_AddError error s :
  foldl execute s (AddError_statements error) = AddError error s.
Proof. unfold AddError_statements, AddError. by destruct (critical error). Qed.

Lemma execute_CleanUp s : foldl execute s CleanUp_statements = CleanUp s.
Proof. reflexivity. Qed.

Lemma execute_global_grows statements : forall s,
  global_grows s (foldl execute s statements).
Proof.
  induction statements as [|statement rest IH]; intros s; [done|].
  simpl. etransitivity; [|apply IH].
  unfold global_grows. destruct statement; simpl; [done | done | | done].
  by apply prefix_app_r.
Qed.

Lemma flag_first_app flag a b :
  flag_first flag (a ++ b) = true -> flag_first flag a = true.
Proof.
  revert flag. induction a as [|statement rest IH]; intros flag; [done|].
  destruct statement; simpl; try apply IH.
  intros [Hflag Hrest]%andb_true_iff. rewrite Hflag. simpl. by apply IH.
Qed.

Lemma flag_first_set statements :
  forall flag, flag_first flag statements = true -> flag_first true statements = true.
Proof.
  induction statements as [|statement rest IH]; intros flag; [done|].
  destruct statement; simpl; try apply IH.
  intros [_ Hrest]%andb_true_iff. rewrite (IH _ Hrest).
  by destruct (critical error).
Qed.

Lemma calls_only_flag_first statements :
  calls_only statements -> flag_first false statements = true.
Proof.
  induction 1 as [|error rest _ IH|rest _ IH]; [done | | done].
  unfold AddError_statements. destruct (critical error) eqn:Hcritical; simpl.
  - rewrite Hcritical. simpl. by apply (flag_first_set _ false).
  - by rewrite Hcritical.
Qed.

Lemma of_thread_cons thread entry trace :
  of_thread thread (entry :: trace)
  = if decide (entry.1 = thread) then entry.2 :: of_thread thread trace
    else of_thread thread trace.
Proof. unfold of_thread. rewrite filter_cons. by destruct (decide _). Qed.

Lemma of_thread_app thread a b :
  of_thread thread (a ++ b) = of_thread thread a ++ of_thread thread b.
Proof. unfold of_thread. by rewrite filter_app, fmap_app. Qed.

(** When no thread appends a critical error before it has set the flag,
    none is appended before the flag is set. *)
Lemma flag_first_threads trace : forall (flags : nat -> bool) (flag : bool),
  (forall thread, flag_first (flags thread) (of_thread thread trace) = true) ->
  (forall thread, flags thread = true -> flag = true) ->
  flag_first flag trace.*2 = true.
Proof.
  induction trace as [|[thread0 statement] rest IH]; intros flags flag Hthreads Hflag;
    [done|].
  assert (Hown := Hthreads thread0). rewrite of_thread_cons in Hown. simpl in Hown.
  rewrite decide_True in Hown by done.
  assert (Hothers : forall thread, thread <> thread0 ->
            flag_first (flags thread) (of_thread thread rest) = true).
  { intros thread Hne. specialize (Hthreads thread). rewrite of_thread_cons in Hthreads.
    simpl in Hthreads. by rewrite decide_False in Hthreads by done. }
  destruct statement; simpl in *.
  - apply (IH (fun thread => if decide (thread = thread0) then true else flags thread)).
    + intros thread. destruct (decide (thread = thread0)) as [->|Hne]; [done|].
      by apply Hothers.
    + done.
  - apply andb_true_iff in Hown as [Hcritical Hown]. apply andb_true_iff. split.
    + destruct (critical error); [|done]. simpl in Hcritical. by apply (Hflag thread0).
    + apply (IH flags); [|done]. intros thread.
      destruct (decide (thread = thread0)) as [->|Hne]; [done | by apply Hothers].
  - apply (IH flags); [|done]. intros thread.
    destruct (decide (thread = thread0)) as [->|Hne]; [done | by apply Hothers].
  - apply (IH flags); [|done]. intros thread.
    destruct (decide (thread = thread0)) as [->|Hne]; [done | by apply Hothers].
Qed.

Lemma execute_flag_covers statements : forall s,
  flag_first (_abort_execution s) statements = true ->
  flag_covers s -> flag_covers (foldl execute s statements).
Proof.
  induction statements as [|statement rest IH]; intros s Hfirst Hcovers; [done|].
  simpl. apply IH.
  - destruct statement; simpl in *; [done | | done | done].
    by apply andb_true_iff in Hfirst as [_ Hfirst].
  - unfold flag_covers, ledger in *. destruct statement; simpl in *.
    + done.
    + apply andb_true_iff in Hfirst as [Hcritical _].
      rewrite !existsb_app. simpl. rewrite orb_false_r.
      rewrite existsb_app in Hcovers.
      destruct (critical error); simpl in *.
      * by destruct (_abort_execution s).
      * by rewrite orb_false_r.
    + rewrite !existsb_app. rewrite existsb_app in Hcovers.
      intros H. apply Hcovers.
      destruct (existsb critical (global_errors s)), (existsb critical (errors s)); done.
    + rewrite existsb_app. simpl. rewrite orb_false_r.
      rewrite existsb_app in Hcovers. intros H. apply Hcovers. by rewrite H.
Qed.

Lemma threads_flag_covers trace done s :
  (forall thread, calls_only (of_thread thread trace)) ->
  done `prefix_of` trace ->
  flag_covers s -> flag_covers (foldl execute s done.*2).
Proof.
  intros Hcalls [rest ->] Hcovers. apply execute_flag_covers; [|done].
  apply (flag_first_threads done (fun _ => false)); [|done].
  intros thread. apply (flag_first_app _ _ (of_thread thread rest)).
  rewrite <- of_thread_app. by apply calls_only_flag_first.
Qed.

(** X1. No error is dropped, reordered or changed by the operations of the
    state when they run one after the other, whatever their outcomes: the
    errors recorded so far (the global list followed by the round's list)
    stay where they are, and what is recorded comes after them; [AddError]
    adds its error at the end, [CleanUp] keeps the whole.  Among the run
    threads, under any interleaving, this holds of the global list only:
      [CleanUp] is two statements, and an error that another thread records
    between them is dropped by the second.  A run of two modules reaches
    that: the error that [C] has recorded is in no list in the end.  The
    global list keeps what it holds also when the statements of [AddError]
    and [CleanUp] are executed one by one in any order. *)
Theorem ledger_append_only (resolver : Args -> Args -> Args)
    (ops : list Operation) (w : World)
    (module_definitions : list ModuleDefinition) (cfg cfg' : Config)
    (error : DFTimewolfError) (s : DFTimewolfState) :
  ledger (state w) `prefix_of` ledger (state (run_operations resolver ops w)) /\
  ledger (AddError error s) = ledger s ++ [error] /\
  ledger (CleanUp s) = ledger s /\
  CleanUp s = CleanUp_clear (CleanUp_extend s) /\
  (rtc (step module_definitions) cfg cfg' ->
   global_errors (state (world cfg)) `prefix_of` global_errors (state (world cfg'))) /\
  ledger (CleanUp_clear (AddError error (CleanUp_extend s))) = ledger s /\
  (foldl execute s (AddError_statements error) = AddError error s /\
   foldl execute s CleanUp_statements = CleanUp s /\
   forall statements,
     global_errors s `prefix_of` global_errors (foldl execute s statements)) /\
  (reachable [ex_md_A; ex_md_C] ex_world_pair ex_cfg_recorded /\
   rtc (step [ex_md_A; ex_md_C]) ex_cfg_recorded ex_cfg_lost /\
   ledger (state (world ex_cfg_recorded)) = [ex_critical] /\
   tasks ex_cfg_lost = [Finished; Finished] /\
   ledger (state (world ex_cfg_lost)) = []).
Proof.
  repeat apply conj.
  - apply (respects_run_operations ledger_grows). apply operation_ledger_grows.
  - apply ledger_AddError.
  - apply ledger_CleanUp.
  - reflexivity.
  - apply steps_global_grows.
  - unfold ledger, CleanUp_clear, CleanUp_extend, AddError.
    destruct (critical error); simpl; by rewrite app_nil_r.
  - apply execute_AddError.
  - apply execute_CleanUp.
  - intros statements. apply execute_global_grows.
  - apply run_schedule_steps.
  - apply run_schedule_steps.
  - by vm_compute.
  - by vm_compute.
  - by vm_compute.
Qed.

(** ** The abort flag and the ledger *)

Lemma flag_tells_same s s' :
  ledger s' = ledger s -> _abort_execution s' = _abort_execution s ->
  preserves flag_tells s s'.
Proof. unfold preserves, flag_tells. by intros -> ->. Qed.

Lemma flag_tells_AddError e s : preserves flag_tells s (AddError e s).
Proof.
  unfold preserves, flag_tells. intros H.
  rewrite abort_AddError, ledger_AddError, existsb_app, H. simpl.
  rewrite orb_false_r. apply orb_comm.
Qed.

Lemma abort_GetContainers cls pop s :
  _abort_execution (GetContainers cls pop s).2 = _abort_execution s.
Proof. by destruct pop. Qed.

Ltac flag_tells_tac :=
  intros;
  first [ apply flag_tells_AddError
        | apply flag_tells_same;
          [ first [ reflexivity | apply ledger_CleanUp | apply ledger_GetContainers ]
          | first [ reflexivity | apply abort_GetContainers ] ] ].

Lemma operation_flag_tells resolver op :
  respects (preserves flag_tells) (run_operation resolver op).
Proof. apply respects_run_operation; try apply _; flag_tells_tac. Qed.

Lemma flag_covers_same s s' :
  (existsb critical (ledger s') = true -> existsb critical (ledger s) = true) ->
  _abort_execution s' = _abort_execution s ->
  preserves flag_covers s s'.
Proof. unfold preserves, flag_covers. intros Hledger -> Hs H. auto. Qed.

Lemma steps_flag_covers mds cfg cfg' :
  rtc (step mds) cfg cfg' ->
  preserves flag_covers (state (world cfg)) (state (world cfg')).
Proof.
  apply respects_steps; try apply _; intros.
  - unfold preserves, flag_covers. rewrite abort_AddError, ledger_AddError, existsb_app.
    simpl. rewrite orb_false_r. intros Hs Hor.
    apply orb_prop in Hor as [Hold|Hnew]; [by rewrite (Hs Hold), orb_true_r | by rewrite Hnew].
  - by apply flag_covers_same.
  - apply flag_covers_same; [by rewrite ledger_GetContainers | apply abort_GetContainers].
  - by apply flag_covers_same.
  - by apply flag_covers_same.
  - apply flag_covers_same; [|done].
    unfold ledger, CleanUp_extend. simpl. rewrite !existsb_app.
    intros H. apply orb_prop in H as [H|H]; [|by rewrite H, orb_true_r].
    apply orb_prop in H as [H|H]; rewrite H; [done | by rewrite orb_true_r].
  - apply flag_covers_same; [|done].
    unfold ledger, CleanUp_clear. simpl. rewrite !existsb_app. simpl.
    rewrite orb_false_r. intros ->. done.
Qed.

(** X2. When the operations of the state run one after the other, the abort
    flag is set exactly when a critical error has been recorded: this holds
    of the initial state and every operation keeps it, so in a state reached
    from the initial one the flag is set if and only if one of the two lists
    holds a critical error.  Among the run threads, under any interleaving,
    one half remains: a critical error in the lists has set the flag.  The
    other half fails when a critical error is recorded between the two
    statements of another thread's [CleanUp]: the flag is set and no list
    holds the error.  The half that remains does not depend on the grain of
    the steps: it holds at every point of every trace in which threads
    whose statements are calls of [AddError] and [CleanUp] execute them
    statement by statement, since [AddError] sets the flag before it
    appends the error. *)
Theorem abort_flag_tells_critical (resolver : Args -> Args -> Args)
    (ops : list Operation) (log0 : list LogRecord) (calls0 : list Call)
    (module_definitions : list ModuleDefinition) (cfg cfg' : Config) (w : World)
    (error : DFTimewolfError) (s : DFTimewolfState) :
  let reached :=
    state (run_operations resolver ops
             {| state := init; log := log0; calls := calls0 |}) in
  let raced := CleanUp_clear (AddError error (CleanUp_extend s)) in
  (_abort_execution reached = true <->
   exists e, (e ∈ global_errors reached \/ e ∈ errors reached) /\ critical e = true) /\
  (flag_tells (state w) -> flag_tells (state (run_operations resolver ops w))) /\
  (rtc (step module_definitions) cfg cfg' ->
   flag_covers (state (world cfg)) -> flag_covers (state (world cfg'))) /\
  (critical error = true ->
   _abort_execution raced = true /\
   existsb critical (ledger raced) = existsb critical (ledger s)) /\
  (forall trace done,
     (forall thread, calls_only (of_thread thread trace)) ->
     done `prefix_of` trace ->
     flag_covers s -> flag_covers (foldl execute s done.*2)).
Proof.
  intros reached raced. split; [|split; [|split; [|split]]].
  - assert (Htells : flag_tells reached).
    { apply (respects_run_operations (preserves flag_tells) resolver ops
               (operation_flag_tells resolver)). reflexivity. }
    unfold flag_tells in Htells. rewrite Htells, existsb_elem_of.
    unfold ledger. setoid_rewrite elem_of_app. done.
  - apply (respects_run_operations (preserves flag_tells)). apply operation_flag_tells.
  - apply steps_flag_covers.
  - intros Hcritical. subst raced.
    unfold ledger, CleanUp_clear, CleanUp_extend, AddError. rewrite Hcritical. simpl.
    by rewrite app_nil_r.
  - intros trace done. apply threads_flag_covers.
Qed.

(** ** The cache *)

Lemma state_eta_cache s : set_cache (_cache s) s = s.
Proof. by destruct s. Qed.

(** X3. Cache: a read gives the value of the last write of the name; a write
    leaves the other names as they were; a name that was never written reads
    as the default value; and a write changes nothing but the cache. *)
Theorem cache_last_write_wins (key other : string) (v1 v2 : Value)
    (default_value : option Value) (s : DFTimewolfState) :
  GetFromCache key default_value (AddToCache key v2 (AddToCache key v1 s)) = Some v2 /\
  (other <> key ->
   GetFromCache other default_value (AddToCache key v1 s)
   = GetFromCache other default_value s) /\
  (_cache s !! key = None -> GetFromCache key default_value s = default_value) /\
  set_cache (_cache s) (AddToCache key v1 s) = s.
Proof.
  unfold GetFromCache, AddToCache. simpl. split; [|split; [|split]].
  - by rewrite lookup_insert_eq.
  - intros Hne. by rewrite lookup_insert_ne.
  - by intros ->.
  - by destruct s.
Qed.

(** ** The container store, for any sequence of containers *)

Lemma StoreContainer_lookup c tag s :
  default [] (store (StoreContainer c s) !! tag)
  = default [] (store s !! tag) ++ of_type tag [c].
Proof.
  unfold StoreContainer, of_type. simpl.
  destruct (decide (container_type c = tag)) as [<-|Hne].
  - rewrite lookup_insert_eq, filter_cons_True by done. done.
  - rewrite lookup_insert_ne, filter_cons_False by done. simpl. by rewrite app_nil_r.
Qed.

Lemma store_all_lookup containers tag : forall s,
  default [] (store (store_all containers s) !! tag)
  = default [] (store s !! tag) ++ of_type tag containers.
Proof.
  induction containers as [|c cs IH]; intros s; simpl.
  - by rewrite app_nil_r.
  - rewrite IH, StoreContainer_lookup. unfold of_type.
    rewrite <- app_assoc. f_equal.
    change (c :: cs) with ([c] ++ cs). by rewrite filter_app.
Qed.

(** X4. The store keeps, per tag, the order of storing: after any sequence
    of [StoreContainer], of containers of any tags, [GetContainers] of a
    class gives what the tag held before followed by the containers of that
    tag among those stored, in the order in which they were stored;
    containers of other tags never show up in it. *)
Theorem store_keeps_order_per_tag (cls : ContainerClass)
    (containers : list Container) (s : DFTimewolfState) :
  (GetContainers cls false (store_all containers s)).1
  = (GetContainers cls false s).1 ++ of_type (CONTAINER_TYPE cls) containers.
Proof. unfold GetContainers. simpl. apply store_all_lookup. Qed.

Lemma state_eta_store s : set_store (store s) s = s.
Proof. by destruct s. Qed.

(** X5. Reading and consuming: a read without [pop] leaves the state as it
    is; a tag that was never stored reads as empty; a read with [pop] gives
    what the read without it gives, leaves the tag empty and every other tag
    and every other field of the state as they were. *)
Theorem pop_takes_one_tag (cls : ContainerClass) (other : string)
    (s : DFTimewolfState) :
  (GetContainers cls false s).2 = s /\
  (store s !! CONTAINER_TYPE cls = None -> (GetContainers cls false s).1 = []) /\
  (GetContainers cls true s).1 = (GetContainers cls false s).1 /\
  (GetContainers cls false (GetContainers cls true s).2).1 = [] /\
  (other <> CONTAINER_TYPE cls ->
   store (GetContainers cls true s).2 !! other = store s !! other) /\
  set_store (store s) (GetContainers cls true s).2 = s.
Proof.
  unfold GetContainers. simpl. repeat split.
  - by intros ->.
  - by rewrite lookup_insert_eq.
  - intros Hne. by rewrite lookup_insert_ne.
  - by destruct s.
Qed.

(** ** [CleanUp] and the checks *)

(** X6. [CleanUp] followed by the check of the global list, the sequence of
    [_InvokeModulesInThreads]: after [CleanUp] the round's list is empty, so
    a check of that list returns and writes nothing; the check of the global
    list raises exactly when an error recorded so far, in either list, is
    critical; and a second [CleanUp] changes nothing. *)
Theorem CleanUp_then_check (w : World) :
  let cleaned := {| state := CleanUp (state w); log := log w; calls := calls w |} in
  CleanUp (CleanUp (state w)) = CleanUp (state w) /\
  CheckErrors false cleaned = (Ok tt, cleaned) /\
  ((CheckErrors true cleaned).1 = Raised CriticalError <->
   exists e, (e ∈ global_errors (state w) \/ e ∈ errors (state w)) /\ critical e = true).
Proof.
  intros cleaned. split; [|split].
  - unfold CleanUp. simpl. by rewrite app_nil_r.
  - rewrite CheckErrors_spec. simpl. by rewrite app_nil_r.
  - rewrite CheckErrors_spec. simpl.
    setoid_rewrite <- elem_of_app. rewrite <- existsb_elem_of.
    destruct (existsb critical _); split; congruence.
Qed.

(** ** Streaming: no callback, and a callback that raises *)

Lemma register_all_other callbacks other cls : forall s,
  other <> cls ->
  streaming_callbacks (register_all callbacks other s) !! cls
  = streaming_callbacks s !! cls.
Proof.
  induction callbacks as [|cb cbs IH]; intros s Hne; simpl; [done|].
  rewrite IH by done. unfold RegisterStreamingCallback. simpl.
  by rewrite lookup_insert_ne.
Qed.

(** X8. Callbacks are found by the class of the container, not by its tag:
    where no callback is registered for the class of a container,
    [StreamContainer] calls nothing, changes nothing and returns; and this
    stays so after callbacks are registered for any other class, also one
    with the same [CONTAINER_TYPE]. *)
Theorem StreamContainer_without_callbacks (container : Container)
    (other : ContainerClass) (callbacks : list Callback) (w : World) :
  streaming_callbacks (state w) !! container_class container = None ->
  other <> container_class container ->
  let registered :=
    {| state := register_all callbacks other (state w);
       log := log w; calls := calls w |} in
  StreamContainer container w = (Ok tt, w) /\
  StreamContainer container registered = (Ok tt, registered).
Proof.
  intros Hnone Hne registered. split.
  - unfold StreamContainer, mbind, M_bind, get_state. by rewrite Hnone.
  - unfold StreamContainer, mbind, M_bind, get_state. subst registered. simpl.
    by rewrite register_all_other, Hnone.
Qed.

Lemma StreamContainer_without_callbacks_witness :
  let same_tag := {| class_name := "HostCopy"; CONTAINER_TYPE := "host" |} in
  let registered :=
    {| state := register_all [ex_callback] same_tag (state initial_world);
       log := log initial_world; calls := calls initial_world |} in
  StreamContainer ex_c1 initial_world = (Ok tt, initial_world) /\
  StreamContainer ex_c1 registered = (Ok tt, registered).
Proof.
  apply (StreamContainer_without_callbacks ex_c1
           {| class_name := "HostCopy"; CONTAINER_TYPE := "host" |}
           [ex_callback] initial_world).
  - reflexivity.
  - discriminate.
Defined.

Lemma for_each_app {A} (xs ys : list A) (body : A -> M unit) w :
  for_each (xs ++ ys) body w = (for_each xs body ;; for_each ys body) w.
Proof.
  revert w. induction xs as [|x xs IH]; intros w; [done|].
  simpl. unfold mbind, M_bind.
  destruct (body x w) as [[[]|e|] w1]; [apply IH | done | done].
Qed.

(** X9. [StreamContainer] does not catch what a callback raises: when the
    callbacks registered before it return and one raises, its exception is
    the outcome of [StreamContainer], and the callbacks registered after it
    are not invoked for that container. *)
Theorem StreamContainer_callback_raises (container : Container)
    (before after : list Callback) (failing : Callback) (e : Exc) (w : World) :
  streaming_callbacks (state w) !! container_class container
  = Some (before ++ failing :: after) ->
  (forall cb w', cb ∈ before -> (run_logic (cb_body cb container) w').1 = Ok tt) ->
  (forall w', (run_logic (cb_body failing container) w').1 = Raised e) ->
  (StreamContainer container w).1 = Raised e /\
  calls (StreamContainer container w).2
  = calls w ++ dispatch (before ++ [failing]) container.
Proof.
  intros Hreg Hbefore Hfail.
  set (body := fun callback : Callback =>
         record_call (CallCallback (cb_name callback) container) ;;
         run_logic (cb_body callback container)).
  assert (E : StreamContainer container w
              = (for_each before body ;; for_each (failing :: after) body) w).
  { unfold StreamContainer.
    rewrite (bind_ok _ _ _ _ _ (eq_refl : get_state w = (Ok (state w), w))).
    rewrite Hreg. exact (for_each_app before (failing :: after) body w). }
  rewrite E.
  destruct (for_each_callbacks container before w Hbefore) as (Hok & Hcalls & _).
  fold body in Hok, Hcalls.
  destruct (for_each before body w) as [r w1] eqn:E1. simpl in Hok, Hcalls. subst r.
  rewrite (bind_ok _ _ _ _ _ E1).
  set (w2 := {| state := state w1; log := log w1;
                calls := calls w1 ++ [CallCallback (cb_name failing) container] |}).
  pose proof (Hfail w2) as Hraised.
  pose proof (run_logic_calls (cb_body failing container) w2) as Hcalls2.
  destruct (run_logic (cb_body failing container) w2) as [r w3] eqn:E2.
  simpl in Hraised, Hcalls2. subst r.
  assert (Hhead : body failing w1 = (Raised e, w3)) by exact E2.
  change (for_each (failing :: after) body)
    with (body failing ;; for_each after body).
  rewrite (bind_raised _ _ _ _ _ Hhead). simpl. split; [done|].
  rewrite Hcalls2. subst w2. simpl. rewrite Hcalls.
  unfold dispatch. rewrite fmap_app. simpl. by rewrite <- app_assoc.
Qed.

Lemma StreamContainer_callback_raises_witness :
  let failing := {| cb_name := "broken";
                    cb_body := fun _ => RaiseException ex_exception |} in
  let w := {| state := register_all [ex_callback; failing; ex_callback2] ex_class init;
              log := []; calls := [] |} in
  (StreamContainer ex_c1 w).1 = Raised (ExcException ex_exception) /\
  calls (StreamContainer ex_c1 w).2
  = calls w ++ dispatch ([ex_callback] ++ [failing]) ex_c1.
Proof.
  apply (StreamContainer_callback_raises ex_c1 [ex_callback] [ex_callback2]
           {| cb_name := "broken"; cb_body := fun _ => RaiseException ex_exception |}
           (ExcException ex_exception)
           {| state := register_all
                         [ex_callback;
                          {| cb_name := "broken";
                             cb_body := fun _ => RaiseException ex_exception |};
                          ex_callback2] ex_class init;
              log := []; calls := [] |}).
  - reflexivity.
  - intros cb w' Hcb. apply list_elem_of_singleton in Hcb as ->. reflexivity.
  - reflexivity.
Defined.

(** ** The setup threads *)

Lemma setup_calls_keeps {V} (field : DFTimewolfState -> V) module new_args w :
  (forall e s, field (AddError e s) = field s) ->
  (forall c s, field (StoreContainer c s) = field s) ->
  (forall cls pop s, field (GetContainers cls pop s).2 = field s) ->
  (forall k v s, field (AddToCache k v s) = field s) ->
  field (state (setup_calls module new_args w).2) = field (state w).
Proof.
  intros. by apply (respects_setup_calls (keeps field)).
Qed.

Lemma events_AddError e s :
  _threading_event_per_module (AddError e s) = _threading_event_per_module s.
Proof. unfold AddError. by destruct (critical e). Qed.

Lemma pool_AddError e s : _module_pool (AddError e s) = _module_pool s.
Proof. unfold AddError. by destruct (critical e). Qed.

Lemma events_GetContainers cls pop s :
  _threading_event_per_module (GetContainers cls pop s).2
  = _threading_event_per_module s.
Proof. by destruct pop. Qed.

Lemma pool_GetContainers cls pop s :
  _module_pool (GetContainers cls pop s).2 = _module_pool s.
Proof. by destruct pop. Qed.

Lemma pool_record error s : _module_pool (record error s) = _module_pool s.
Proof. destruct error; [apply pool_AddError | done]. Qed.

Lemma SetupModuleThread_missing resolver md w :
  _module_pool (state w) !! runtime_name_of md = None ->
  _SetupModuleThread resolver md w
  = (Raised (KeyError (runtime_name_of md)),
     logged INFO ("Setting up module: " +:+ runtime_name_of md) w).
Proof.
  intros Hnone. unfold _SetupModuleThread, mbind, M_bind, get_state, getitem.
  simpl. by rewrite Hnone.
Qed.

(** What a setup thread does to the events and to the pool: the pool is as
    it was; an event that is not set stays so; and the event of the
    definition is there, not set, unless the module is missing or its code
    raises an exception that does not derive from [Exception]. *)
Lemma SetupModuleThread_events resolver md w :
  let after := state (_SetupModuleThread resolver md w).2 in
  let set_up module :=
    setup_calls module (resolver (md_args md) (command_line_options (state w)))
      (logged INFO ("Setting up module: " +:+ runtime_name_of md) w) in
  _module_pool after = _module_pool (state w) /\
  (forall n, _threading_event_per_module (state w) !! n = Some false ->
             _threading_event_per_module after !! n = Some false) /\
  (forall module,
     _module_pool (state w) !! runtime_name_of md = Some module ->
     within_Exception (set_up module).1 ->
     _threading_event_per_module after !! runtime_name_of md = Some false) /\
  (forall module x,
     _module_pool (state w) !! runtime_name_of md = Some module ->
     (set_up module).1 = Raised (ExcBaseException x) ->
     _threading_event_per_module after = _threading_event_per_module (state w)).
Proof.
  intros after set_up. subst after set_up. cbv beta.
  assert (Hkeeps : forall module,
            _module_pool
              (state (setup_calls module
                        (resolver (md_args md) (command_line_options (state w)))
                        (logged INFO ("Setting up module: " +:+ runtime_name_of md) w)).2)
            = _module_pool (state w) /\
            _threading_event_per_module
              (state (setup_calls module
                        (resolver (md_args md) (command_line_options (state w)))
                        (logged INFO ("Setting up module: " +:+ runtime_name_of md) w)).2)
            = _threading_event_per_module (state w)).
  { intros module.
    rewrite !setup_calls_keeps;
      auto using events_AddError, pool_AddError, events_GetContainers,
                 pool_GetContainers. }
  assert (Hreturns : forall module,
            _module_pool (state w) !! runtime_name_of md = Some module ->
            within_Exception
              (setup_calls module
                 (resolver (md_args md) (command_line_options (state w)))
                 (logged INFO ("Setting up module: " +:+ runtime_name_of md) w)).1 ->
            _module_pool (state (_SetupModuleThread resolver md w).2)
            = _module_pool (state w) /\
            _threading_event_per_module (state (_SetupModuleThread resolver md w).2)
            = <[runtime_name_of md := false]> (_threading_event_per_module (state w))).
  { intros module Hpool Hwithin.
    destruct (SetupModuleThread_returns resolver md module w Hpool Hwithin)
      as (final & Hrun & _ & Hstate). rewrite Hrun. simpl. rewrite Hstate. simpl.
    rewrite pool_record. destruct (Hkeeps module) as [-> ->]. done. }
  assert (Hcases : forall module,
            _module_pool (state w) !! runtime_name_of md = Some module ->
            within_Exception
              (setup_calls module
                 (resolver (md_args md) (command_line_options (state w)))
                 (logged INFO ("Setting up module: " +:+ runtime_name_of md) w)).1 \/
            exists x,
              (setup_calls module
                 (resolver (md_args md) (command_line_options (state w)))
                 (logged INFO ("Setting up module: " +:+ runtime_name_of md) w)).1
              = Raised (ExcBaseException x)).
  { intros module _.
    destruct (setup_calls module _ _) as [[[]|[e|msg|x|x]|] w1]; simpl;
      first [ left; by intros y | right; by exists x ]. }
  repeat apply conj.
  - destruct (_module_pool (state w) !! runtime_name_of md) as [module|] eqn:Hpool;
      [|by rewrite SetupModuleThread_missing].
    destruct (Hcases module eq_refl) as [Hwithin|[x Hraised]].
    + by destruct (Hreturns module eq_refl Hwithin).
    + rewrite (SetupModuleThread_uncaught resolver md module w x Hpool Hraised).
      by destruct (Hkeeps module).
  - intros n Hn.
    destruct (_module_pool (state w) !! runtime_name_of md) as [module|] eqn:Hpool;
      [|by rewrite SetupModuleThread_missing].
    destruct (Hcases module eq_refl) as [Hwithin|[x Hraised]].
    + destruct (Hreturns module eq_refl Hwithin) as [_ ->].
      destruct (decide (runtime_name_of md = n)) as [->|Hne].
      * by rewrite lookup_insert_eq.
      * by rewrite lookup_insert_ne.
    + rewrite (SetupModuleThread_uncaught resolver md module w x Hpool Hraised).
      destruct (Hkeeps module) as [_ ->]. done.
  - intros module Hpool Hwithin.
    destruct (Hreturns module Hpool Hwithin) as [_ ->]. by rewrite lookup_insert_eq.
  - intros module x Hpool Hraised.
    rewrite (SetupModuleThread_uncaught resolver md module w x Hpool Hraised).
    by destruct (Hkeeps module).
Qed.

Lemma setup_all_events resolver mds md module : forall w,
  _module_pool (state w) !! runtime_name_of md = Some module ->
  (forall args w', within_Exception (setup_calls module args w').1) ->
  _threading_event_per_module (state w) !! runtime_name_of md = Some false \/
  md ∈ mds ->
  _threading_event_per_module
    (state (run_operations resolver (OpSetupModuleThread <$> mds) w))
    !! runtime_name_of md
  = Some false /\
  _module_pool (state (run_operations resolver (OpSetupModuleThread <$> mds) w))
  = _module_pool (state w).
Proof.
  induction mds as [|md0 mds IH]; intros w Hpool Hwithin Hn.
  - destruct Hn as [Hn|Hin]; [done | by apply elem_of_nil in Hin].
  - rewrite fmap_cons. simpl.
    destruct (SetupModuleThread_events resolver md0 w) as (Hpool0 & Hstays & Hnew & _).
    set (w1 := (_SetupModuleThread resolver md0 w).2) in *.
    destruct (IH w1) as [Hfalse Hpool']; [by rewrite Hpool0 | done | |by rewrite Hpool', Hpool0].
    destruct Hn as [Hn|Hin]; [left; by apply Hstays|].
    apply elem_of_cons in Hin as [<-|Hin]; [|by right].
    left. by apply (Hnew module).
Qed.

(** X10. Setup gives a module its event: after the setup threads of a list
    of module definitions, run one after another in any order, a definition
    of the list whose module is in the pool, and whose setup code raises
    nothing but exceptions that derive from [Exception], has an event, and
    the event is not set, also when it was set before; the pool is as it
    was.  A setup thread whose module is not in the pool ends with
    [KeyError] before it calls or records anything, and creates no event;
    nor does a thread whose setup code raises an exception that does not
    derive from [Exception], which ends with that exception. *)
Theorem setup_creates_unset_events (resolver : Args -> Args -> Args)
    (module_definitions : list ModuleDefinition) (md : ModuleDefinition)
    (module : BaseModule) (w : World) :
  md ∈ module_definitions ->
  _module_pool (state w) !! runtime_name_of md = Some module ->
  (forall args w', within_Exception (setup_calls module args w').1) ->
  let after :=
    state (run_operations resolver (OpSetupModuleThread <$> module_definitions) w) in
  _threading_event_per_module after !! runtime_name_of md = Some false /\
  _module_pool after = _module_pool (state w) /\
  (forall md' w',
     _module_pool (state w') !! runtime_name_of md' = None ->
     (_SetupModuleThread resolver md' w').1 = Raised (KeyError (runtime_name_of md')) /\
     state (_SetupModuleThread resolver md' w').2 = state w' /\
     calls (_SetupModuleThread resolver md' w').2 = calls w') /\
  (forall md' module' w' x,
     _module_pool (state w') !! runtime_name_of md' = Some module' ->
     (setup_calls module' (resolver (md_args md') (command_line_options (state w')))
        (logged INFO ("Setting up module: " +:+ runtime_name_of md') w')).1
     = Raised (ExcBaseException x) ->
     (_SetupModuleThread resolver md' w').1 = Raised (ExcBaseException x) /\
     _threading_event_per_module (state (_SetupModuleThread resolver md' w').2)
     = _threading_event_per_module (state w')).
Proof.
  intros Hin Hpool Hwithin after. subst after.
  destruct (setup_all_events resolver module_definitions md module w Hpool Hwithin)
    as [Hfalse Hpool']; [by right|].
  split; [done|]. split; [done|]. split.
  - intros md' w' Hnone. by rewrite SetupModuleThread_missing.
  - intros md' module' w' x Hpool1 Hraised. split.
    + by rewrite (SetupModuleThread_uncaught resolver md' module' w' x Hpool1 Hraised).
    + destruct (SetupModuleThread_events resolver md' w') as (_ & _ & _ & Hsame).
      by apply (Hsame module' x).
Qed.

Lemma setup_creates_unset_events_witness :
  let after :=
    state (run_operations ex_resolver (OpSetupModuleThread <$> [ex_md_B; ex_md_A])
             ex_world_after_A) in
  _threading_event_per_module (state ex_world_after_A) !! runtime_name_of ex_md_A
  = Some true /\
  _threading_event_per_module after !! runtime_name_of ex_md_A = Some false /\
  _module_pool after = _module_pool (state ex_world_after_A).
Proof.
  cbv zeta. split; [reflexivity|].
  assert (Hin : ex_md_A ∈ [ex_md_B; ex_md_A])
    by apply list_elem_of_further, list_elem_of_here.
  assert (Hwithin : forall args w', within_Exception (setup_calls ex_module_A args w').1)
    by (by intros args w' x).
  destruct (setup_creates_unset_events ex_resolver [ex_md_B; ex_md_A] ex_md_A
              ex_module_A ex_world_after_A Hin eq_refl Hwithin) as (H1 & H2 & _).
  by split.
Defined.

(** ** Where a run thread stops *)

(** X12. A run thread that cannot start leaves no trace: when the first
    dependency that is not set has no event, the thread ends with [KeyError]
    on that name; when its event exists, the thread waits; when all
    dependencies are set and the module is not in the pool, the thread ends
    with [KeyError] on its own name.  In all three cases the world is as it
    was: nothing is called or logged, and the thread's own event is not
    set. *)
Theorem RunModuleThread_cannot_start (md : ModuleDefinition)
    (passed rest : list string) (w : World) :
  md_wants md = passed ++ rest ->
  all_set passed (state w) ->
  (forall d rest',
     rest = d :: rest' ->
     (_threading_event_per_module (state w) !! d = None ->
      _RunModuleThread md w = (Raised (KeyError d), w)) /\
     (_threading_event_per_module (state w) !! d = Some false ->
      _RunModuleThread md w = (Blocked, w))) /\
  (rest = [] ->
   _module_pool (state w) !! runtime_name_of md = None ->
   _RunModuleThread md w = (Raised (KeyError (runtime_name_of md)), w)).
Proof.
  intros Hwants Hset. unfold _RunModuleThread. rewrite Hwants. split.
  - intros d rest' ->.
    assert (Hfor : forall r, Event_wait d w = (r, w) -> r <> Ok tt ->
              (for_each (passed ++ d :: rest') Event_wait ;; run_after_wait md) w = (r, w)).
    { intros r Hwait Hr. unfold mbind at 1, M_bind at 1.
      rewrite for_each_app, (bind_ok _ _ _ _ _ (wait_all_set _ _ Hset)). simpl.
      unfold mbind at 1, M_bind at 1. rewrite Hwait.
      destruct r as [[]|e|]; done. }
    split; intros Hd; apply Hfor; try done;
      unfold Event_wait, mbind, M_bind, get_state, getitem; by rewrite Hd.
  - intros -> Hnone. rewrite app_nil_r.
    rewrite (bind_ok _ _ _ _ _ (wait_all_set _ _ Hset)).
    unfold run_after_wait, mbind, M_bind, get_state, getitem. by rewrite Hnone.
Qed.

Lemma RunModuleThread_cannot_start_witness :
  (forall d rest',
     ["A"] = d :: rest' ->
     (_threading_event_per_module (state ex_world_ok) !! d = None ->
      _RunModuleThread ex_md_B ex_world_ok = (Raised (KeyError d), ex_world_ok)) /\
     (_threading_event_per_module (state ex_world_ok) !! d = Some false ->
      _RunModuleThread ex_md_B ex_world_ok = (Blocked, ex_world_ok))) /\
  (["A"] = [] ->
   _module_pool (state ex_world_ok) !! runtime_name_of ex_md_B = None ->
   _RunModuleThread ex_md_B ex_world_ok
   = (Raised (KeyError (runtime_name_of ex_md_B)), ex_world_ok)).
Proof.
  apply (RunModuleThread_cannot_start ex_md_B [] ["A"] ex_world_ok).
  - reflexivity.
  - constructor.
Defined.

(** ** What the steps of a thread do to the events *)

Lemma enter_running_state md w : state (enter_running md w).2 = state w.
Proof.
  unfold enter_running, mbind, M_bind, get_state, getitem.
  destruct (_module_pool (state w) !! runtime_name_of md); [|done].
  by destruct (_abort_execution (state w)).
Qed.

Lemma completing_cases md w :
  (exists b, _threading_event_per_module (state w) !! runtime_name_of md = Some b /\
             completing md w = (Ok tt, signalled (runtime_name_of md) w)) \/
  (_threading_event_per_module (state w) !! runtime_name_of md = None /\
   completing md w = (Raised (KeyError (runtime_name_of md)), w)).
Proof.
  destruct (_threading_event_per_module (state w) !! runtime_name_of md) as [b|] eqn:Hb.
  - left. exists b. split; [done|]. by apply completing_spec.
  - right. split; [done|].
    unfold completing, Event_set, mbind, M_bind, get_state, getitem. by rewrite Hb.
Qed.

(** An event is set by the step [set()] of the thread of that name, and by
    no other step. *)
Lemma task_step_sets md pc w pc' w' n :
  task_step md pc w = Some (pc', w') ->
  _threading_event_per_module (state w') !! n = Some true ->
  _threading_event_per_module (state w) !! n = Some true \/
  (n = runtime_name_of md /\ pc = Completing /\ pc' = CleaningUp).
Proof.
  intros Hstep Hn.
  destruct pc as [[|d rest]|module| | | | |]; simpl in Hstep; try discriminate.
  - apply after_inv in Hstep as [-> _]. rewrite enter_running_state in Hn. by left.
  - destruct (Event_wait d w) as [r w1] eqn:Ewait.
    apply Event_wait_returns in Ewait as [-> _].
    apply after_inv in Hstep as [-> _]. by left.
  - apply after_inv in Hstep as [-> _]. rewrite processing_events in Hn. by left.
  - revert Hstep. unfold Event_set, mbind, M_bind, get_state, getitem.
    destruct (_threading_event_per_module (state w) !! runtime_name_of md) as [b|] eqn:Hb;
      simpl; intros [= <- <-].
    + simpl in Hn. destruct (decide (runtime_name_of md = n)) as [<-|Hne].
      * by right.
      * rewrite lookup_insert_ne in Hn by done. by left.
    + by left.
  - injection Hstep as <- <-. by left.
  - injection Hstep as <- <-. by left.
Qed.


(** ** A wanted module has signalled *)





Lemma ex_world_ok_no_event_set : no_event_set (state ex_world_ok).
Proof.
  intros n. simpl. rewrite lookup_fmap.
  by destruct (_ !! n).
Qed.


(** ** Definitions that want each other *)

Section Cycle.

Context (mds : list ModuleDefinition) (S : nat -> bool).

Definition cycle_inv (cfg : Config) : Prop :=
  (forall j mdj, S j = true -> mds !! j = Some mdj ->
     _threading_event_per_module (state (world cfg)) !! runtime_name_of mdj <> Some true) /\
  (forall j mdj pcj, S j = true -> mds !! j = Some mdj -> tasks cfg !! j = Some pcj ->
     (exists e, pcj = Crashed e) \/
     (exists rest, pcj = Waiting rest /\ exists d, d ∈ rest /\ named_in_set mds S d)).

Hypothesis wants_in_set :
  forall j mdj, S j = true -> mds !! j = Some mdj ->
    exists d, d ∈ md_wants mdj /\ named_in_set mds S d.

Hypothesis names_of_set :
  forall j k mdj mdk, S k = true -> mds !! j = Some mdj -> mds !! k = Some mdk ->
    runtime_name_of mdj = runtime_name_of mdk -> S j = true.

Lemma start_cycle_inv w :
  (forall j mdj, S j = true -> mds !! j = Some mdj ->
     _threading_event_per_module (state w) !! runtime_name_of mdj <> Some true) ->
  cycle_inv (start mds w).
Proof.
  intros Hunset. split; [exact Hunset|].
  intros j mdj pcj Hj Hmdj Hpcj. right. unfold start in Hpcj. simpl in Hpcj.
  rewrite list_lookup_fmap, Hmdj in Hpcj. injection Hpcj as <-.
  exists (md_wants mdj). split; [done|]. by eapply wants_in_set.
Qed.

Lemma step_cycle_inv cfg cfg' :
  step mds cfg cfg' -> cycle_inv cfg -> cycle_inv cfg'.
Proof.
  intros [i md pc pc' w' cfg0 Hmd Hpc Hstep] [Hunset Hpcs]. simpl in *.
  destruct (S i) eqn:Hi.
  - (* a thread of the set: it is in its wait *)
    destruct (Hpcs i md pc Hi Hmd Hpc) as [[e ->]|(rest & -> & d0 & Hd0 & Hnamed)];
      [discriminate|].
    destruct rest as [|d rest]; [by apply elem_of_nil in Hd0|]. simpl in Hstep.
    destruct (Event_wait d (world cfg0)) as [r w1] eqn:Ewait.
    apply Event_wait_returns in Ewait as [-> Hset].
    apply after_inv in Hstep as [-> Hnext]. simpl in *.
    split; [exact Hunset|].
    intros j mdj pcj Hj Hmdj Hpcj. simpl in Hpcj.
    destruct (decide (i = j)) as [<-|Hne].
    + rewrite list_lookup_insert_eq in Hpcj by (by eapply lookup_lt_Some).
      injection Hpcj as <-.
      destruct Hnext as [([] & Hr & ->)|[e ->]]; [|left; by exists e].
      right. exists rest. split; [done|]. exists d0. split; [|done].
      apply elem_of_cons in Hd0 as [->|Hd0]; [|done].
      destruct Hnamed as (k & mdk & Hk & Hmdk & Hname).
      destruct (Hunset k mdk Hk Hmdk). rewrite Hname. by apply Hset.
    + rewrite list_lookup_insert_ne in Hpcj by done. by eapply Hpcs.
  - (* another thread: it sets no event of the set *)
    split.
    + intros j mdj Hj Hmdj Hset. simpl in Hset.
      destruct (task_step_sets _ _ _ _ _ _ Hstep Hset) as [Hold|(Hname & _ & _)].
      * by eapply Hunset.
      * rewrite (names_of_set i j md mdj) in Hi; done.
    + intros j mdj pcj Hj Hmdj Hpcj. simpl in Hpcj.
      destruct (decide (i = j)) as [<-|Hne]; [congruence|].
      rewrite list_lookup_insert_ne in Hpcj by done. by eapply Hpcs.
Qed.

End Cycle.

Lemma Event_wait_raises d w e w' :
  Event_wait d w = (Raised e, w') ->
  _threading_event_per_module (state w) !! d = None.
Proof.
  unfold Event_wait, mbind, M_bind, get_state, getitem.
  destruct (_ !! d) as [[]|]; simpl; intros [=]; done.
Qed.

(** The events that exist go on existing. *)
Definition events_stay (s s' : DFTimewolfState) : Prop :=
  forall n, is_Some (_threading_event_per_module s !! n) ->
            is_Some (_threading_event_per_module s' !! n).

#[global] Instance events_stay_preorder : PreOrder events_stay.
Proof. split; unfold events_stay; [intros s | intros s1 s2 s3]; auto. Qed.

Lemma steps_events_stay mds cfg cfg' :
  rtc (step mds) cfg cfg' -> events_stay (state (world cfg)) (state (world cfg')).
Proof.
  apply respects_steps; try apply _.
  - intros e s m Hm. by rewrite events_AddError.
  - by intros c s m Hm.
  - intros cls pop s m Hm. by rewrite events_GetContainers.
  - by intros k v s m Hm.
  - intros n s m Hm. simpl. destruct (decide (n = m)) as [->|Hne].
    + by rewrite lookup_insert_eq.
    + by rewrite lookup_insert_ne.
  - by intros s m Hm.
  - by intros s m Hm.
Qed.

(** X14. A cycle in [wants] is a deadlock: take a set of module definitions
    whose runtime names are used by no definition outside the set, each of
    which wants the runtime name of one of the set, and whose events are not
    set as the threads start.  Then, under any interleaving, no thread of
    the set gets past its wait, so no entry point of its module is called,
    and its event is never set.  When the events of the names it wants all
    exist, such a thread is for ever in its wait: the threads never all end,
    and [RunModules] does not return. *)
Theorem dependency_cycle_never_runs (module_definitions : list ModuleDefinition)
    (in_cycle : nat -> bool) (w : World) (cfg : Config)
    (i : nat) (md : ModuleDefinition) (pc : Pc) :
  reachable module_definitions w cfg ->
  (forall j mdj, in_cycle j = true -> module_definitions !! j = Some mdj ->
     _threading_event_per_module (state w) !! runtime_name_of mdj <> Some true) ->
  (forall j mdj, in_cycle j = true -> module_definitions !! j = Some mdj ->
     exists d, d ∈ md_wants mdj /\ named_in_set module_definitions in_cycle d) ->
  (forall j k mdj mdk, in_cycle k = true ->
     module_definitions !! j = Some mdj -> module_definitions !! k = Some mdk ->
     runtime_name_of mdj = runtime_name_of mdk -> in_cycle j = true) ->
  in_cycle i = true ->
  module_definitions !! i = Some md ->
  tasks cfg !! i = Some pc ->
  past_wait pc = false /\
  _threading_event_per_module (state (world cfg)) !! runtime_name_of md <> Some true /\
  ((forall d, d ∈ md_wants md -> is_Some (_threading_event_per_module (state w) !! d)) ->
   (exists d rest, pc = Waiting (d :: rest)) /\ ~ joined cfg).
Proof.
  intros Hreach Hunset Hwants Hnames Hi Hmd Hpc.
  assert (Hinv : cycle_inv module_definitions in_cycle cfg).
  { unfold reachable in Hreach.
    assert (Hgen : forall c c', rtc (step module_definitions) c c' ->
              cycle_inv module_definitions in_cycle c ->
              cycle_inv module_definitions in_cycle c').
    { induction 1 as [|c1 c2 c3 H12 _ IH]; [done|].
      intros Hc. apply IH. by eapply step_cycle_inv. }
    eapply Hgen; [exact Hreach|]. by apply start_cycle_inv. }
  destruct Hinv as [Hev Hpcs].
  pose proof (Hpcs i md pc Hi Hmd Hpc) as Hcase.
  split; [|split].
  - destruct Hcase as [[e ->]|(rest & -> & _)]; done.
  - by eapply Hev.
  - intros Hexist.
    assert (Hwaiting : exists d rest, pc = Waiting (d :: rest)).
    { clear Hcase Hev Hpcs. revert pc Hpc. unfold reachable in Hreach.
      revert cfg Hreach.
      apply (rtc_ind_r
               (fun c => forall pc, tasks c !! i = Some pc ->
                                    exists d rest, pc = Waiting (d :: rest))
               (start module_definitions w)).
      - intros pc Hpc. unfold start in Hpc. simpl in Hpc.
        rewrite list_lookup_fmap, Hmd in Hpc. injection Hpc as <-.
        destruct (Hwants i md Hi Hmd) as (d & Hd & _).
        destruct (md_wants md) as [|d0 rest]; [by apply elem_of_nil in Hd | eauto].
      - intros c1 c2 Hreach1 Hstep IH pc Hpc. pose proof Hstep as Hstep'.
        destruct Hstep' as [k mdk pck pck' w' c0 Hmdk Hpck Htask]. simpl in Hpc.
        destruct (decide (k = i)) as [->|Hne];
          [|rewrite list_lookup_insert_ne in Hpc by done; by apply IH].
        rewrite list_lookup_insert_eq in Hpc by (by eapply lookup_lt_Some).
        injection Hpc as <-. rewrite Hmd in Hmdk. injection Hmdk as <-.
        destruct (IH pck Hpck) as (d & rest & ->).
        assert (Hcyc : cycle_inv module_definitions in_cycle
                         {| world := w'; tasks := <[i := pck']> (tasks c0) |}).
        { assert (Hgen : forall c c', rtc (step module_definitions) c c' ->
                    cycle_inv module_definitions in_cycle c ->
                    cycle_inv module_definitions in_cycle c').
          { induction 1 as [|x1 x2 x3 H12 _ IH']; [done|].
            intros Hc. apply IH'. by eapply step_cycle_inv. }
          eapply Hgen; [|by apply start_cycle_inv].
          eapply rtc_r; [exact Hreach1 | exact Hstep]. }
        destruct Hcyc as [_ Hpcs'].
        destruct (Hpcs' i md pck' Hi Hmd) as [[e ->]|(rest' & -> & d' & Hd' & _)].
        { simpl. apply list_lookup_insert_eq. by eapply lookup_lt_Some. }
        + (* the wait cannot have raised: the event exists *)
          simpl in Htask.
          destruct (Event_wait d (world c0)) as [r w1] eqn:Ewait.
          destruct r as [[]|e'|]; simpl in Htask; try discriminate.
          apply Event_wait_raises in Ewait.
          pose proof (reachable_inv _ _ _ Hreach1 i md _ Hmd Hpck) as (passed & Hw & _).
          destruct (steps_events_stay _ _ _ Hreach1 d) as [b Hb].
          { simpl. apply Hexist. rewrite Hw. apply elem_of_app. right. apply list_elem_of_here. }
          congruence.
        + destruct rest' as [|d1 rest1]; [by apply elem_of_nil in Hd' | eauto]. }
    split; [exact Hwaiting|].
    destruct Hwaiting as (d & rest & ->).
    intros Hjoined. unfold joined in Hjoined. rewrite Forall_lookup in Hjoined.
    destruct (Hjoined i _ Hpc) as [?|[e ?]]; discriminate.
Qed.

Lemma dependency_cycle_never_runs_witness :
  let mds := [ex_md_cycle_1; ex_md_cycle_2] in
  let cfg := run_schedule mds [0; 1; 0] (start mds ex_world_ok) in
  past_wait (Waiting ["B"]) = false /\
  _threading_event_per_module (state (world cfg)) !! runtime_name_of ex_md_cycle_1
  <> Some true /\
  ((forall d, d ∈ md_wants ex_md_cycle_1 ->
              is_Some (_threading_event_per_module (state ex_world_ok) !! d)) ->
   (exists d rest, Waiting ["B"] = Waiting (d :: rest)) /\ ~ joined cfg).
Proof.
  apply (dependency_cycle_never_runs [ex_md_cycle_1; ex_md_cycle_2] (fun _ => true)
           ex_world_ok
           (run_schedule [ex_md_cycle_1; ex_md_cycle_2] [0; 1; 0]
              (start [ex_md_cycle_1; ex_md_cycle_2] ex_world_ok))
           0 ex_md_cycle_1 (Waiting ["B"])).
  - apply run_schedule_steps.
  - intros j mdj _ _. apply ex_world_ok_no_event_set.
  - intros [|[|j]] mdj _ Hmdj; simpl in Hmdj; [| |done]; injection Hmdj as <-.
    + exists "B". split; [apply list_elem_of_here|]. by exists 1, ex_md_cycle_2.
    + exists "A". split; [apply list_elem_of_here|]. by exists 0, ex_md_cycle_1.
  - done.
  - done.
  - done.
  - reflexivity.
Defined.

(** ** When the run threads have all ended *)

(** The round's list is empty unless some thread has the second statement
    of its [CleanUp()] before it, or has ended with an exception. *)
Definition round_inv (cfg : Config) : Prop :=
  errors (state (world cfg)) = [] \/
  exists i pc, tasks cfg !! i = Some pc /\
               (pc = Completing \/ pc = CleaningUp \/ pc = Clearing \/
                exists e, pc = Crashed e).

Lemma step_round_inv mds cfg cfg' :
  step mds cfg cfg' -> round_inv cfg -> round_inv cfg'.
Proof.
  intros [i md pc pc' w' cfg0 Hmd Hpc Hstep] Hinv. simpl in *.
  assert (Hi : i < length (tasks cfg0)) by (by eapply lookup_lt_Some).
  assert (Hkeep : state w' = state (world cfg0) ->
                  (exists dependencies, pc = Waiting dependencies) ->
                  round_inv {| world := w'; tasks := <[i := pc']> (tasks cfg0) |}).
  { intros Hstate [dependencies ->].
    destruct Hinv as [Hnil|(j & pcj & Hj & Hpcj)].
    - left. simpl. by rewrite Hstate.
    - right. exists j, pcj. simpl. split; [|done].
      rewrite list_lookup_insert_ne; [done|]. intros <-.
      rewrite Hj in Hpc. injection Hpc as ->.
      destruct Hpcj as [?|[?|[?|[e ?]]]]; discriminate. }
  assert (Hpending : forall pc1,
            pc1 = Completing \/ pc1 = CleaningUp \/ pc1 = Clearing \/
            (exists e, pc1 = Crashed e) ->
            round_inv {| world := w'; tasks := <[i := pc1]> (tasks cfg0) |}).
  { intros pc1 Hpc1. right. exists i, pc1. simpl. split; [|done].
    by apply list_lookup_insert_eq. }
  destruct pc as [[|d rest]|module| | | | |]; simpl in Hstep; try discriminate.
  - pose proof (enter_running_state md (world cfg0)) as Hstate.
    apply after_inv in Hstep as [-> Hnext]. apply Hkeep; [done | by eexists].
  - destruct (Event_wait d (world cfg0)) as [r w1] eqn:Ewait.
    apply Event_wait_returns in Ewait as [-> _].
    apply after_inv in Hstep as [-> _]. apply Hkeep; [done | by eexists].
  - apply after_inv in Hstep as [_ [(a & _ & ->)|[e ->]]]; apply Hpending; eauto 6.
  - apply after_inv in Hstep as [_ [(a & _ & ->)|[e ->]]]; apply Hpending; eauto 6.
  - injection Hstep as <- <-. apply Hpending. auto.
  - injection Hstep as <- <-. by left.
Qed.

Lemma reachable_round_inv mds w cfg :
  reachable mds w cfg -> errors (state w) = [] -> round_inv cfg.
Proof.
  intros Hreach Hnil. unfold reachable in Hreach. revert cfg Hreach.
  apply (rtc_ind_r round_inv (start mds w)); [by left|].
  intros c1 c2 Hreach1 Hstep IH. by eapply step_round_inv.
Qed.

(** X15. The end of [RunModules], under any interleaving of the threads: the
    global list has kept the errors it had; the closing check raises the
    critical error exactly when the global list then holds a critical
    error, and returns exactly when it holds none; and when it raises, the
    abort flag is set.  Started with an empty round's list, the round's
    list is empty again when every thread has run to its end.  The abort
    flag does not tell the outcome the other way: when a critical error is
    recorded between the two statements of another thread's [CleanUp()],
    as in the run of [A] and [C], the flag is set, the error is in no list,
    and [RunModules] returns. *)
Theorem RunModules_outcome (module_definitions : list ModuleDefinition)
    (w w' : World) (outcome : Result unit) :
  RunModules w outcome w' ->
  modules (recipe (state w)) = Some module_definitions ->
  flag_covers (state w) ->
  global_errors (state w) `prefix_of` global_errors (state w') /\
  (outcome = Raised CriticalError <->
   exists e, e ∈ global_errors (state w') /\ critical e = true) /\
  (outcome = Ok tt <-> forall e, e ∈ global_errors (state w') -> critical e = false) /\
  (outcome = Raised CriticalError -> _abort_execution (state w') = true) /\
  (forall cfg,
     reachable module_definitions w cfg ->
     errors (state w) = [] ->
     Forall (fun pc => pc = Finished) (tasks cfg) ->
     errors (state (world cfg)) = []) /\
  (RunModules ex_world_pair (Ok tt) (world ex_cfg_lost) /\
   _abort_execution (state (world ex_cfg_lost)) = true /\
   ledger (state (world ex_cfg_lost)) = []).
Proof.
  intros Hrun Hmods Hcovers.
  destruct Hrun as [Hnone|mds cfg Hmods' Hreach Hjoined]; [congruence|].
  rewrite Hmods in Hmods'. injection Hmods' as <-.
  rewrite CheckErrors_spec. simpl.
  pose proof (steps_flag_covers _ _ _ Hreach Hcovers) as Hcovers'.
  pose proof (steps_global_grows _ _ _ Hreach) as Hgrows.
  unfold flag_covers, global_grows, ledger in *. simpl in *.
  split; [done|].
  rewrite <- existsb_elem_of, <- existsb_false_elem_of.
  repeat apply conj.
  - by destruct (existsb critical (global_errors (state (world cfg)))).
  - by destruct (existsb critical (global_errors (state (world cfg)))).
  - by destruct (existsb critical (global_errors (state (world cfg)))).
  - by destruct (existsb critical (global_errors (state (world cfg)))).
  - destruct (existsb critical (global_errors (state (world cfg)))) eqn:Hex; [|done].
    intros _. apply Hcovers'. by rewrite existsb_app, Hex.
  - intros cfg1 Hreach1 Hnil Hall.
    destruct (reachable_round_inv _ _ _ Hreach1 Hnil) as [Hn|(i & pc & Hi & Hpc)]; [done|].
    rewrite Forall_lookup in Hall. rewrite (Hall i pc Hi) in Hpc.
    destruct Hpc as [?|[?|[?|[e ?]]]]; discriminate.
  - assert (Hcheck : CheckErrors true (world ex_cfg_lost) = (Ok tt, world ex_cfg_lost))
      by (by vm_compute).
    pose proof (RunModules_joined ex_world_pair [ex_md_A; ex_md_C] ex_cfg_lost eq_refl)
      as Hjoin.
    rewrite Hcheck in Hjoin. apply Hjoin.
    + unfold reachable. transitivity ex_cfg_recorded; apply run_schedule_steps.
    + assert (Htasks : tasks ex_cfg_lost = [Finished; Finished]) by (by vm_compute).
      unfold joined. rewrite Htasks. repeat constructor.
  - by vm_compute.
  - by vm_compute.
Qed.

Lemma RunModules_outcome_witness :
  let final := CheckErrors true (world ex_cfg_joined) in
  global_errors (state ex_world_ok) `prefix_of` global_errors (state final.2) /\
  (final.1 = Raised CriticalError <->
   exists e, e ∈ global_errors (state final.2) /\ critical e = true) /\
  (final.1 = Ok tt <->
   forall e, e ∈ global_errors (state final.2) -> critical e = false) /\
  (final.1 = Raised CriticalError -> _abort_execution (state final.2) = true).
Proof.
  cbv zeta.
  assert (Hrun : RunModules ex_world_ok (CheckErrors true (world ex_cfg_joined)).1
                   (CheckErrors true (world ex_cfg_joined)).2).
  { apply (RunModules_joined ex_world_ok [ex_md_A; ex_md_B] ex_cfg_joined).
    - reflexivity.
    - apply run_schedule_steps.
    - assert (Htasks : tasks ex_cfg_joined = [Finished; Finished]) by (by vm_compute).
      unfold joined. rewrite Htasks. repeat constructor. }
  destruct (RunModules_outcome [ex_md_A; ex_md_B] ex_world_ok _ _ Hrun eq_refl)
    as (H1 & H2 & H3 & H4 & _).
  { intros Hcritical. discriminate Hcritical. }
  repeat split; tauto.
Defined.

(** ** The preflight passes *)

Lemma RunPreflights_loop resolver :
  RunPreflights resolver
  = (s ← get_state;
     for_each (default [] (preflights (recipe s))) (run_preflight resolver)).
Proof. reflexivity. Qed.

Lemma CleanUpPreflights_loop :
  CleanUpPreflights
  = (s ← get_state;
     for_each (default [] (preflights (recipe s))) clean_up_preflight).
Proof. reflexivity. Qed.

Lemma no_critical_bind {A B} (m : M A) (f : A -> M B) :
  no_critical m -> (forall a, no_critical (f a)) -> no_critical (m ≫= f).
Proof.
  intros Hm Hf w msg. unfold mbind, M_bind. specialize (Hm w msg).
  destruct (m w) as [[a|e|] w']; simpl in *;
    [apply Hf | intros [= ->]; by apply Hm | done].
Qed.

Lemma no_critical_run_logic p : no_critical (run_logic p).
Proof.
  induction p as [| | | |e k IH|c k IH|cls pop k IH|key v k IH|key d k IH]; simpl;
    first [ done
          | apply no_critical_bind; [|done]; intros w msg; unfold with_state;
            try done; by destruct (GetContainers _ _ _) ].
Qed.

Lemma no_critical_called c p : no_critical (record_call c ;; run_logic p).
Proof. apply no_critical_bind; [done | intros _; apply no_critical_run_logic]. Qed.

Lemma run_logic_keeps {V} (field : DFTimewolfState -> V) p w :
  (forall e s, field (AddError e s) = field s) ->
  (forall c s, field (StoreContainer c s) = field s) ->
  (forall cls pop s, field (GetContainers cls pop s).2 = field s) ->
  (forall k v s, field (AddToCache k v s) = field s) ->
  field (state (run_logic p w).2) = field (state w).
Proof. intros. by apply (respects_run_logic (keeps field)). Qed.

Lemma global_errors_AddError e s : global_errors (AddError e s) = global_errors s.
Proof. unfold AddError. by destruct (critical e). Qed.

Lemma global_errors_GetContainers cls pop s :
  global_errors (GetContainers cls pop s).2 = global_errors s.
Proof. by destruct pop. Qed.

Lemma options_AddError e s : command_line_options (AddError e s) = command_line_options s.
Proof. unfold AddError. by destruct (critical e). Qed.

Lemma options_GetContainers cls pop s :
  command_line_options (GetContainers cls pop s).2 = command_line_options s.
Proof. by destruct pop. Qed.

(** A body that is followed, in a finally clause, by the check of a global
    list without critical error: the check returns, and the outcome is the
    body's. *)
Lemma try_finally_check (body : M unit) w :
  never_blocks body ->
  global_errors (state (body w).2) = global_errors (state w) ->
  existsb critical (global_errors (state w)) = false ->
  (try_finally body (CheckErrors true) w).1 = (body w).1 /\
  state (try_finally body (CheckErrors true) w).2 = state (body w).2 /\
  calls (try_finally body (CheckErrors true) w).2 = calls (body w).2.
Proof.
  intros Hnb Hglobal Hnone. unfold try_finally. specialize (Hnb w).
  destruct (body w) as [[[]|e|] w1]; simpl in *; try done;
    rewrite CheckErrors_spec; simpl; by rewrite Hglobal, Hnone.
Qed.

Section PreflightLemmas.

Variable resolver : Args -> Args -> Args.

(** The body of the try statement of [run_preflight] *)
Let preflight_try (preflight : BaseModule) (new_args : Args) : M unit :=
  record_call (CallSetUp (module_name preflight) new_args) ;;
  run_logic (SetUp preflight new_args) ;;
  match kind preflight with
  | Plain Process =>
      record_call (CallProcess (module_name preflight)) ;;
      run_logic Process
  | ThreadAware _ =>
      raise (ExcException
               {| exc_class := "TypeError";
                  exc_str := "Process() missing 1 required positional argument: 'container'";
                  exc_traceback := "" |})
  end.

Lemma preflight_try_never_blocks preflight new_args :
  never_blocks (preflight_try preflight new_args).
Proof.
  apply never_blocks_bind; [apply never_blocks_record_call | intros _].
  apply never_blocks_bind; [apply never_blocks_run_logic | intros _].
  destruct (kind preflight); [apply never_blocks_called | done].
Qed.

Lemma preflight_try_no_critical preflight new_args :
  no_critical (preflight_try preflight new_args).
Proof.
  apply no_critical_bind; [done | intros _].
  apply no_critical_bind; [apply no_critical_run_logic | intros _].
  destruct (kind preflight); [apply no_critical_called | done].
Qed.

Lemma preflight_try_keeps {V} (field : DFTimewolfState -> V) preflight new_args w :
  (forall e s, field (AddError e s) = field s) ->
  (forall c s, field (StoreContainer c s) = field s) ->
  (forall cls pop s, field (GetContainers cls pop s).2 = field s) ->
  (forall k v s, field (AddToCache k v s) = field s) ->
  field (state (preflight_try preflight new_args w).2) = field (state w).
Proof.
  intros HA HS HG HC.
  apply (respects_bind (keeps field)); [done | intros _].
  apply (respects_bind (keeps field)).
  { by apply (respects_run_logic (keeps field)). }
  intros _. destruct (kind preflight); [|done].
  apply (respects_bind (keeps field)); [done | intros _].
  by apply (respects_run_logic (keeps field)).
Qed.

Lemma run_preflight_unfold pd w :
  run_preflight resolver pd w
  = match _module_pool (state w) !! runtime_name_of pd with
    | Some preflight =>
        try_finally
          (preflight_try preflight
             (resolver (md_args pd) (command_line_options (state w))))
          (CheckErrors true) w
    | None => (Raised (KeyError (runtime_name_of pd)), w)
    end.
Proof.
  unfold run_preflight, mbind at 1, M_bind at 1, get_state at 1.
  unfold mbind at 1, M_bind at 1, getitem.
  by destruct (_module_pool (state w) !! runtime_name_of pd).
Qed.

(** One preflight, when the global list holds no critical error *)
Lemma run_preflight_unchecked pd w :
  existsb critical (global_errors (state w)) = false ->
  (forall msg, (run_preflight resolver pd w).1 <> Raised (ExcCriticalError msg)) /\
  (run_preflight resolver pd w).1 <> Blocked /\
  global_errors (state (run_preflight resolver pd w).2) = global_errors (state w).
Proof.
  intros Hnone. rewrite run_preflight_unfold.
  destruct (_module_pool (state w) !! runtime_name_of pd) as [preflight|]; [|done].
  set (body := preflight_try preflight _).
  assert (Hglobal : global_errors (state (body w).2) = global_errors (state w)).
  { apply (preflight_try_keeps global_errors);
      auto using global_errors_AddError, global_errors_GetContainers. }
  destruct (try_finally_check body w (preflight_try_never_blocks _ _) Hglobal Hnone)
    as (-> & -> & _).
  split; [intros msg; apply preflight_try_no_critical|].
  split; [apply preflight_try_never_blocks | done].
Qed.

Lemma for_each_preflights_unchecked pds : forall w,
  existsb critical (global_errors (state w)) = false ->
  (forall msg, (for_each pds (run_preflight resolver) w).1
               <> Raised (ExcCriticalError msg)) /\
  global_errors (state (for_each pds (run_preflight resolver) w).2)
  = global_errors (state w).
Proof.
  induction pds as [|pd pds IH]; intros w Hnone; [done|].
  destruct (run_preflight_unchecked pd w Hnone) as (Hcrit & Hblock & Hglobal).
  simpl. unfold mbind, M_bind.
  destruct (run_preflight resolver pd w) as [[[]|e|] w1]; simpl in *.
  - destruct (IH w1) as [Hc Hg]; [by rewrite Hglobal|]. split; [done|].
    by rewrite Hg.
  - split; [|done]. intros msg Heq. injection Heq as ->. by apply (Hcrit msg).
  - done.
Qed.

(** One preflight that returns *)
Lemma run_preflight_returns pd w :
  preflight_returns (state w) pd ->
  existsb critical (global_errors (state w)) = false ->
  (run_preflight resolver pd w).1 = Ok tt /\
  calls (run_preflight resolver pd w).2 = calls w ++ preflight_calls resolver (state w) pd /\
  _module_pool (state (run_preflight resolver pd w).2) = _module_pool (state w) /\
  command_line_options (state (run_preflight resolver pd w).2)
  = command_line_options (state w) /\
  global_errors (state (run_preflight resolver pd w).2) = global_errors (state w).
Proof.
  intros (preflight & p & Hpool & Hkind & Hsetup & Hprocess) Hnone.
  rewrite run_preflight_unfold. unfold preflight_calls. rewrite Hpool.
  set (new_args := resolver (md_args pd) (command_line_options (state w))).
  set (body := preflight_try preflight new_args).
  assert (Hglobal : global_errors (state (body w).2) = global_errors (state w)).
  { apply (preflight_try_keeps global_errors);
      auto using global_errors_AddError, global_errors_GetContainers. }
  destruct (try_finally_check body w (preflight_try_never_blocks _ _) Hglobal Hnone)
    as (-> & -> & ->).
  rewrite Hglobal.
  assert (Hsame : _module_pool (state (body w).2) = _module_pool (state w)).
  { apply (preflight_try_keeps _module_pool);
      auto using pool_AddError, pool_GetContainers. }
  assert (Hoptions : command_line_options (state (body w).2)
                     = command_line_options (state w)).
  { apply (preflight_try_keeps command_line_options);
      auto using options_AddError, options_GetContainers. }
  rewrite Hsame, Hoptions.
  assert (Hbody : (body w).1 = Ok tt /\
                  calls (body w).2
                  = calls w ++ [CallSetUp (module_name preflight) new_args;
                                CallProcess (module_name preflight)]).
  { subst body. unfold preflight_try. rewrite Hkind.
    rewrite (bind_ok _ _ _ _ _ (eq_refl : record_call _ w = (Ok tt, _))).
    set (w1 := {| state := state w; log := log w;
                  calls := calls w ++ [CallSetUp (module_name preflight) new_args] |}).
    pose proof (Hsetup new_args w1) as Hok1.
    pose proof (run_logic_calls (SetUp preflight new_args) w1) as Hc1.
    destruct (run_logic (SetUp preflight new_args) w1) as [r w2] eqn:E1.
    simpl in Hok1, Hc1. subst r. rewrite (bind_ok _ _ _ _ _ E1).
    rewrite (bind_ok _ _ _ _ _ (eq_refl : record_call _ w2 = (Ok tt, _))).
    split; [apply Hprocess|]. rewrite run_logic_calls. simpl.
    rewrite Hc1. subst w1. simpl. by rewrite <- app_assoc. }
  destruct Hbody as [-> ->]. done.
Qed.

Lemma for_each_preflights_return pds : forall w,
  Forall (preflight_returns (state w)) pds ->
  existsb critical (global_errors (state w)) = false ->
  exists w',
    for_each pds (run_preflight resolver) w = (Ok tt, w') /\
    calls w' = calls w ++ (pds ≫= preflight_calls resolver (state w)) /\
    _module_pool (state w') = _module_pool (state w) /\
    command_line_options (state w') = command_line_options (state w) /\
    global_errors (state w') = global_errors (state w).
Proof.
  induction pds as [|pd pds IH]; intros w Hall Hnone.
  - exists w. simpl. by rewrite app_nil_r.
  - apply Forall_cons in Hall as [Hpd Hpds].
    destruct (run_preflight_returns pd w Hpd Hnone) as (Hok & Hc & Hp & Ho & Hg).
    destruct (run_preflight resolver pd w) as [r w1] eqn:E. simpl in *. subst r.
    destruct (IH w1) as (w' & Hrun & Hc' & Hp' & Ho' & Hg').
    { eapply Forall_impl; [exact Hpds|]. intros pd'. unfold preflight_returns.
      by rewrite Hp. }
    { by rewrite Hg. }
    exists w'. split; [by rewrite (bind_ok _ _ _ _ _ E)|].
    split; [|split; [congruence|split; congruence]].
    rewrite Hc', Hc, <- app_assoc. f_equal. f_equal.
    apply (list_bind_ext (preflight_calls resolver (state w1))); [|done]. intros pd'. unfold preflight_calls.
    by rewrite Hp, Ho.
Qed.

End PreflightLemmas.

Lemma clean_up_preflight_unfold pd w :
  clean_up_preflight pd w
  = match _module_pool (state w) !! runtime_name_of pd with
    | Some preflight =>
        try_finally
          (record_call (CallModuleCleanUp (module_name preflight)) ;;
           run_logic (ModuleCleanUp preflight))
          (CheckErrors true) w
    | None => (Raised (KeyError (runtime_name_of pd)), w)
    end.
Proof.
  unfold clean_up_preflight, mbind at 1, M_bind at 1, get_state at 1.
  unfold mbind at 1, M_bind at 1, getitem.
  by destruct (_module_pool (state w) !! runtime_name_of pd).
Qed.

Lemma clean_up_preflight_unchecked pd w :
  existsb critical (global_errors (state w)) = false ->
  (forall msg, (clean_up_preflight pd w).1 <> Raised (ExcCriticalError msg)) /\
  (clean_up_preflight pd w).1 <> Blocked /\
  global_errors (state (clean_up_preflight pd w).2) = global_errors (state w).
Proof.
  intros Hnone. rewrite clean_up_preflight_unfold.
  destruct (_module_pool (state w) !! runtime_name_of pd) as [preflight|]; [|done].
  set (body := record_call (CallModuleCleanUp (module_name preflight)) ;;
               run_logic (ModuleCleanUp preflight)).
  assert (Hglobal : global_errors (state (body w).2) = global_errors (state w)).
  { apply (respects_bind (keeps global_errors)); [done | intros _].
    intros w'. apply (run_logic_keeps global_errors);
      auto using global_errors_AddError, global_errors_GetContainers. }
  destruct (try_finally_check body w (never_blocks_called _ _) Hglobal Hnone)
    as (-> & -> & _).
  split; [intros msg; apply no_critical_called|].
  split; [apply never_blocks_called | done].
Qed.

Lemma for_each_clean_up_unchecked pds : forall w,
  existsb critical (global_errors (state w)) = false ->
  (forall msg, (for_each pds clean_up_preflight w).1
               <> Raised (ExcCriticalError msg)) /\
  global_errors (state (for_each pds clean_up_preflight w).2)
  = global_errors (state w).
Proof.
  induction pds as [|pd pds IH]; intros w Hnone; [done|].
  destruct (clean_up_preflight_unchecked pd w Hnone) as (Hcrit & Hblock & Hglobal).
  simpl. unfold mbind, M_bind.
  destruct (clean_up_preflight pd w) as [[[]|e|] w1]; simpl in *.
  - destruct (IH w1) as [Hc Hg]; [by rewrite Hglobal|]. split; [done|].
    by rewrite Hg.
  - split; [|done]. intros msg Heq. injection Heq as ->. by apply (Hcrit msg).
  - done.
Qed.

(** X16. The checks of the preflight passes read the global list only, and
    nothing in a preflight pass writes it: when the global list holds no
    critical error on entry, [RunPreflights] and [CleanUpPreflights] never
    raise the critical error of [CheckErrors], whatever the preflights
    record through [AddError], and they leave the global list as it was. *)
Theorem preflight_checks_never_fire (resolver : Args -> Args -> Args) (w : World)
    (Hnone : existsb critical (global_errors (state w)) = false) :
  (forall msg, (RunPreflights resolver w).1 <> Raised (ExcCriticalError msg)) /\
  global_errors (state (RunPreflights resolver w).2) = global_errors (state w) /\
  (forall msg, (CleanUpPreflights w).1 <> Raised (ExcCriticalError msg)) /\
  global_errors (state (CleanUpPreflights w).2) = global_errors (state w).
Proof.
  rewrite RunPreflights_loop, CleanUpPreflights_loop.
  unfold mbind, M_bind, get_state.
  destruct (for_each_preflights_unchecked resolver
              (default [] (preflights (recipe (state w)))) w Hnone) as [H1 H2].
  destruct (for_each_clean_up_unchecked
              (default [] (preflights (recipe (state w)))) w Hnone) as [H3 H4].
  done.
Qed.

Lemma preflight_checks_never_fire_witness :
  let w := ex_world_preflights ex_preflight_1_raising in
  existsb critical (global_errors (state w)) = false /\
  ((forall msg, (RunPreflights ex_resolver w).1 <> Raised (ExcCriticalError msg)) /\
   global_errors (state (RunPreflights ex_resolver w).2) = global_errors (state w) /\
   (forall msg, (CleanUpPreflights w).1 <> Raised (ExcCriticalError msg)) /\
   global_errors (state (CleanUpPreflights w).2) = global_errors (state w)).
Proof.
  cbv zeta. split; [reflexivity|].
  apply (preflight_checks_never_fire ex_resolver
           (ex_world_preflights ex_preflight_1_raising)).
  reflexivity.
Defined.

(** X17. [RunPreflights] runs the preflights one after the other in the order
    of the recipe, [SetUp] then [Process] for each.  When the global list
    holds no critical error and the first preflights of the recipe are in
    the pool and return: if they are all the preflights, [RunPreflights]
    returns after exactly their calls; if the next preflight is missing from
    the pool, [RunPreflights] raises the [KeyError] of its name; if the
    [SetUp] of the next preflight raises, [RunPreflights] raises that
    exception after the call of this [SetUp]; in both cases no later
    preflight is called. *)
Theorem RunPreflights_in_order (resolver : Args -> Args -> Args) (w : World)
    (before rest : list ModuleDefinition)
    (Hrecipe : preflights (recipe (state w)) = Some (before ++ rest))
    (Hbefore : Forall (preflight_returns (state w)) before)
    (Hnone : existsb critical (global_errors (state w)) = false) :
  let run := RunPreflights resolver w in
  let called := before ≫= preflight_calls resolver (state w) in
  (rest = [] -> run.1 = Ok tt /\ calls run.2 = calls w ++ called) /\
  (forall pd after,
     rest = pd :: after ->
     _module_pool (state w) !! runtime_name_of pd = None ->
     run.1 = Raised (KeyError (runtime_name_of pd)) /\
     calls run.2 = calls w ++ called) /\
  (forall pd after preflight e,
     rest = pd :: after ->
     _module_pool (state w) !! runtime_name_of pd = Some preflight ->
     (forall args w', (run_logic (SetUp preflight args) w').1 = Raised e) ->
     run.1 = Raised e /\
     calls run.2
     = calls w ++ called
       ++ [CallSetUp (module_name preflight)
             (resolver (md_args pd) (command_line_options (state w)))]).
Proof.
  cbv zeta.
  assert (Hloop : RunPreflights resolver w
                  = for_each (before ++ rest) (run_preflight resolver) w).
  { rewrite RunPreflights_loop. unfold mbind at 1, M_bind at 1, get_state.
    by rewrite Hrecipe. }
  rewrite Hloop, for_each_app.
  destruct (for_each_preflights_return resolver before w Hbefore Hnone)
    as (w1 & Hrun & Hcalls & Hpool & Hoptions & Hglobal).
  rewrite !(bind_ok _ _ _ _ _ Hrun).
  split; [|split].
  - intros ->. simpl. by rewrite Hcalls.
  - intros pd after -> Hmissing.
    change (for_each (pd :: after) ?body) with (body pd ;; for_each after body).
    assert (E : run_preflight resolver pd w1
                = (Raised (KeyError (runtime_name_of pd)), w1)).
    { rewrite run_preflight_unfold. by rewrite Hpool, Hmissing. }
    rewrite (bind_raised _ _ _ _ _ E). simpl. by rewrite Hcalls.
  - intros pd after preflight e -> Hfound Hraises.
    change (for_each (pd :: after) ?body) with (body pd ;; for_each after body).
    set (new_args := resolver (md_args pd) (command_line_options (state w))).
    assert (E : (run_preflight resolver pd w1).1 = Raised e /\
                calls (run_preflight resolver pd w1).2
                = calls w1 ++ [CallSetUp (module_name preflight) new_args]).
    { rewrite run_preflight_unfold. rewrite Hpool, Hfound, Hoptions.
      fold new_args.
      set (body := record_call (CallSetUp (module_name preflight) new_args) ;; _).
      assert (Hbody : (body w1).1 = Raised e /\
                      calls (body w1).2
                      = calls w1 ++ [CallSetUp (module_name preflight) new_args] /\
                      global_errors (state (body w1).2) = global_errors (state w1)).
      { subst body.
        rewrite (bind_ok _ _ _ _ _ (eq_refl : record_call _ w1 = (Ok tt, _))).
        set (w2 := {| state := state w1; log := log w1;
                      calls := calls w1 ++ [CallSetUp (module_name preflight) new_args] |}).
        pose proof (Hraises new_args w2) as Hr.
        pose proof (run_logic_calls (SetUp preflight new_args) w2) as Hc.
        pose proof (run_logic_keeps global_errors (SetUp preflight new_args) w2
                      global_errors_AddError (fun _ _ => eq_refl)
                      global_errors_GetContainers (fun _ _ _ => eq_refl)) as Hg.
        destruct (run_logic (SetUp preflight new_args) w2) as [r w3] eqn:E2.
        simpl in Hr, Hc, Hg. subst r.
        rewrite (bind_raised _ _ _ _ _ E2). simpl. done. }
      destruct Hbody as (Hr & Hc & Hg).
      unfold try_finally.
      destruct (body w1) as [r w3]. simpl in Hr, Hc, Hg. subst r.
      rewrite CheckErrors_spec. simpl. rewrite Hg, Hglobal, Hnone. simpl. done. }
    destruct E as [Hr Hc].
    destruct (run_preflight resolver pd w1) as [r w3] eqn:E3. simpl in Hr, Hc.
    subst r. rewrite (bind_raised _ _ _ _ _ E3). simpl.
    by rewrite Hc, Hcalls, <- app_assoc.
Qed.

Lemma RunPreflights_in_order_witness :
  let w := ex_world_preflights ex_preflight_1 in
  let before := [ex_preflight_definition "P1"; ex_preflight_definition "P2"] in
  preflights (recipe (state w)) = Some (before ++ []) /\
  Forall (preflight_returns (state w)) before /\
  existsb critical (global_errors (state w)) = false /\
  (RunPreflights ex_resolver w).1 = Ok tt /\
  calls (RunPreflights ex_resolver w).2
  = calls w ++ (before ≫= preflight_calls ex_resolver (state w)).
Proof.
  cbv zeta.
  assert (Hbefore : Forall (preflight_returns (state (ex_world_preflights ex_preflight_1)))
                      [ex_preflight_definition "P1"; ex_preflight_definition "P2"]).
  { repeat constructor.
    - exists ex_preflight_1, (DoAddError ex_critical Return).
      repeat split; reflexivity.
    - exists ex_preflight_2, Return. repeat split; reflexivity. }
  split; [reflexivity|]. split; [exact Hbefore|]. split; [reflexivity|].
  apply (proj1 (RunPreflights_in_order ex_resolver
                  (ex_world_preflights ex_preflight_1)
                  [ex_preflight_definition "P1"; ex_preflight_definition "P2"] []
                  eq_refl Hbefore eq_refl)).
  reflexivity.
Defined.

(** ** Loading a recipe *)

Section LoadingLemmas.

Variable import_module : string -> option string.
Variable instantiate : string -> string -> Exc + BaseModule.
Variable module_locations : gmap string string.

Local Abbreviation import_one := (import_recipe_module import_module module_locations).

Lemma import_one_state module w : state (import_one module w).2 = state w.
Proof.
  unfold import_recipe_module.
  destruct (module_locations !! md_name module) as [location|].
  - unfold mbind, M_bind, logger. simpl. by destruct (import_module location).
  - unfold mbind, M_bind, get_state. by destruct (recipe_name (recipe (state w))).
Qed.

Lemma import_one_loadable module w :
  loadable import_module module_locations module ->
  import_one module w
  = (Ok tt, {| state := state w;
               log := log w ++ loading_records module_locations [module];
               calls := calls w |}).
Proof.
  intros (location & Hloc & Himport).
  unfold import_recipe_module, loading_records.
  simpl. rewrite app_nil_r, Hloc.
  unfold mbind, M_bind, logger. by rewrite Himport.
Qed.

Lemma import_one_ok module w :
  (import_one module w).1 = Ok tt -> loadable import_module module_locations module.
Proof.
  unfold import_recipe_module, loadable.
  destruct (module_locations !! md_name module) as [location|] eqn:Hloc.
  - unfold mbind, M_bind, logger. simpl.
    destruct (import_module location) eqn:Himport; [done|]. by exists location.
  - unfold mbind, M_bind, get_state. by destruct (recipe_name (recipe (state w))).
Qed.

Lemma import_one_outcome module w :
  (exists e, (import_one module w).1 = Raised e) \/ (import_one module w).1 = Ok tt.
Proof.
  unfold import_recipe_module.
  destruct (module_locations !! md_name module) as [location|].
  - unfold mbind, M_bind, logger. simpl.
    destruct (import_module location); [left; by eexists | by right].
  - unfold mbind, M_bind, get_state. left.
    destruct (recipe_name (recipe (state w))); by eexists.
Qed.

Lemma import_all_state definitions : forall w,
  state (for_each definitions import_one w).2 = state w.
Proof.
  induction definitions as [|module rest IH]; intros w; [done|].
  simpl. unfold mbind, M_bind.
  pose proof (import_one_state module w) as Hstate.
  destruct (import_one module w) as [[[]|e|] w1]; simpl in *; [|done|done].
  by rewrite IH.
Qed.

Lemma import_all_loadable definitions : forall w,
  Forall (loadable import_module module_locations) definitions ->
  for_each definitions import_one w
  = (Ok tt, {| state := state w;
               log := log w ++ loading_records module_locations definitions;
               calls := calls w |}).
Proof.
  induction definitions as [|module rest IH]; intros w Hall.
  - simpl. unfold pass, mret, M_ret, loading_records. simpl. rewrite app_nil_r.
    by destruct w.
  - apply Forall_cons in Hall as [Hmodule Hrest].
    change (for_each (module :: rest) ?body) with (body module ;; for_each rest body).
    rewrite (bind_ok _ _ _ _ _ (import_one_loadable module w Hmodule)).
    rewrite (IH _ Hrest). simpl. unfold loading_records.
    by rewrite app_nil_r, <- app_assoc.
Qed.

Lemma import_all_outcome definitions : forall w,
  ((for_each definitions import_one w).1 = Ok tt /\
   Forall (loadable import_module module_locations) definitions) \/
  ((exists e, (for_each definitions import_one w).1 = Raised e) /\
   ~ Forall (loadable import_module module_locations) definitions).
Proof.
  induction definitions as [|module rest IH]; intros w; [by left|].
  simpl. unfold mbind, M_bind.
  pose proof (import_one_ok module w) as Hok.
  pose proof (import_one_loadable module w) as Hrun.
  destruct (import_one_outcome module w) as [[e He]|He];
    destruct (import_one module w) as [r w1]; simpl in *; subst r.
  - right. split; [by exists e|]. intros Hall. apply Forall_cons in Hall as [Hm _].
    by specialize (Hrun Hm).
  - destruct (IH w1) as [[Hr Hall]|[Hr Hnot]].
    + left. split; [done|]. apply Forall_cons. split; [by apply Hok | done].
    + right. split; [done|]. intros Hall. apply Forall_cons in Hall as [_ Hall].
      by apply Hnot.
Qed.

Local Abbreviation load_one := (load_module instantiate).
Local Abbreviation filled := (filled_pool instantiate).

Lemma load_all definitions : forall w,
  Forall (fun md => is_Some (instance_of instantiate md)) definitions ->
  for_each definitions load_one w
  = (Ok tt, {| state := set_module_pool (filled definitions (_module_pool (state w)))
                          (state w);
               log := log w; calls := calls w |}).
Proof.
  induction definitions as [|md rest IH]; intros w Hall.
  - simpl. unfold pass, mret, M_ret. by destruct w as [[] ? ?].
  - apply Forall_cons in Hall as [[module Hmodule] Hrest].
    change (for_each (md :: rest) ?body) with (body md ;; for_each rest body).
    assert (E : load_one md w
                = (Ok tt, {| state := set_module_pool
                                        (<[pool_key md := module]> (_module_pool (state w)))
                                        (state w);
                             log := log w; calls := calls w |})).
    { unfold load_module. unfold instance_of in Hmodule.
      destruct (instantiate (md_name md) (pool_key md)) as [e|m]; [done|].
      by injection Hmodule as ->. }
    rewrite (bind_ok _ _ _ _ _ E), (IH _ Hrest). simpl.
    unfold filled_pool at 2. simpl. by rewrite Hmodule.
Qed.

Lemma filled_other definitions key : forall pool,
  (forall md, md ∈ definitions -> pool_key md <> key) ->
  filled definitions pool !! key = pool !! key.
Proof.
  induction definitions as [|md rest IH]; intros pool Hother; [done|].
  unfold filled_pool in *. simpl.
  rewrite IH by (intros md' Hin; apply Hother; by right).
  destruct (instance_of instantiate md); [|done].
  apply lookup_insert_ne. apply Hother. by left.
Qed.

Lemma filled_some definitions : forall pool md,
  Forall (fun md => is_Some (instance_of instantiate md)) definitions ->
  md ∈ definitions ->
  exists md', md' ∈ definitions /\ pool_key md' = pool_key md /\
              filled definitions pool !! pool_key md = instance_of instantiate md'.
Proof.
  induction definitions as [|md0 rest IH]; intros pool md Hall Hin.
  - by apply elem_of_nil in Hin.
  - apply Forall_cons in Hall as [[module Hmodule] Hrest].
    change (filled (md0 :: rest) pool)
      with (filled rest (match instance_of instantiate md0 with
                         | Some module => <[pool_key md0 := module]> pool
                         | None => pool
                         end)).
    rewrite Hmodule.
    destruct (decide (Exists (fun md' => pool_key md' = pool_key md) rest)) as [Hlater|Hnone].
    + apply Exists_exists in Hlater as (md1 & Hin1 & Hkey1).
      destruct (IH (<[pool_key md0 := module]> pool) md1 Hrest Hin1)
        as (md' & Hin' & Hkey' & Hlookup).
      exists md'. split; [by right|]. split; [congruence|].
      by rewrite <- Hkey1.
    + assert (Hother : forall md', md' ∈ rest -> pool_key md' <> pool_key md).
      { intros md' Hin' Hkey. apply Hnone. apply Exists_exists. by exists md'. }
      rewrite filled_other by done.
      apply elem_of_cons in Hin as [->|Hin]; [|by destruct (Hother md Hin)].
      exists md0. split; [by left|]. split; [done|].
      by rewrite lookup_insert_eq.
Qed.

(** The last definition with a key gives the key its module. *)
Lemma filled_last before md after : forall pool,
  is_Some (instance_of instantiate md) ->
  (forall md', md' ∈ after -> pool_key md' <> pool_key md) ->
  filled (before ++ md :: after) pool !! pool_key md = instance_of instantiate md.
Proof.
  induction before as [|md0 rest IH]; intros pool [module Hmodule] Hother.
  - change (filled ([] ++ md :: after) pool)
      with (filled after (match instance_of instantiate md with
                          | Some module => <[pool_key md := module]> pool
                          | None => pool
                          end)).
    rewrite filled_other by done. rewrite Hmodule. by rewrite lookup_insert_eq.
  - change (filled ((md0 :: rest) ++ md :: after) pool)
      with (filled (rest ++ md :: after)
              (match instance_of instantiate md0 with
               | Some module => <[pool_key md0 := module]> pool
               | None => pool
               end)).
    by apply IH.
Qed.

Lemma LoadRecipe_unfold recipe' w :
  LoadRecipe import_module instantiate recipe' module_locations w
  = (ImportRecipeModules import_module module_locations ;;
     for_each (default [] (modules recipe') ++ default [] (preflights recipe')) load_one)
      {| state := set_recipe recipe' (state w); log := log w; calls := calls w |}.
Proof. reflexivity. Qed.

Lemma ImportRecipeModules_unfold w :
  ImportRecipeModules import_module module_locations w
  = match modules (recipe (state w)) with
    | None => (Raised (KeyError "modules"), w)
    | Some module_definitions =>
        for_each (module_definitions ++ default [] (preflights (recipe (state w))))
          import_one w
    end.
Proof.
  unfold ImportRecipeModules, mbind, M_bind, get_state.
  by destruct (modules (recipe (state w))).
Qed.

End LoadingLemmas.

(** X18. [ImportRecipeModules] checks the definitions of the recipe in order,
    the modules before the preflights, and stops at the first one that is
    not in the mapping or whose Python module cannot be imported.  It
    returns exactly when every definition can be loaded, it never changes
    the state, and it logs one line for each definition that it found in
    the mapping, the failing one included.  For a definition that is not in
    the mapping the error names the recipe; a recipe without a name then
    gives [KeyError] instead of [RecipeParseError]. *)
Theorem ImportRecipeModules_first_failure (import_module : string -> option string)
    (module_locations : gmap string string) (w : World)
    (module_definitions : list ModuleDefinition)
    (Hmodules : modules (recipe (state w)) = Some module_definitions) :
  let definitions :=
    module_definitions ++ default [] (preflights (recipe (state w))) in
  let run := ImportRecipeModules import_module module_locations w in
  state run.2 = state w /\
  calls run.2 = calls w /\
  (run.1 = Ok tt <-> Forall (loadable import_module module_locations) definitions) /\
  (Forall (loadable import_module module_locations) definitions ->
   log run.2 = log w ++ loading_records module_locations definitions) /\
  (forall before module after,
     definitions = before ++ module :: after ->
     Forall (loadable import_module module_locations) before ->
     (module_locations !! md_name module = None ->
      run.1 = Raised (match recipe_name (recipe (state w)) with
                      | Some recipe_name =>
                          RecipeParseError (cannot_be_found recipe_name (md_name module))
                      | None => KeyError "name"
                      end) /\
      log run.2 = log w ++ loading_records module_locations before) /\
     (forall location exception,
        module_locations !! md_name module = Some location ->
        import_module location = Some exception ->
        run.1 = Raised (RecipeParseError
                          (cannot_import (md_name module) location exception)) /\
        log run.2 = log w ++ loading_records module_locations (before ++ [module]))).
Proof.
  cbv zeta. rewrite ImportRecipeModules_unfold, Hmodules.
  set (definitions := module_definitions ++ _).
  split; [apply import_all_state|].
  split.
  { clearbody definitions. clear Hmodules. revert w.
    induction definitions as [|module rest IH]; intros w; [done|].
    simpl. unfold mbind, M_bind.
    assert (Hone : calls (import_recipe_module import_module module_locations module w).2
                   = calls w).
    { unfold import_recipe_module.
      destruct (module_locations !! md_name module) as [location|].
      - unfold mbind, M_bind, logger. simpl. by destruct (import_module location).
      - unfold mbind, M_bind, get_state. by destruct (recipe_name (recipe (state w))). }
    destruct (import_recipe_module import_module module_locations module w)
      as [[[]|e|] w1]; simpl in *; [|done|done].
    by rewrite IH. }
  split.
  { destruct (import_all_outcome import_module module_locations definitions w)
      as [[Hr Hall]|[[e Hr] Hnot]]; [done|].
    split; [by rewrite Hr | done]. }
  split.
  { intros Hall. by rewrite (import_all_loadable _ _ _ _ Hall). }
  intros before module after -> Hbefore.
  rewrite for_each_app.
  rewrite (bind_ok _ _ _ _ _ (import_all_loadable _ _ _ _ Hbefore)).
  change (for_each (module :: after) ?body) with (body module ;; for_each after body).
  split.
  - intros Hnone.
    set (w1 := {| state := state w;
                  log := log w ++ loading_records module_locations before;
                  calls := calls w |}).
    assert (E : import_recipe_module import_module module_locations module w1
                = (Raised (match recipe_name (recipe (state w)) with
                           | Some recipe_name =>
                               RecipeParseError
                                 (cannot_be_found recipe_name (md_name module))
                           | None => KeyError "name"
                           end), w1)).
    { unfold import_recipe_module. rewrite Hnone.
      unfold mbind, M_bind, get_state. simpl.
      by destruct (recipe_name (recipe (state w))). }
    by rewrite (bind_raised _ _ _ _ _ E).
  - intros location exception Hloc Himport.
    set (w1 := {| state := state w;
                  log := log w ++ loading_records module_locations before;
                  calls := calls w |}).
    assert (E : import_recipe_module import_module module_locations module w1
                = (Raised (RecipeParseError
                             (cannot_import (md_name module) location exception)),
                   {| state := state w;
                      log := log w ++ loading_records module_locations (before ++ [module]);
                      calls := calls w |})).
    { unfold import_recipe_module. rewrite Hloc.
      unfold mbind, M_bind, logger. rewrite Himport. simpl.
      unfold loading_records. rewrite bind_app. simpl. rewrite Hloc.
      by rewrite app_nil_r, app_assoc. }
    by rewrite (bind_raised _ _ _ _ _ E).
Qed.

Lemma ImportRecipeModules_first_failure_witness :
  let w := {| state := set_recipe (ex_recipe [ex_md_A; ex_md_B]) init;
              log := []; calls := [] |} in
  let run := ImportRecipeModules ex_import_module ex_locations w in
  modules (recipe (state w)) = Some [ex_md_A; ex_md_B] /\
  run.1 = Raised (RecipeParseError
                    (cannot_import "Exporter" "dftimewolf.lib.b"
                       "No module named 'dftimewolf.lib.b'")) /\
  log run.2 = log w ++ loading_records ex_locations ([ex_md_A] ++ [ex_md_B]).
Proof.
  cbv zeta. split; [reflexivity|].
  pose proof (ImportRecipeModules_first_failure ex_import_module ex_locations
                {| state := set_recipe (ex_recipe [ex_md_A; ex_md_B]) init;
                   log := []; calls := [] |}
                [ex_md_A; ex_md_B] eq_refl) as H.
  cbv zeta in H. destruct H as (_ & _ & _ & _ & H).
  apply (proj2 (H [ex_md_A] ex_md_B [] eq_refl
                  ltac:(repeat constructor; exists "dftimewolf.lib.a"; by split))
           "dftimewolf.lib.b" "No module named 'dftimewolf.lib.b'"); reflexivity.
Defined.

(** X19. When every definition of the recipe can be loaded and instantiated,
    [LoadRecipe] returns, the state holds the recipe, and nothing but the
    recipe and the pool has changed.  The pool holds, under the key of each
    definition (its runtime name, or its name when the runtime name is
    absent or empty), the instance of the last definition with that key:
    a definition after which no definition has the same key finds its own
    instance there.  A key of no definition is as it was before. *)
Theorem LoadRecipe_fills_pool (import_module : string -> option string)
    (instantiate : string -> string -> Exc + BaseModule)
    (recipe' : Recipe) (module_locations : gmap string string) (w : World)
    (module_definitions : list ModuleDefinition)
    (Hmodules : modules recipe' = Some module_definitions) :
  let definitions := module_definitions ++ default [] (preflights recipe') in
  let run := LoadRecipe import_module instantiate recipe' module_locations w in
  Forall (loadable import_module module_locations) definitions ->
  Forall (fun md => is_Some (instance_of instantiate md)) definitions ->
  run.1 = Ok tt /\
  recipe (state run.2) = recipe' /\
  state run.2 = set_module_pool (_module_pool (state run.2)) (set_recipe recipe' (state w)) /\
  (forall before md after,
     definitions = before ++ md :: after ->
     (forall md', md' ∈ after -> pool_key md' <> pool_key md) ->
     _module_pool (state run.2) !! pool_key md = instance_of instantiate md) /\
  (forall md, md ∈ definitions -> is_Some (_module_pool (state run.2) !! pool_key md)) /\
  (forall key, (forall md, md ∈ definitions -> pool_key md <> key) ->
     _module_pool (state run.2) !! key = _module_pool (state w) !! key).
Proof.
  cbv zeta. intros Hloadable Hinstances.
  rewrite LoadRecipe_unfold.
  set (w0 := {| state := set_recipe recipe' (state w); log := log w; calls := calls w |}).
  assert (Himport : ImportRecipeModules import_module module_locations w0
                    = (Ok tt, {| state := state w0;
                                 log := log w0 ++ loading_records module_locations
                                          (module_definitions
                                           ++ default [] (preflights recipe'));
                                 calls := calls w0 |})).
  { rewrite ImportRecipeModules_unfold.
    change (recipe (state w0)) with recipe'. rewrite Hmodules.
    by apply import_all_loadable. }
  rewrite !(bind_ok _ _ _ _ _ Himport), Hmodules. simpl default.
  rewrite (load_all instantiate _ _ Hinstances). simpl.
  split; [done|]. split; [done|]. split; [done|]. split; [|split].
  - intros before md after Hsplit Hother. rewrite Hsplit. apply filled_last; [|done].
    apply (proj1 (Forall_forall _ _) Hinstances). rewrite Hsplit.
    apply elem_of_app. right. apply list_elem_of_here.
  - intros md Hin.
    destruct (filled_some instantiate _ (_module_pool (state w)) md Hinstances Hin)
      as (md' & Hin' & _ & ->).
    by apply (proj1 (Forall_forall _ _) Hinstances).
  - intros key Hother. by apply filled_other.
Qed.

Lemma LoadRecipe_fills_pool_witness :
  let definitions := [ex_md_A; ex_md_B] ++ default [] (preflights (ex_recipe [ex_md_A; ex_md_B])) in
  let run := LoadRecipe ex_import_all ex_instantiate (ex_recipe [ex_md_A; ex_md_B])
               ex_locations initial_world in
  modules (ex_recipe [ex_md_A; ex_md_B]) = Some [ex_md_A; ex_md_B] /\
  Forall (loadable ex_import_all ex_locations) definitions /\
  Forall (fun md => is_Some (instance_of ex_instantiate md)) definitions /\
  run.1 = Ok tt /\
  recipe (state run.2) = ex_recipe [ex_md_A; ex_md_B].
Proof.
  cbv zeta.
  assert (Hloadable : Forall (loadable ex_import_all ex_locations)
                        ([ex_md_A; ex_md_B]
                         ++ default [] (preflights (ex_recipe [ex_md_A; ex_md_B])))).
  { repeat constructor.
    - exists "dftimewolf.lib.a". by split.
    - exists "dftimewolf.lib.b". by split. }
  assert (Hinstances : Forall (fun md => is_Some (instance_of ex_instantiate md))
                         ([ex_md_A; ex_md_B]
                          ++ default [] (preflights (ex_recipe [ex_md_A; ex_md_B])))).
  { repeat constructor; by eexists. }
  split; [reflexivity|]. split; [exact Hloadable|]. split; [exact Hinstances|].
  destruct (LoadRecipe_fills_pool ex_import_all ex_instantiate
              (ex_recipe [ex_md_A; ex_md_B]) ex_locations initial_world
              [ex_md_A; ex_md_B] eq_refl Hloadable Hinstances) as (H1 & H2 & _).
  by split.
Defined.

(** X20. [LoadRecipe] replaces the recipe of the state before it checks it:
    when the recipe has no list of modules, or a definition cannot be
    loaded, [LoadRecipe] raises ([KeyError] on the missing list, although it
    reads the list itself with a default) and leaves the state with the
    rejected recipe and with the pool as it was; no module has been
    instantiated. *)
Theorem LoadRecipe_rejected_recipe_stays (import_module : string -> option string)
    (instantiate : string -> string -> Exc + BaseModule)
    (recipe' : Recipe) (module_locations : gmap string string) (w : World)
    (Hrejected :
       modules recipe' = None \/
       ~ Forall (loadable import_module module_locations)
           (default [] (modules recipe') ++ default [] (preflights recipe'))) :
  let run := LoadRecipe import_module instantiate recipe' module_locations w in
  (exists e, run.1 = Raised e) /\
  (modules recipe' = None -> run.1 = Raised (KeyError "modules")) /\
  state run.2 = set_recipe recipe' (state w) /\
  calls run.2 = calls w.
Proof.
  cbv zeta. rewrite LoadRecipe_unfold.
  set (w0 := {| state := set_recipe recipe' (state w); log := log w; calls := calls w |}).
  assert (Himport : exists e w1,
            ImportRecipeModules import_module module_locations w0 = (Raised e, w1) /\
            state w1 = state w0 /\ calls w1 = calls w0 /\
            (modules recipe' = None -> e = KeyError "modules")).
  { rewrite ImportRecipeModules_unfold.
    change (recipe (state w0)) with recipe'.
    destruct (modules recipe') as [module_definitions|] eqn:Hmodules.
    - destruct Hrejected as [|Hnot]; [done|]. simpl in Hnot.
      set (definitions := module_definitions ++ default [] (preflights recipe')) in *.
      pose proof (import_all_state import_module module_locations definitions w0) as Hstate.
      assert (Hcalls : forall l w, calls (for_each l (import_recipe_module import_module
                                                       module_locations) w).2 = calls w).
      { clear. induction l as [|module rest IH]; intros w; [done|].
        simpl. unfold mbind, M_bind.
        assert (Hone : calls (import_recipe_module import_module module_locations
                                module w).2 = calls w).
        { unfold import_recipe_module.
          destruct (module_locations !! md_name module) as [location|].
          - unfold mbind, M_bind, logger. simpl. by destruct (import_module location).
          - unfold mbind, M_bind, get_state.
            by destruct (recipe_name (recipe (state w))). }
        destruct (import_recipe_module import_module module_locations module w)
          as [[[]|e|] w1]; simpl in *; [|done|done].
        by rewrite IH. }
      specialize (Hcalls definitions w0).
      destruct (import_all_outcome import_module module_locations definitions w0)
        as [[_ Hall]|[[e Hr] _]]; [done|].
      destruct (for_each definitions _ w0) as [r w1]. simpl in *. subst r.
      by exists e, w1.
    - by exists (KeyError "modules"), w0. }
  destruct Himport as (e & w1 & Hrun & Hstate & Hcalls & Hkey).
  rewrite !(bind_raised _ _ _ _ _ Hrun). simpl.
  split; [by exists e|]. split; [|done].
  intros Hnone. by rewrite (Hkey Hnone).
Qed.

Lemma LoadRecipe_rejected_recipe_stays_witness :
  let recipe' := {| recipe_name := Some "example"; modules := None;
                    preflights := Some [ex_md_A] |} in
  let run := LoadRecipe ex_import_all ex_instantiate recipe' ex_locations initial_world in
  run.1 = Raised (KeyError "modules") /\
  state run.2 = set_recipe recipe' init.
Proof.
  cbv zeta.
  destruct (LoadRecipe_rejected_recipe_stays ex_import_all ex_instantiate
              {| recipe_name := Some "example"; modules := None;
                 preflights := Some [ex_md_A] |}
              ex_locations initial_world (or_introl eq_refl)) as (_ & H1 & H2 & _).
  split; [by apply H1 | exact H2].
Defined.

Lemma pool_key_nonempty md : md_name md <> "" -> pool_key md <> "".
Proof. unfold pool_key. by destruct (md_runtime_name md) as [[|a r]|]. Qed.

Lemma LoadRecipe_loaded import_module instantiate recipe' module_locations w
    module_definitions :
  modules recipe' = Some module_definitions ->
  Forall (loadable import_module module_locations)
    (module_definitions ++ default [] (preflights recipe')) ->
  Forall (fun md => is_Some (instance_of instantiate md))
    (module_definitions ++ default [] (preflights recipe')) ->
  _module_pool (state (LoadRecipe import_module instantiate recipe' module_locations w).2)
  = filled_pool instantiate (module_definitions ++ default [] (preflights recipe'))
      (_module_pool (state w)).
Proof.
  intros Hmodules Hloadable Hinstances. rewrite LoadRecipe_unfold.
  set (w0 := {| state := set_recipe recipe' (state w); log := log w; calls := calls w |}).
  assert (Himport : ImportRecipeModules import_module module_locations w0
                    = (Ok tt, {| state := state w0;
                                 log := log w0 ++ loading_records module_locations
                                          (module_definitions
                                           ++ default [] (preflights recipe'));
                                 calls := calls w0 |})).
  { rewrite ImportRecipeModules_unfold.
    change (recipe (state w0)) with recipe'. rewrite Hmodules.
    by apply import_all_loadable. }
  rewrite !(bind_ok _ _ _ _ _ Himport), Hmodules. simpl default.
  by rewrite (load_all instantiate _ _ Hinstances).
Qed.

(** X21. [LoadRecipe] and the threads do not agree on a definition whose
    runtime name is the empty string: [LoadRecipe] registers its module
    under its name, the threads look it up under the empty string.  After a
    [LoadRecipe] that returns, on a pool without the empty key and a recipe
    without empty names, the module of such a definition is in the pool
    under its name, but its setup thread ends with [KeyError] on the empty
    string right after its first log line, and so does its run thread once
    its dependencies are set. *)
Theorem empty_runtime_name_is_not_found (import_module : string -> option string)
    (instantiate : string -> string -> Exc + BaseModule)
    (resolver : Args -> Args -> Args)
    (recipe' : Recipe) (module_locations : gmap string string) (w : World)
    (module_definitions : list ModuleDefinition) (md : ModuleDefinition)
    (Hmodules : modules recipe' = Some module_definitions)
    (Hloadable : Forall (loadable import_module module_locations)
                   (module_definitions ++ default [] (preflights recipe')))
    (Hinstances : Forall (fun md => is_Some (instance_of instantiate md))
                    (module_definitions ++ default [] (preflights recipe')))
    (Hnames : Forall (fun md => md_name md <> "")
                (module_definitions ++ default [] (preflights recipe')))
    (Hpool : _module_pool (state w) !! "" = None)
    (Hin : md ∈ module_definitions)
    (Hempty : md_runtime_name md = Some "") :
  let loaded := (LoadRecipe import_module instantiate recipe' module_locations w).2 in
  is_Some (_module_pool (state loaded) !! md_name md) /\
  _SetupModuleThread resolver md loaded
  = (Raised (KeyError ""), logged INFO "Setting up module: " loaded) /\
  (all_set (md_wants md) (state loaded) ->
   _RunModuleThread md loaded = (Raised (KeyError ""), loaded)).
Proof.
  cbv zeta.
  pose proof (LoadRecipe_loaded import_module instantiate recipe' module_locations w
                module_definitions Hmodules Hloadable Hinstances) as Hloaded.
  set (loaded := (LoadRecipe import_module instantiate recipe' module_locations w).2) in *.
  assert (Hkey : pool_key md = md_name md) by (unfold pool_key; by rewrite Hempty).
  assert (Hname : runtime_name_of md = "") by (unfold runtime_name_of; by rewrite Hempty).
  assert (Hmissing : _module_pool (state loaded) !! runtime_name_of md = None).
  { rewrite Hname, Hloaded, filled_other; [done|].
    intros md' Hin'. apply pool_key_nonempty.
    by apply (proj1 (Forall_forall _ _) Hnames). }
  split; [|split].
  - destruct (filled_some instantiate _ (_module_pool (state w)) md Hinstances)
      as (md' & Hin' & Hkey' & Hlookup).
    { apply elem_of_app. by left. }
    rewrite Hloaded, <- Hkey, Hlookup.
    by apply (proj1 (Forall_forall _ _) Hinstances).
  - rewrite (SetupModuleThread_missing resolver md loaded Hmissing). by rewrite Hname.
  - intros Hset. unfold _RunModuleThread.
    rewrite (bind_ok _ _ _ _ _ (wait_all_set _ _ Hset)).
    unfold run_after_wait, mbind, M_bind, get_state, getitem.
    rewrite Hmissing. by rewrite Hname.
Qed.

Lemma empty_runtime_name_is_not_found_witness :
  let loaded := (LoadRecipe ex_import_all ex_instantiate (ex_recipe [ex_md_unnamed])
                   ex_locations initial_world).2 in
  is_Some (_module_pool (state loaded) !! "A") /\
  _SetupModuleThread ex_resolver ex_md_unnamed loaded
  = (Raised (KeyError ""), logged INFO "Setting up module: " loaded).
Proof.
  cbv zeta.
  assert (Hloadable : Forall (loadable ex_import_all ex_locations) [ex_md_unnamed]).
  { repeat constructor. exists "dftimewolf.lib.a". by split. }
  assert (Hinstances : Forall (fun md => is_Some (instance_of ex_instantiate md))
                         [ex_md_unnamed]).
  { repeat constructor. by eexists. }
  assert (Hnames : Forall (fun md => md_name md <> "") [ex_md_unnamed]).
  { by repeat constructor. }
  assert (Hin : ex_md_unnamed ∈ [ex_md_unnamed]) by by left.
  destruct (empty_runtime_name_is_not_found ex_import_all ex_instantiate ex_resolver
              (ex_recipe [ex_md_unnamed]) ex_locations initial_world
              [ex_md_unnamed] ex_md_unnamed eq_refl Hloadable Hinstances Hnames
              eq_refl Hin eq_refl) as (H1 & H2 & _).
  split; [exact H1 | exact H2].
Defined.

(** ** The execution plan *)

Lemma length_append (a b : string) :
  String.length (a +:+ b) = String.length a + String.length b.
Proof.
  induction a as [|x a IH]; [done|].
  change (S (String.length (a +:+ b)) = S (String.length a + String.length b)).
  by rewrite IH.
Qed.

Lemma length_spaces n : String.length (spaces n) = n.
Proof. induction n as [|n IH]; simpl; [done|]. by rewrite IH. Qed.

(** A text that ends with a line break *)
Definition ends_line (s : string) : Prop := exists p, s = p +:+ nl.

Lemma ends_line_append a b : ends_line b -> ends_line (a +:+ b).
Proof. intros [p ->]. exists (a +:+ p). by rewrite append_assoc. Qed.

Lemma split_trailing sep p :
  exists lines, lines <> [] /\ split sep (p +:+ String sep "") = lines ++ [""].
Proof.
  induction p as [|a p (lines & Hne & IH)]; simpl.
  - rewrite Ascii.eqb_refl. by exists [""].
  - rewrite IH. destruct (Ascii.eqb a sep).
    + by exists ("" :: lines).
    + destruct lines as [|x xs]; [done|]. by exists (String a x :: xs).
Qed.

Lemma split_last_empty sep s :
  s = "" \/ (exists p, s = p +:+ String sep "") -> last (split sep s) = Some "".
Proof.
  intros [->|[p ->]]; [done|].
  destruct (split_trailing sep p) as (lines & _ & ->). by rewrite last_snoc.
Qed.

Section PlanLemmas.

Variable resolver : Args -> Args -> Args.
Variable repr : string -> string.

Lemma plan_parameters_end maxlen new_args : forall plan,
  ends_line plan ->
  ends_line (foldl (fun plan '(key, value) =>
                      plan +:+ plan_parameter repr maxlen key value) plan new_args).
Proof.
  induction new_args as [|[key value] rest IH]; intros plan Hplan; [done|].
  simpl. apply IH. apply ends_line_append. unfold plan_parameter.
  exists ("  " +:+ ljust key (maxlen + 3) +:+ repr value).
  by rewrite !append_assoc.
Qed.

Lemma plan_module_ends maxlen options plan module :
  ends_line (plan_module resolver repr maxlen options plan module).
Proof.
  unfold plan_module.
  assert (Hheader : ends_line (plan +:+ plan_header module)).
  { apply ends_line_append. unfold plan_header.
    destruct (md_runtime_name module) as [[|a r]|].
    - exists (md_name module +:+ ":"). by rewrite append_assoc.
    - exists (String a r +:+ " (" +:+ md_name module +:+ "):").
      by rewrite !append_assoc.
    - exists (md_name module +:+ ":"). by rewrite append_assoc. }
  destruct (resolver (md_args module) options) as [|[key value] rest].
  - simpl. apply ends_line_append. by exists "  *No params*".
  - by apply plan_parameters_end.
Qed.

Lemma plan_ends maxlen options definitions : forall plan,
  plan = "" \/ ends_line plan ->
  let plan' := foldl (plan_module resolver repr maxlen options) plan definitions in
  plan' = "" \/ ends_line plan'.
Proof.
  induction definitions as [|module rest IH]; intros plan Hplan; [done|].
  simpl. apply IH. right. apply plan_module_ends.
Qed.

End PlanLemmas.

(** X22. [LogExecutionPlan] returns and changes nothing but the log, to which
    it adds the lines of the plan as debug records: joined by line breaks
    they give back the plan of [FormatExecutionPlan].  The plan is empty or
    ends with a line break, so the last record is always an empty line; for
    a recipe without modules and preflights it is the only record. *)
Theorem LogExecutionPlan_lines (resolver : Args -> Args -> Args)
    (repr : string -> string) (w : World) :
  let plan := FormatExecutionPlan resolver repr (state w) in
  let run := LogExecutionPlan resolver repr w in
  run.1 = Ok tt /\ state run.2 = state w /\ calls run.2 = calls w /\
  (exists lines,
     log run.2 = log w ++ ((fun line => {| level := DEBUG; text := line |}) <$> lines) /\
     join newline lines = plan /\
     last lines = Some "") /\
  (default [] (preflights (recipe (state w))) ++ default [] (modules (recipe (state w))) = [] ->
   log run.2 = log w ++ [{| level := DEBUG; text := "" |}]).
Proof.
  cbv zeta. unfold LogExecutionPlan, mbind, M_bind, get_state.
  rewrite for_each_logger. simpl.
  split; [done|]. split; [done|]. split; [done|]. split.
  - exists (split newline (FormatExecutionPlan resolver repr (state w))).
    split; [done|]. split; [apply join_split|].
    apply split_last_empty. unfold FormatExecutionPlan.
    destruct (plan_ends resolver repr
                (plan_maxlen (default [] (preflights (recipe (state w)))
                              ++ default [] (modules (recipe (state w)))))
                (command_line_options (state w))
                (default [] (preflights (recipe (state w)))
                 ++ default [] (modules (recipe (state w)))) "" (or_introl eq_refl))
      as [Hnil|Hends]; [by left | by right].
  - intros Hnone. unfold FormatExecutionPlan. by rewrite Hnone.
Qed.

Lemma max_by_len_longest keys : forall best,
  let longest := max_by_len best keys in
  String.length best <= String.length longest /\
  Forall (fun key => String.length key <= String.length longest) keys /\
  (longest = best \/ longest ∈ keys).
Proof.
  induction keys as [|key rest IH]; intros best; simpl.
  - split; [done|]. split; [constructor | by left].
  - destruct (Nat.ltb (String.length best) (String.length key)) eqn:Hlt.
    + apply Nat.ltb_lt in Hlt.
      destruct (IH key) as (H1 & H2 & H3). cbv zeta in *.
      split; [lia|]. split; [by constructor|].
      right. destruct H3 as [->|H3]; [by left | by right].
    + apply Nat.ltb_ge in Hlt.
      destruct (IH best) as (H1 & H2 & H3). cbv zeta in *.
      split; [done|]. split; [constructor; [lia | done]|].
      destruct H3 as [->|H3]; [by left | right; by right].
Qed.

Lemma plan_spacing_longest maxlen module :
  let maxlen' := plan_spacing maxlen module in
  maxlen <= maxlen' /\
  (forall key value, (key, value) ∈ md_args module -> String.length key <= maxlen') /\
  (maxlen' = maxlen \/
   exists key value, (key, value) ∈ md_args module /\ String.length key = maxlen').
Proof.
  unfold plan_spacing. destruct (md_args module) as [|[key value] args].
  - split; [done|]. split; [|by left]. intros key value Hin. by apply elem_of_nil in Hin.
  - destruct (max_by_len_longest args.*1 key) as (H1 & H2 & H3). cbv zeta in *.
    set (longest := max_by_len key args.*1) in *.
    assert (Hall : forall k v, (k, v) ∈ (key, value) :: args ->
                               String.length k <= String.length longest).
    { intros k v Hin. apply elem_of_cons in Hin as [[= -> ->]|Hin]; [done|].
      apply (proj1 (Forall_forall _ _) H2). apply list_elem_of_fmap.
      by exists (k, v). }
    assert (Hsome : exists k v, (k, v) ∈ (key, value) :: args /\
                                String.length k = String.length longest).
    { destruct H3 as [->|Hin].
      - exists key, value. split; [by left | done].
      - apply list_elem_of_fmap in Hin as ([k v] & -> & Hin).
        exists k, v. split; [by right | done]. }
    destruct (Nat.ltb (String.length longest) maxlen) eqn:Hlt.
    + apply Nat.ltb_lt in Hlt. split; [done|]. split; [|by left].
      intros k v Hin. specialize (Hall k v Hin). lia.
    + apply Nat.ltb_ge in Hlt. split; [done|]. split; [done | by right].
Qed.

Lemma plan_maxlen_longest definitions : forall maxlen,
  let maxlen' := foldl plan_spacing maxlen definitions in
  maxlen <= maxlen' /\
  (forall md key value,
     md ∈ definitions -> (key, value) ∈ md_args md -> String.length key <= maxlen') /\
  (maxlen' = maxlen \/
   exists md key value,
     md ∈ definitions /\ (key, value) ∈ md_args md /\ String.length key = maxlen').
Proof.
  induction definitions as [|module rest IH]; intros maxlen; simpl.
  - split; [done|]. split; [|by left]. intros md key value Hin.
    by apply elem_of_nil in Hin.
  - destruct (plan_spacing_longest maxlen module) as (H1 & H2 & H3).
    destruct (IH (plan_spacing maxlen module)) as (H4 & H5 & H6). cbv zeta in *.
    split; [lia|]. split.
    + intros md key value Hin Hkey. apply elem_of_cons in Hin as [->|Hin].
      * specialize (H2 key value Hkey). lia.
      * by apply (H5 md key value).
    + destruct H6 as [H6|(md & key & value & Hin & Hkey & Hlen)].
      * destruct H3 as [H3|(key & value & Hkey & Hlen)].
        -- left. congruence.
        -- right. exists module, key, value. split; [by left|]. split; [done|].
           congruence.
      * right. exists md, key, value. split; [by right | done].
Qed.

Section PlanText.

Variable resolver : Args -> Args -> Args.
Variable repr : string -> string.

Local Abbreviation add_parameter maxlen :=
  (fun (plan : string) '(key, value) => plan +:+ plan_parameter repr maxlen key value).

(** What the loops add does not depend on the plan they add it to. *)
Lemma plan_parameters_acc maxlen new_args : forall a b,
  foldl (add_parameter maxlen) (a +:+ b) new_args
  = a +:+ foldl (add_parameter maxlen) b new_args.
Proof.
  induction new_args as [|[key value] rest IH]; intros a b; [done|].
  simpl. by rewrite append_assoc, IH.
Qed.

Lemma plan_module_acc maxlen options module a b :
  plan_module resolver repr maxlen options (a +:+ b) module
  = a +:+ plan_module resolver repr maxlen options b module.
Proof.
  unfold plan_module. destruct (resolver (md_args module) options) as [|[key value] rest].
  - simpl. by rewrite !append_assoc.
  - by rewrite append_assoc, plan_parameters_acc.
Qed.

Lemma plan_acc maxlen options definitions : forall a b,
  foldl (plan_module resolver repr maxlen options) (a +:+ b) definitions
  = a +:+ foldl (plan_module resolver repr maxlen options) b definitions.
Proof.
  induction definitions as [|module rest IH]; intros a b; [done|].
  simpl. by rewrite plan_module_acc, IH.
Qed.

Lemma plan_parameters_line maxlen key value new_args : forall plan,
  ends_line plan -> (key, value) ∈ new_args ->
  exists before after,
    ends_line before /\
    foldl (add_parameter maxlen) plan new_args
    = before +:+ (plan_parameter repr maxlen key value +:+ after).
Proof.
  induction new_args as [|[key0 value0] rest IH]; intros plan Hplan Hin.
  - by apply elem_of_nil in Hin.
  - simpl. apply elem_of_cons in Hin as [[= <- <-]|Hin].
    + exists plan, (foldl (add_parameter maxlen) "" rest). split; [done|].
      rewrite <- append_assoc.
      rewrite <- (append_empty_r (plan +:+ plan_parameter repr maxlen key value)) at 1.
      by rewrite plan_parameters_acc.
    + apply IH; [|done]. apply ends_line_append. unfold plan_parameter.
      exists ("  " +:+ ljust key0 (maxlen + 3) +:+ repr value0).
      by rewrite !append_assoc.
Qed.

Lemma plan_module_line maxlen options plan module key value :
  (key, value) ∈ resolver (md_args module) options ->
  exists before after,
    ends_line before /\
    plan_module resolver repr maxlen options plan module
    = before +:+ (plan_parameter repr maxlen key value +:+ after).
Proof.
  intros Hin. unfold plan_module.
  assert (Hheader : ends_line (plan +:+ plan_header module)).
  { apply ends_line_append. unfold plan_header.
    destruct (md_runtime_name module) as [[|a r]|].
    - exists (md_name module +:+ ":"). by rewrite append_assoc.
    - exists (String a r +:+ " (" +:+ md_name module +:+ "):").
      by rewrite !append_assoc.
    - exists (md_name module +:+ ":"). by rewrite append_assoc. }
  destruct (resolver (md_args module) options) as [|[key0 value0] rest] eqn:Hargs.
  - by apply elem_of_nil in Hin.
  - by apply plan_parameters_line.
Qed.

Lemma plan_line maxlen options definitions module key value : forall plan,
  module ∈ definitions ->
  (key, value) ∈ resolver (md_args module) options ->
  exists before after,
    ends_line before /\
    foldl (plan_module resolver repr maxlen options) plan definitions
    = before +:+ (plan_parameter repr maxlen key value +:+ after).
Proof.
  induction definitions as [|module0 rest IH]; intros plan Hmodule Hin.
  - by apply elem_of_nil in Hmodule.
  - simpl. apply elem_of_cons in Hmodule as [<-|Hmodule]; [|by apply IH].
    destruct (plan_module_line maxlen options plan module key value Hin)
      as (before & after & Hbefore & ->).
    exists before, (foldl (plan_module resolver repr maxlen options) after rest).
    split; [done|]. by rewrite !plan_acc.
Qed.

End PlanText.

(** X23. The column of the values in the text of [FormatExecutionPlan], for
    texts whose characters are those of [ascii].  The width that the first
    loop computes is the length of the longest argument name of the recipe
    (zero when no definition has arguments).  Every argument that the
    resolver returns for a definition of the recipe is a whole line of the
    plan: two spaces, the name filled with spaces to the width plus three,
    the [repr] of the value.  When the name is no longer than the width, as
    every argument name of the recipe is, at least three spaces follow it
    and the value starts at column width plus five; a name that the
    resolver returns and that is longer than the width plus two is followed
    by no space at all. *)
Theorem plan_values_aligned (resolver : Args -> Args -> Args)
    (repr : string -> string) (s : DFTimewolfState) :
  let definitions :=
    default [] (preflights (recipe s)) ++ default [] (modules (recipe s)) in
  let maxlen := plan_maxlen definitions in
  let plan := FormatExecutionPlan resolver repr s in
  ((exists md key value,
      md ∈ definitions /\ (key, value) ∈ md_args md /\ String.length key = maxlen) \/
   (maxlen = 0 /\ forall md, md ∈ definitions -> md_args md = [])) /\
  (forall md key value,
     md ∈ definitions -> (key, value) ∈ md_args md -> String.length key <= maxlen) /\
  (forall md key value,
     md ∈ definitions ->
     (key, value) ∈ resolver (md_args md) (command_line_options s) ->
     exists before after,
       plan = (before +:+ nl)
              +:+ (("  " +:+ key +:+ spaces (maxlen + 3 - String.length key))
                   +:+ repr value +:+ nl)
              +:+ after) /\
  (forall key,
     String.length key <= maxlen ->
     3 <= maxlen + 3 - String.length key /\
     String.length ("  " +:+ key +:+ spaces (maxlen + 3 - String.length key))
     = maxlen + 5) /\
  (forall key,
     maxlen + 3 <= String.length key ->
     "  " +:+ key +:+ spaces (maxlen + 3 - String.length key) = "  " +:+ key).
Proof.
  cbv zeta.
  destruct (plan_maxlen_longest
              (default [] (preflights (recipe s)) ++ default [] (modules (recipe s))) 0)
    as (_ & Hall & Hsome). cbv zeta in *.
  fold (plan_maxlen (default [] (preflights (recipe s)) ++ default [] (modules (recipe s))))
    in *.
  set (definitions := default [] (preflights (recipe s)) ++ default [] (modules (recipe s)))
    in *.
  set (maxlen := plan_maxlen definitions) in *.
  split; [|split; [|split; [|split]]].
  - destruct Hsome as [Hzero|Hsome]; [|by left].
    destruct (decide (Forall (fun md => md_args md = []) definitions)) as [Hempty|Hargs].
    + right. split; [done|]. by apply Forall_forall.
    + left. apply not_Forall_Exists in Hargs; [|apply _].
      apply Exists_exists in Hargs as (md & Hin & Hargs).
      destruct (md_args md) as [|[key value] args] eqn:Hmd; [done|].
      exists md, key, value. split; [done|]. split; [rewrite Hmd; by left|].
      assert (Hle : String.length key <= maxlen).
      { apply (Hall md key value Hin). rewrite Hmd. by left. }
      lia.
  - exact Hall.
  - intros md key value Hmd Hin. unfold FormatExecutionPlan.
    destruct (plan_line resolver repr maxlen (command_line_options s) definitions
                md key value "" Hmd Hin) as (before & after & [p ->] & Hplan).
    exists p, after. fold definitions. fold maxlen. rewrite Hplan.
    unfold plan_parameter, ljust. by rewrite !append_assoc.
  - intros key Hle. split; [lia|].
    rewrite !length_append, length_spaces. simpl. lia.
  - intros key Hlong.
    replace (maxlen + 3 - String.length key) with 0 by lia.
    simpl. by rewrite append_empty_r.
Qed.
